(** * Breadcrumbs: a shallow embedding of [src/index.ts]

    The extension keeps a bounded, deduplicated trail of visited Roam
    locations.  This development embeds the pure core of [src/index.ts]
    (settings parsing, hash parsing, markdown stripping, label truncation,
    history update) and the asynchronous navigation handler, and states the
    properties of the specification over that embedding.

    Conventions.
    - A JavaScript string is the list of its UTF-16 code units ([str]);
      [String.length] is [List.length].
    - A JavaScript [number] is [number] below: the finite doubles are read as
      rationals, on which comparison and [Math.floor] are exact.
    - The regular expressions of the source use only literals and quantified
      one-character classes, with at most one capture group around such a
      class; [atom] covers exactly that fragment, and [matchp] is the
      backtracking matcher of ECMAScript restricted to it.
    - Module-level variables ([breadcrumbHistory], [currentLocation]) become
      a state record threaded through the handler; an [await] on a Roam query
      becomes a suspension that the scheduler resumes with the answer. *)

From Stdlib Require Import Ascii String.
From Stdlib Require Import List Bool Arith NArith ZArith QArith Qround Lia.
Import ListNotations.
Close Scope Q_scope.

Set Implicit Arguments.

(* ================================================================== *)
(** ** JavaScript strings *)

Definition str := list N.

(** Code units of an ASCII literal. *)
Definition js (s : string) : str :=
  map N_of_ascii (list_ascii_of_string s).

Definition ch (a : ascii) : N := N_of_ascii a.

(** [WhiteSpace] and [LineTerminator] code units, as removed by
    [String.prototype.trim]. *)
Definition is_white_space (c : N) : bool :=
  (((9 <=? c) && (c <=? 13)) || (c =? 32) || (c =? 160) || (c =? 5760)
   || ((8192 <=? c) && (c <=? 8202)) || (c =? 8232) || (c =? 8233)
   || (c =? 8239) || (c =? 8287) || (c =? 12288) || (c =? 65279))%N.

(** [LineTerminator]: the code units that [.] does not match. *)
Definition is_line_terminator (c : N) : bool :=
  ((c =? 10) || (c =? 13) || (c =? 8232) || (c =? 8233))%N.

Fixpoint drop_while (p : N -> bool) (s : str) : str :=
  match s with
  | [] => []
  | c :: s' => if p c then drop_while p s' else s
  end.

(** [s.trim()] *)
Definition trim (s : str) : str :=
  rev (drop_while is_white_space (rev (drop_while is_white_space s))).

(* ================================================================== *)
(** ** JavaScript numbers *)

Inductive number : Type :=
| NaN
| PosInf
| NegInf
| Finite (q : Q).

Definition num_of_Z (z : Z) : number := Finite (inject_Z z).
Definition num_of_nat (n : nat) : number := num_of_Z (Z.of_nat n).

(** [Number.isFinite] *)
Definition isFinite (x : number) : bool :=
  match x with Finite _ => true | _ => false end.

(** [a > b] *)
Definition num_gtb (a b : number) : bool :=
  match a, b with
  | NaN, _ | _, NaN => false
  | PosInf, PosInf => false
  | PosInf, _ => true
  | _, PosInf => false
  | NegInf, _ => false
  | Finite _, NegInf => true
  | Finite p, Finite q => negb (Qle_bool p q)
  end.

(** [a <= b] *)
Definition num_leb (a b : number) : bool :=
  match a, b with
  | NaN, _ | _, NaN => false
  | _, PosInf => true
  | PosInf, _ => false
  | NegInf, _ => true
  | Finite _, NegInf => false
  | Finite p, Finite q => Qle_bool p q
  end.

(** [a + b]; on finite operands the sum is taken exactly (no rounding
    happens below 2^53, far above any array or string length). *)
Definition num_add (a b : number) : number :=
  match a, b with
  | NaN, _ | _, NaN => NaN
  | PosInf, NegInf | NegInf, PosInf => NaN
  | PosInf, _ | _, PosInf => PosInf
  | NegInf, _ | _, NegInf => NegInf
  | Finite p, Finite q => Finite (p + q)%Q
  end.

(** [a - b] *)
Definition num_sub (a b : number) : number :=
  match a, b with
  | NaN, _ | _, NaN => NaN
  | PosInf, PosInf | NegInf, NegInf => NaN
  | PosInf, _ | _, NegInf => PosInf
  | NegInf, _ | _, PosInf => NegInf
  | Finite p, Finite q => Finite (p - q)%Q
  end.

(** [Math.floor] *)
Definition Math_floor (x : number) : number :=
  match x with
  | Finite q => Finite (inject_Z (Qfloor q))
  | _ => x
  end.

(** The [final] index computed by [Array.prototype.slice(0, end)] and
    [String.prototype.slice(0, end)] on a receiver of length [len]:
    [ToIntegerOrInfinity(end)] truncates towards zero, a negative index counts
    from the end, and the result is clamped to [0 .. len]. *)
Definition slice_final (e : number) (len : nat) : nat :=
  match e with
  | NaN => 0
  | NegInf => 0
  | PosInf => len
  | Finite q =>
      let k := Z.quot (Qnum q) (Zpos (Qden q)) in
      if (k <? 0)%Z then Z.to_nat (Z.max (Z.of_nat len + k) 0)
      else Nat.min (Z.to_nat k) len
  end.

(** [xs.slice(0, end)] *)
Definition slice0 (A : Type) (e : number) (xs : list A) : list A :=
  firstn (slice_final e (length xs)) xs.

(* ================================================================== *)
(** ** Regular expressions *)

(** The fragment of ECMAScript patterns used by the source: a pattern is a
    sequence of atoms; an atom is a literal code unit or a quantified
    one-character class ([x*], [x+], [x*?]), possibly wrapped in the capture
    group 1. *)
Inductive atom : Type :=
| Lit (c : N)
| Rep (greedy : bool) (min : nat) (cls : N -> bool) (capture : bool).

Definition pattern := list atom.

(** Length of the longest prefix of [s] inside the class. *)
Fixpoint run (cls : N -> bool) (s : str) : nat :=
  match s with
  | c :: s' => if cls c then S (run cls s') else 0
  | [] => 0
  end.

(** The repetition counts a quantifier tries, in the order it tries them:
    a greedy quantifier from the longest run down to [min], a lazy one from
    [min] up to the longest run. *)
Definition candidates (greedy : bool) (min longest : nat) : list nat :=
  let up := seq min (S longest - min) in
  if greedy then rev up else up.

Fixpoint first_some (A B : Type) (f : A -> option B) (l : list A) : option B :=
  match l with
  | [] => None
  | a :: l' => match f a with
               | Some b => Some b
               | None => first_some f l'
               end
  end.

(** [matchp r cap s]: match [r] at the start of [s]; the result is the
    content of group 1 (or [cap] when the pattern has none) and the input
    left after the match.  Backtracking is the order of [candidates]. *)
Fixpoint matchp (r : pattern) (cap : option str) (s : str)
  : option (option str * str) :=
  match r with
  | [] => Some (cap, s)
  | Lit c :: r' =>
      match s with
      | x :: s' => if (x =? c)%N then matchp r' cap s' else None
      | [] => None
      end
  | Rep greedy min cls capture :: r' =>
      first_some
        (fun n => matchp r' (if capture then Some (firstn n s) else cap)
                         (skipn n s))
        (candidates greedy min (run cls s))
  end.

(** [s.match(r)] for a pattern without the [g] flag: the leftmost position
    at which [r] matches; the result is the content of group 1. *)
Fixpoint search (r : pattern) (s : str) : option (option str) :=
  match matchp r None s with
  | Some (cap, _) => Some cap
  | None => match s with
            | [] => None
            | _ :: s' => search r s'
            end
  end.

(** Replacement templates: literal text and [$1]. *)
Inductive titem : Type :=
| TText (t : str)
| TGroup1.

Definition template := list titem.

Definition expand (t : template) (cap : option str) : str :=
  flat_map (fun i => match i with
                     | TText x => x
                     | TGroup1 => match cap with Some c => c | None => [] end
                     end) t.

(** [s.replace(r, t)] with the [g] flag: every match, left to right, never
    overlapping.  [skip] counts the code units of the current match still
    to be dropped.  Every pattern of the source consumes at least two code
    units, so the empty-match rule of ECMAScript never applies. *)
Fixpoint replace_go (r : pattern) (t : template) (skip : nat) (s : str) : str :=
  match s with
  | [] => []
  | c :: s' =>
      match skip with
      | S k => replace_go r t k s'
      | O =>
          match matchp r None s with
          | Some (cap, rest) =>
              expand t cap ++ replace_go r t (length s - length rest - 1) s'
          | None => c :: replace_go r t 0 s'
          end
      end
  end.

Definition replace_all (r : pattern) (t : template) (s : str) : str :=
  replace_go r t 0 s.

(** Character classes of the source. *)
Definition not_char (a : ascii) (c : N) : bool := negb (c =? ch a)%N.
Definition dot (c : N) : bool := negb (is_line_terminator c).

(** [[a-zA-Z0-9_-]] *)
Definition is_uid_char (c : N) : bool :=
  (((97 <=? c) && (c <=? 122)) || ((65 <=? c) && (c <=? 90))
   || ((48 <=? c) && (c <=? 57)) || (c =? 95) || (c =? 45))%N.

Definition lits (s : string) : pattern := map Lit (js s).

(** [x+] and [x*] (greedy), [x*?] (lazy), and the captured [(x+)]. *)
Definition plus (cls : N -> bool) : atom := Rep true 1 cls false.
Definition star (cls : N -> bool) : atom := Rep true 0 cls false.
Definition star_lazy (cls : N -> bool) : atom := Rep false 0 cls false.
Definition group_plus (cls : N -> bool) : atom := Rep true 1 cls true.

(* ================================================================== *)
(** ** Data model of [src/index.ts] *)

Inductive LocationType : Type := page | block.

Record Location : Type := mkLocation {
  loc_type : LocationType;
  loc_uid : str
}.

Record BreadcrumbItem : Type := mkItem {
  uid : str;
  type : LocationType;
  title : str
}.

Record ExtensionSettings : Type := mkSettings {
  maxBreadcrumbs : number;
  truncateLength : number
}.

Definition DEFAULT_SETTINGS : ExtensionSettings :=
  {| maxBreadcrumbs := num_of_Z 8; truncateLength := num_of_Z 25 |}.

(** Equality of strings ([===] and [!==] on strings compare code units). *)
Fixpoint str_eqb (a b : str) : bool :=
  match a, b with
  | [], [] => true
  | x :: a', y :: b' => (x =? y)%N && str_eqb a' b'
  | _, _ => false
  end.

(** Truthiness of a possibly missing string: [x || null], [if (x)]. *)
Definition truthy (o : option str) : option str :=
  match o with
  | Some (c :: s) => Some (c :: s)
  | _ => None
  end.

(* ================================================================== *)
(** ** Settings *)

(** Values the settings store can hand back ([unknown] in the source). *)
Inductive jsvalue : Type :=
| JUndefined
| JNull
| JBoolean (b : bool)
| JNumber (n : number)
| JString (s : str).

Section Settings.

(** [StringToNumber] of ECMAScript (numeric literal grammar of strings);
    it is part of the language, not of this repository. *)
Variable StringToNumber : str -> number.

(** [Number(value)] *)
Definition Number_ (value : jsvalue) : number :=
  match value with
  | JUndefined => NaN
  | JNull => num_of_Z 0
  | JBoolean b => if b then num_of_Z 1 else num_of_Z 0
  | JNumber n => n
  | JString s => StringToNumber s
  end.

Definition parsePositiveInteger (value : jsvalue) (fallback : number) : number :=
  let parsed := Number_ value in
  if isFinite parsed && num_gtb parsed (num_of_Z 0)
  then Math_floor parsed
  else fallback.

(** [extensionAPI.settings.get] is the accessor [get]. *)
Definition readSettings (get : string -> jsvalue) : ExtensionSettings :=
  {| maxBreadcrumbs :=
       parsePositiveInteger (get "maxBreadcrumbs"%string)
                            (maxBreadcrumbs DEFAULT_SETTINGS);
     truncateLength :=
       parsePositiveInteger (get "truncateLength"%string)
                            (truncateLength DEFAULT_SETTINGS) |}.

End Settings.

(* ================================================================== *)
(** ** Location resolver *)

(** [/\/page\/[^?]+\?.*block=([a-zA-Z0-9_-]+)/] *)
Definition block_re : pattern :=
  lits "/page/" ++ [plus (not_char "?")] ++ lits "?" ++ [star dot]
  ++ lits "block=" ++ [group_plus is_uid_char].

(** [/\/page\/([a-zA-Z0-9_-]+)/] *)
Definition page_re : pattern :=
  lits "/page/" ++ [group_plus is_uid_char].

(** [m?.[1]] *)
Definition group1 (m : option (option str)) : option str :=
  match m with
  | Some cap => cap
  | None => None
  end.

(** [getLocationFromHash]; [hash] is the value of [window.location.hash]
    at the time of the call. *)
Definition getLocationFromHash (hash : str) : option Location :=
  let blockMatch := search block_re hash in
  match truthy (group1 blockMatch) with
  | Some u => Some {| loc_type := block; loc_uid := u |}
  | None =>
      let pageMatch := search page_re hash in
      match truthy (group1 pageMatch) with
      | Some u => Some {| loc_type := page; loc_uid := u |}
      | None => None
      end
  end.

(* ================================================================== *)
(** ** Content labeler *)

Definition stripMarkdown (text : str) : str :=
  let s := replace_all (lits "**" ++ [group_plus (not_char "*")] ++ lits "**")
                       [TGroup1] text in
  let s := replace_all (lits "__" ++ [group_plus (not_char "_")] ++ lits "__")
                       [TGroup1] s in
  let s := replace_all (lits "*" ++ [group_plus (not_char "*")] ++ lits "*")
                       [TGroup1] s in
  let s := replace_all (lits "_" ++ [group_plus (not_char "_")] ++ lits "_")
                       [TGroup1] s in
  let s := replace_all (lits "~~" ++ [group_plus (not_char "~")] ++ lits "~~")
                       [TGroup1] s in
  let s := replace_all (lits "[[" ++ [group_plus (not_char "]")] ++ lits "]]")
                       [TGroup1] s in
  let s := replace_all (lits "((" ++ [group_plus (not_char ")")] ++ lits "))")
                       [TText (js "->")] s in
  let s := replace_all (lits "```" ++ [star (not_char "`")] ++ lits "```")
                       [TText (js "[code]")] s in
  let s := replace_all (lits "`" ++ [group_plus (not_char "`")] ++ lits "`")
                       [TGroup1] s in
  let s := replace_all (lits "![" ++ [star_lazy dot] ++ lits "](" ++ [star_lazy dot]
                        ++ lits ")")
                       [TText (js "[img]")] s in
  let s := replace_all (lits "[" ++ [group_plus (not_char "]")] ++ lits "]("
                        ++ [plus (not_char ")")] ++ lits ")")
                       [TGroup1] s in
  let s := replace_all (lits "{{" ++ [star_lazy dot] ++ lits "}}")
                       [] s in
  let s := replace_all (lits "#[[" ++ [group_plus (not_char "]")] ++ lits "]]")
                       [TText (js "#"); TGroup1] s in
  trim s.

Definition truncateText (text : str) (maxLength : number) : str :=
  let cleaned := stripMarkdown text in
  if num_leb (num_of_nat (length cleaned)) maxLength then cleaned
  else slice0 (num_sub maxLength (num_of_Z 1)) cleaned ++ js "...".

(* ================================================================== *)
(** ** History store *)

(** [updateBreadcrumbHistory]; the module variable [breadcrumbHistory] is
    the argument [history] and the result. *)
Definition updateBreadcrumbHistory (item : BreadcrumbItem) (maxBreadcrumbs : number)
    (history : list BreadcrumbItem) : list BreadcrumbItem :=
  let history :=
    filter (fun historyItem => negb (str_eqb (uid historyItem) (uid item))) history in
  let history := item :: history in
  let maxEntries := num_add maxBreadcrumbs (num_of_Z 1) in
  if num_gtb (num_of_nat (length history)) maxEntries
  then slice0 maxEntries history
  else history.

(* ================================================================== *)
(** ** Content resolution *)

(** The two Datalog queries sent to [window.roamAlphaAPI.q]. *)
Inductive Query : Type :=
| PageTitleQuery (uid : str)
| BlockStringQuery (uid : str).

(** What the host answers: rows of strings, or nothing. *)
Definition QueryResult := option (list (list str)).

(** An [async] function that does not touch the module variables: it
    returns, or awaits the answer to a query and goes on. *)
Inductive Async (A : Type) : Type :=
| Ret (a : A)
| Await (q : Query) (k : QueryResult -> Async A).

Arguments Ret {A} a.
Arguments Await {A} q k.

Fixpoint bind (A B : Type) (m : Async A) (f : A -> Async B) : Async B :=
  match m with
  | Ret a => f a
  | Await q k => Await q (fun r => bind (k r) f)
  end.

(** [pageResult?.[0]?.[0] || null] *)
Definition pageTitleOf (pageResult : QueryResult) : option str :=
  match pageResult with
  | Some ((t :: _) :: _) => truthy (Some t)
  | _ => None
  end.

(** [if (!blockResult?.length) return null;
     return blockResult[0][0] || "(empty block)"] *)
Definition blockStringOf (blockResult : QueryResult) : option str :=
  match blockResult with
  | None | Some [] => None
  | Some (row :: _) =>
      match truthy (hd_error row) with
      | Some s => Some s
      | None => Some (js "(empty block)")
      end
  end.

Definition queryPageTitle (uid : str) : Async (option str) :=
  Await (PageTitleQuery uid) (fun pageResult => Ret (pageTitleOf pageResult)).

Definition queryBlockString (uid : str) : Async (option str) :=
  Await (BlockStringQuery uid) (fun blockResult => Ret (blockStringOf blockResult)).

Definition getBreadcrumbItemByUid (uid : str) : Async (option BreadcrumbItem) :=
  bind (queryPageTitle uid) (fun pageTitle =>
    match truthy pageTitle with
    | Some t => Ret (Some {| uid := uid; type := page; title := t |})
    | None =>
        bind (queryBlockString uid) (fun blockString =>
          match truthy blockString with
          | None => Ret None
          | Some b => Ret (Some {| uid := uid; type := block; title := b |})
          end)
    end).

(* ================================================================== *)
(** ** Navigation controller *)

(** The module variables the handler reads and writes.  The breadcrumb
    strip in the DOM is a projection of [breadcrumbHistory] and is not part
    of the state. *)
Record GState : Type := mkGState {
  breadcrumbHistory : list BreadcrumbItem;
  currentLocation : option Location
}.

(** A started handler: finished, or suspended at an [await] of a query;
    when the answer arrives it runs on the module variables as they are
    then, up to its next suspension. *)
#[warnings="-register-all"]
Inductive Task : Type :=
| Finished
| Awaiting (q : Query) (k : QueryResult -> GState -> GState * Task).

(** Run [m]; with its result, [commit] on the state of that moment. *)
Fixpoint resume (A : Type) (m : Async A) (commit : A -> GState -> GState)
    (st : GState) : GState * Task :=
  match m with
  | Ret a => (commit a st, Finished)
  | Await q k => (st, Awaiting q (fun r st' => resume (k r) commit st'))
  end.

(** [currentLocation?.uid === location.uid] *)
Definition same_uid (current : option Location) (location : Location) : bool :=
  match current with
  | Some c => str_eqb (loc_uid c) (loc_uid location)
  | None => false
  end.

(** [handleNavigation]; [hash] is [window.location.hash] when the handler
    starts. *)
Definition handleNavigation (settings : ExtensionSettings) (hash : str)
    (st : GState) : GState * Task :=
  match getLocationFromHash hash with
  | None => (st, Finished)
  | Some location =>
      if same_uid (currentLocation st) location then (st, Finished)
      else
        resume (getBreadcrumbItemByUid (loc_uid location))
          (fun breadcrumbItem st' =>
             match breadcrumbItem with
             | None => st'
             | Some item =>
                 {| breadcrumbHistory :=
                      updateBreadcrumbHistory item (maxBreadcrumbs settings)
                                              (breadcrumbHistory st');
                    currentLocation := Some location |}
             end)
          st
  end.

(** [cleanup] resets both module variables. *)
Definition cleanup (st : GState) : GState :=
  {| breadcrumbHistory := []; currentLocation := None |}.

Definition initial : GState :=
  {| breadcrumbHistory := []; currentLocation := None |}.

(** *** The event loop

    One thread of control: a [hashchange] event starts a handler, which runs
    to its first [await]; the arrival of a query answer resumes the handler
    that waits for it.  Handlers are numbered in the order they started. *)
Record World : Type := mkWorld {
  globals : GState;
  handlers : list Task
}.

Inductive Event : Type :=
| Hashchange (hash : str)
| Answer (handler : nat) (r : QueryResult).

Fixpoint set_nth (A : Type) (i : nat) (x : A) (l : list A) : list A :=
  match l, i with
  | [], _ => []
  | _ :: l', O => x :: l'
  | y :: l', S j => y :: set_nth j x l'
  end.

Definition step (settings : ExtensionSettings) (w : World) (ev : Event) : World :=
  match ev with
  | Hashchange hash =>
      let (st, t) := handleNavigation settings hash (globals w) in
      {| globals := st; handlers := handlers w ++ [t] |}
  | Answer i r =>
      match nth_error (handlers w) i with
      | Some (Awaiting _ k) =>
          let (st, t) := k r (globals w) in
          {| globals := st; handlers := set_nth i t (handlers w) |}
      | _ => w
      end
  end.

Definition run_events (settings : ExtensionSettings) (w : World) (evs : list Event)
  : World :=
  fold_left (step settings) evs w.

(** The hash of the most recent [hashchange] of a run of events. *)
Fixpoint latest_hash (evs : list Event) (acc : option str) : option str :=
  match evs with
  | [] => acc
  | Hashchange h :: evs' => latest_hash evs' (Some h)
  | Answer _ _ :: evs' => latest_hash evs' acc
  end.

(* ================================================================== *)
(** ** Navigation trigger *)

(** The two calls into [window.roamAlphaAPI.ui.mainWindow]. *)
Inductive HostCall : Type :=
| OpenPage (uid : str)
| OpenBlock (uid : str).

(** [navigateTo]: the call it makes. *)
Definition navigateTo (uid : str) (type : LocationType) : HostCall :=
  match type with
  | page => OpenPage uid
  | block => OpenBlock uid
  end.

(* ================================================================== *)
(** ** Render projector *)

(** A [span] as the code builds it: class, text, [title] attribute, and the
    call its click listener makes, when it has one. *)
Record Span : Type := mkSpan {
  className : str;
  textContent : str;
  tooltip : str;
  onClick : option HostCall
}.

(** What the content container holds: a text node, or child elements. *)
Inductive Content : Type :=
| TextContent (text : str)
| Children (spans : list Span).

Definition createSeparatorElement : Span :=
  {| className := js "breadcrumb-separator";
     textContent := js ">";
     tooltip := [];
     onClick := None |}.

Definition createBreadcrumbElement (item : BreadcrumbItem) (isCurrent : bool)
    (truncateLength : number) : Span :=
  let typeClass :=
    match type item with
    | page => js "breadcrumb-page"
    | block => js "breadcrumb-block"
    end in
  {| className :=
       trim (js "breadcrumb-item " ++ typeClass ++ js " "
             ++ (if isCurrent then js "breadcrumb-current" else []));
     textContent := truncateText (title item) truncateLength;
     tooltip := stripMarkdown (title item);
     onClick := if isCurrent then None
                else Some (navigateTo (uid item) (type item)) |}.

(** The body of [displayOrder.forEach((item, index) => ...)], from [index]
    on; [len] is [displayOrder.length]. *)
Fixpoint appendBreadcrumbs (truncateLength : number) (len index : nat)
    (displayOrder : list BreadcrumbItem) : list Span :=
  match displayOrder with
  | [] => []
  | item :: rest =>
      let isCurrent := index =? len - 1 in
      (if 0 <? index then [createSeparatorElement] else [])
      ++ createBreadcrumbElement item isCurrent truncateLength
         :: appendBreadcrumbs truncateLength len (S index) rest
  end.

(** What [renderBreadcrumbs] leaves in the content container, when there
    is one. *)
Definition renderContent (truncateLength : number)
    (breadcrumbHistory : list BreadcrumbItem) : Content :=
  match breadcrumbHistory with
  | [] => TextContent (js "No history yet")
  | _ :: _ =>
      let displayOrder := rev breadcrumbHistory in
      Children (appendBreadcrumbs truncateLength (length displayOrder) 0 displayOrder)
  end.

(* ================================================================== *)
(** ** Mount point

    The part of the document the code looks at: the children of the element
    [.rm-topbar], when there is one.  The panel [#roam-breadcrumbs-panel]
    with its [.breadcrumbs-content] child exists only where this code put it,
    so [getElementById] is a search among these children. *)
Inductive DomNode : Type :=
| PanelNode (content : Content)
| HostNode (tag : nat).

Record Document : Type := mkDocument {
  topbar : option (list DomNode)
}.

Definition is_panel (n : DomNode) : bool :=
  match n with
  | PanelNode _ => true
  | HostNode _ => false
  end.

(** [document.getElementById(UI_IDS.panel)] finds something. *)
Definition hasPanel (doc : Document) : bool :=
  match topbar doc with
  | Some children => existsb is_panel children
  | None => false
  end.

(** [getOrCreatePanel]: the document it leaves, and whether it returns a
    panel ([true]) or [null] ([false]). *)
Definition getOrCreatePanel (doc : Document) : Document * bool :=
  if hasPanel doc then (doc, true)
  else
    match topbar doc with
    | None => (doc, false)
    | Some children =>
        let panel := PanelNode (Children []) in
        match children with
        | firstChild :: nextSibling :: rest =>
            ({| topbar := Some (firstChild :: panel :: nextSibling :: rest) |}, true)
        | _ => ({| topbar := Some (children ++ [panel]) |}, true)
        end
    end.

(** Replace the content of the first panel. *)
Fixpoint setPanelContent (c : Content) (children : list DomNode) : list DomNode :=
  match children with
  | [] => []
  | PanelNode _ :: rest => PanelNode c :: rest
  | n :: rest => n :: setPanelContent c rest
  end.

(** [renderBreadcrumbs], on the document: [getContentContainer] mounts the
    panel when it can, and the content is replaced. *)
Definition renderBreadcrumbs (truncateLength : number)
    (breadcrumbHistory : list BreadcrumbItem) (doc : Document) : Document :=
  match getOrCreatePanel doc with
  | (doc', false) => doc'
  | (doc', true) =>
      {| topbar :=
           option_map (setPanelContent (renderContent truncateLength breadcrumbHistory))
                      (topbar doc') |}
  end.

(** [document.getElementById(UI_IDS.panel)?.remove()], the part of
    [cleanup] that touches the top bar. *)
Fixpoint removeFirstPanel (children : list DomNode) : list DomNode :=
  match children with
  | [] => []
  | PanelNode _ :: rest => rest
  | n :: rest => n :: removeFirstPanel rest
  end.

Definition removePanel (doc : Document) : Document :=
  {| topbar := option_map removeFirstPanel (topbar doc) |}.

(** The content shown by the panel, if any. *)
Fixpoint panelContent (children : list DomNode) : option Content :=
  match children with
  | [] => None
  | PanelNode c :: _ => Some c
  | _ :: rest => panelContent rest
  end.

(* ================================================================== *)
(** ** Running a resolution against the host *)

(** Run an [async] function with the host answering every query at once;
    the result and the queries sent, in order. *)
Fixpoint run_async (A : Type) (host : Query -> QueryResult) (m : Async A)
  : A * list Query :=
  match m with
  | Ret a => (a, [])
  | Await q k =>
      let (a, sent) := run_async host (k (host q)) in
      (a, q :: sent)
  end.

(* ================================================================== *)
(** ** The history contract, in the words of the specification *)

(** Remove every entry whose id is [u]. *)
Fixpoint remove_uid (u : str) (h : list BreadcrumbItem) : list BreadcrumbItem :=
  match h with
  | [] => []
  | x :: h' => if str_eqb (uid x) u then remove_uid u h' else x :: remove_uid u h'
  end.

(** Dedup, prepend, keep the first [cap + 1]. *)
Definition upsert_contract (entry : BreadcrumbItem) (cap : Z)
    (h : list BreadcrumbItem) : list BreadcrumbItem :=
  firstn (Z.to_nat (cap + 1)) (entry :: remove_uid (uid entry) h).

(** A sequence of upserts with one cap, oldest call first. *)
Definition upserts (cap : number) (entries : list BreadcrumbItem)
    (h : list BreadcrumbItem) : list BreadcrumbItem :=
  fold_left (fun acc e => updateBreadcrumbHistory e cap acc) entries h.

(* ================================================================== *)
(** ** Vocabulary of the statements *)

(** A positive integer among the numbers. *)
Definition is_positive_integer (x : number) : bool :=
  match x with
  | Finite q => Qeq_bool q (inject_Z (Qfloor q)) && negb (Qle_bool q 0)
  | _ => false
  end.

(** The code units that open a markup construct of [stripMarkdown]: every
    one of its patterns contains one of them as a literal. *)
Definition is_markup_char (c : N) : bool :=
  ((c =? ch "*") || (c =? ch "_") || (c =? ch "~") || (c =? ch "[")
   || (c =? ch "(") || (c =? ch "`") || (c =? ch "{"))%N.

Definition markup_free (s : str) : bool :=
  forallb (fun c => negb (is_markup_char c)) s.

Fixpoint is_prefix (p s : str) : bool :=
  match p, s with
  | [], _ => true
  | x :: p', y :: s' => (x =? y)%N && is_prefix p' s'
  | _ :: _, [] => false
  end.

(** [s] starts with a [block=] parameter that has a value. *)
Definition block_param_at (s : str) : bool :=
  is_prefix (js "block=") s
  && match skipn 6 s with
     | c :: _ => is_uid_char c
     | [] => false
     end.

(** Some suffix of [s] satisfies [p]. *)
Fixpoint any_suffix (p : str -> bool) (s : str) : bool :=
  p s || match s with
         | [] => false
         | _ :: s' => any_suffix p s'
         end.

(** The pattern has a capture group. *)
Definition has_group (r : pattern) : bool :=
  existsb (fun a => match a with Rep _ _ _ capture => capture | Lit _ => false end) r.

(** [/block=([a-zA-Z0-9_-]+)/], the end of [block_re]. *)
Definition block_param_re : pattern :=
  lits "block=" ++ [group_plus is_uid_char].

(** [s] does not go on with an identifier character. *)
Definition not_uid_start (s : str) : bool :=
  match s with
  | c :: _ => negb (is_uid_char c)
  | [] => true
  end.

(** [s] does not start with white space. *)
Definition no_leading_space (s : str) : Prop :=
  match s with
  | c :: _ => is_white_space c = false
  | [] => True
  end.

(** A signal from a page route on: the page part [p], the query up to the
    last block parameter [q], the value [id] of that parameter, and what
    follows it. *)
Definition page_route (p q id rest : str) : str :=
  js "/page/" ++ p ++ js "?" ++ q ++ js "block=" ++ id ++ rest.

(** No line terminator occurs in [s] (as in every URL fragment). *)
Definition one_line (s : str) : bool := forallb dot s.

(** Two overlapping runs of the handler: the signal changes to [hashA],
    then to [hashB] while the first resolution is in flight; the second
    resolution completes first, with [rB]. *)
Definition second_committed (settings : ExtensionSettings) (st : GState)
    (hashA hashB : str) (rB : QueryResult) : World :=
  run_events settings {| globals := st; handlers := [] |}
             [Hashchange hashA; Hashchange hashB; Answer 1 rB].

(** "Last requested location wins": when the slower first resolution then
    completes, with [rA], the module variables stay as the second run left
    them. *)
Definition last_requested_wins (settings : ExtensionSettings) (st : GState)
    (hashA hashB : str) (rA rB : QueryResult) : Prop :=
  let w := second_committed settings st hashA hashB rB in
  globals (step settings w (Answer 0 rA)) = globals w.

(** A breadcrumb with ASCII id and title, for the worked examples. *)
Definition crumb (k : LocationType) (u t : string) : BreadcrumbItem :=
  {| uid := js u; type := k; title := js t |}.

(** [Number.isFinite(x) && x > 0], the test of [parsePositiveInteger]. *)
Definition positive_finite (x : number) : bool :=
  isFinite x && num_gtb x (num_of_Z 0).

(** [s] starts with a page route that has an identifier. *)
Definition page_param_at (s : str) : bool :=
  is_prefix (js "/page/") s
  && match skipn 6 s with
     | c :: _ => is_uid_char c
     | [] => false
     end.

(** Number of literal atoms of a pattern: every match consumes at least as
    many code units. *)
Definition literals (r : pattern) : nat :=
  length (filter (fun a => match a with Lit _ => true | Rep _ _ _ _ => false end) r).

(** Length of the literal text of a template, and its number of [$1]. *)
Definition template_text (t : template) : nat :=
  list_sum (map (fun i => match i with TText x => length x | TGroup1 => 0 end) t).

Definition template_groups (t : template) : nat :=
  length (filter (fun i => match i with TGroup1 => true | TText _ => false end) t).

(** The replacement is never longer than what it replaces: its text fits
    in the literals of the pattern, and it inserts group 1 at most once, and
    only when the pattern has the group. *)
Definition shrinking (r : pattern) (t : template) : bool :=
  (template_text t <=? literals r)
  && (template_groups t <=? (if has_group r then 1 else 0)).

Definition cap_length (cap : option str) : nat :=
  match cap with
  | Some u => length u
  | None => 0
  end.

(** [s] holds none of the closing brackets [ ] ], [ ) ], [ } ]. *)
Definition no_closer (s : str) : bool :=
  forallb (fun c => negb ((c =? ch "]") || (c =? ch ")") || (c =? ch "}"))%N) s.

(** Every result [m] can return satisfies [Q], whatever the host answers. *)
Fixpoint returns (A : Type) (Q : A -> Prop) (m : Async A) : Prop :=
  match m with
  | Ret a => Q a
  | Await _ k => forall r, returns Q (k r)
  end.

(** What content resolution for [u] hands to the handler: nothing, or an
    entry for [u] with a title. *)
Definition resolved_for (u : str) (o : option BreadcrumbItem) : Prop :=
  match o with
  | Some item => uid item = u /\ title item <> []
  | None => True
  end.

(** The module variables are consistent: ids distinct, at most [cap + 1]
    entries, every title non-empty, and the tracked location is the first
    entry (none tracked: no entry). *)
Definition state_ok (cap : Z) (st : GState) : Prop :=
  NoDup (map uid (breadcrumbHistory st))
  /\ (Z.of_nat (length (breadcrumbHistory st)) <= cap + 1)%Z
  /\ Forall (fun item => title item <> []) (breadcrumbHistory st)
  /\ match currentLocation st with
     | Some location =>
         exists item older,
           breadcrumbHistory st = item :: older /\ uid item = loc_uid location
     | None => breadcrumbHistory st = []
     end.

(** A started handler keeps [P], whenever and with whatever answer it is
    resumed. *)
Inductive task_keeps (P : GState -> Prop) : Task -> Prop :=
| keeps_finished : task_keeps P Finished
| keeps_awaiting (q : Query) (k : QueryResult -> GState -> GState * Task) :
    (forall r st, P st -> P (fst (k r st))) ->
    (forall r st, P st -> task_keeps P (snd (k r st))) ->
    task_keeps P (Awaiting q k).

Definition world_ok (cap : Z) (w : World) : Prop :=
  state_ok cap (globals w) /\ Forall (task_keeps (state_ok cap)) (handlers w).

(** [l] with [sep] between consecutive elements. *)
Fixpoint separated (A : Type) (sep : A) (l : list A) : list A :=
  match l with
  | [] => []
  | [x] => [x]
  | x :: rest => x :: sep :: separated sep rest
  end.

(** The thirteen replacements of [stripMarkdown], in its order: the
    pattern and what it is replaced with. *)
Definition strip_rules : list (pattern * template) :=
  [ (lits "**" ++ [group_plus (not_char "*")] ++ lits "**", [TGroup1]);
    (lits "__" ++ [group_plus (not_char "_")] ++ lits "__", [TGroup1]);
    (lits "*" ++ [group_plus (not_char "*")] ++ lits "*", [TGroup1]);
    (lits "_" ++ [group_plus (not_char "_")] ++ lits "_", [TGroup1]);
    (lits "~~" ++ [group_plus (not_char "~")] ++ lits "~~", [TGroup1]);
    (lits "[[" ++ [group_plus (not_char "]")] ++ lits "]]", [TGroup1]);
    (lits "((" ++ [group_plus (not_char ")")] ++ lits "))", [TText (js "->")]);
    (lits "```" ++ [star (not_char "`")] ++ lits "```", [TText (js "[code]")]);
    (lits "`" ++ [group_plus (not_char "`")] ++ lits "`", [TGroup1]);
    (lits "![" ++ [star_lazy dot] ++ lits "](" ++ [star_lazy dot] ++ lits ")",
     [TText (js "[img]")]);
    (lits "[" ++ [group_plus (not_char "]")] ++ lits "]("
     ++ [plus (not_char ")")] ++ lits ")", [TGroup1]);
    (lits "{{" ++ [star_lazy dot] ++ lits "}}", []);
    (lits "#[[" ++ [group_plus (not_char "]")] ++ lits "]]",
     [TText (js "#"); TGroup1]) ].

(** The pattern matches somewhere in [s]. *)
Definition occurs (r : pattern) (s : str) : bool :=
  match search r s with
  | Some _ => true
  | None => false
  end.

(** None of the patterns of [stripMarkdown] matches anywhere in [s]: the
    text holds no markup construct. *)
Definition construct_free (s : str) : bool :=
  forallb (fun rule => negb (occurs (fst rule) s)) strip_rules.

(** A measure every replacement of [stripMarkdown] lowers: code units
    count double, the backtick and the exclamation mark triple (so that a
    code fence and an image weigh more than their six- and five-letter
    placeholders). *)
Definition char_weight (c : N) : nat :=
  if ((c =? ch "`") || (c =? ch "!"))%N then 3 else 2.

Definition weight (s : str) : nat := list_sum (map char_weight s).

Definition literal_weight (r : pattern) : nat :=
  list_sum (map (fun a => match a with
                          | Lit c => char_weight c
                          | Rep _ _ _ _ => 0
                          end) r).

Definition template_weight (t : template) : nat :=
  list_sum (map (fun i => match i with TText x => weight x | TGroup1 => 0 end) t).

(** The replacement weighs less than the literals of its pattern and
    inserts group 1 at most once, and only when the pattern has the group. *)
Definition lowering (rule : pattern * template) : bool :=
  (template_weight (snd rule) <? literal_weight (fst rule))
  && (template_groups (snd rule) <=? (if has_group (fst rule) then 1 else 0)).

(** One replacement, and the chain of them. *)
Definition apply_rule (s : str) (rule : pattern * template) : str :=
  replace_all (fst rule) (snd rule) s.

Definition apply_rules (rules : list (pattern * template)) (s : str) : str :=
  fold_left apply_rule rules s.

(** The signal holds the block-within-page form: a page route with a
    non-empty page part, a question mark, and later on the same line a
    [block=] parameter with an identifier. *)
Definition block_shape (hash : str) : Prop :=
  exists pre p q u rest,
    hash = pre ++ js "/page/" ++ p ++ js "?" ++ q ++ js "block=" ++ u ++ rest
    /\ p <> [] /\ forallb (not_char "?") p = true
    /\ one_line q = true
    /\ u <> [] /\ forallb is_uid_char u = true.

(** What [handleNavigation] does once [getBreadcrumbItemByUid] has returned
    [breadcrumbItem]: nothing on [null], otherwise the upsert and the
    assignment of [currentLocation], on the module variables of that
    moment. *)
Definition commit_resolution (settings : ExtensionSettings) (location : Location)
    (breadcrumbItem : option BreadcrumbItem) (st : GState) : GState :=
  match breadcrumbItem with
  | None => st
  | Some item =>
      {| breadcrumbHistory :=
           updateBreadcrumbHistory item (maxBreadcrumbs settings)
                                   (breadcrumbHistory st);
         currentLocation := Some location |}
  end.

(** The [async] function [m] receives the answers [rs], one at each
    [await], and returns with the last of them. *)
Fixpoint completes (A : Type) (m : Async A) (rs : list QueryResult) : option A :=
  match m, rs with
  | Ret a, [] => Some a
  | Await _ k, r :: rs' => completes (k r) rs'
  | _, _ => None
  end.

(** The answers that handler [i] receives in a run of events, in order. *)
Fixpoint answers_to (i : nat) (evs : list Event) : list QueryResult :=
  match evs with
  | [] => []
  | Answer j r :: evs' =>
      if j =? i then r :: answers_to i evs' else answers_to i evs'
  | Hashchange _ :: evs' => answers_to i evs'
  end.

(** Every event is an answer to one of the first two handlers. *)
Definition answers_only (evs : list Event) : bool :=
  forallb (fun ev => match ev with
                     | Answer j _ => j <? 2
                     | Hashchange _ => false
                     end) evs.

(** The handler that receives the last answer of a run of events. *)
Definition last_handler (evs : list Event) : option nat :=
  match last evs (Hashchange []) with
  | Answer i _ => Some i
  | Hashchange _ => None
  end.

(** Two overlapping runs, in general: the signal changes to [hashA]; the
    first handler receives the answers [early]; the signal changes to
    [hashB]; then the events [evs] arrive. *)
Definition overlapping_runs (settings : ExtensionSettings) (st : GState)
    (hashA : str) (early : list QueryResult) (hashB : str) (evs : list Event)
  : World :=
  run_events settings {| globals := st; handlers := [] |}
             (Hashchange hashA :: map (Answer 0) early
              ++ Hashchange hashB :: evs).

(** The state [g] after the run for [locX] has committed [itemX] last, from
    the state [st] before both runs, the other run having resolved to
    [resY]: the location tracked is [locX], and for an integer cap
    [itemX] is the first entry of the history; the entry of the other run,
    if it found one, is the second when the ids differ and the cap is at
    least one, and is replaced when the ids are the same. *)
Definition committed_last (settings : ExtensionSettings) (st g : GState)
    (locX locY : Location) (itemX : BreadcrumbItem)
    (resY : option BreadcrumbItem) : Prop :=
  currentLocation g = Some locX
  /\ forall cap : Z,
       (0 <= cap)%Z ->
       maxBreadcrumbs settings = num_of_Z cap ->
       hd_error (breadcrumbHistory g) = Some itemX
       /\ (resY = None ->
           breadcrumbHistory g
           = updateBreadcrumbHistory itemX (maxBreadcrumbs settings)
                                     (breadcrumbHistory st))
       /\ forall itemY,
            resY = Some itemY ->
            (loc_uid locX = loc_uid locY ->
             breadcrumbHistory g
             = updateBreadcrumbHistory itemX (maxBreadcrumbs settings)
                                       (breadcrumbHistory st))
            /\ (loc_uid locX <> loc_uid locY ->
                (1 <= cap)%Z ->
                nth_error (breadcrumbHistory g) 1 = Some itemY).

(* ================================================================== *)
(** * Properties *)

(** ** Strings and numbers *)

Lemma str_eqb_eq (a b : str) : str_eqb a b = true <-> a = b.
Proof.
  revert b; induction a as [|x a IH]; intros [|y b]; simpl; split;
    try congruence; try reflexivity.
  - intros H. apply andb_true_iff in H as [Hx Hab].
    apply N.eqb_eq in Hx. apply IH in Hab. congruence.
  - intros H. injection H as -> ->.
    rewrite N.eqb_refl. simpl. now apply IH.
Qed.

Lemma str_eqb_refl (a : str) : str_eqb a a = true.
Proof. now apply str_eqb_eq. Qed.

Lemma str_eqb_neq (a b : str) : str_eqb a b = false <-> a <> b.
Proof.
  rewrite <- str_eqb_eq. destruct (str_eqb a b); split; congruence.
Qed.

Lemma num_gtb_int (n : nat) (c : Z) :
  num_gtb (num_of_nat n) (num_add (num_of_Z c) (num_of_Z 1))
  = (c + 1 <? Z.of_nat n)%Z.
Proof.
  unfold num_gtb, num_of_nat, num_of_Z, num_add.
  destruct (Z.ltb_spec (c + 1) (Z.of_nat n)) as [H|H].
  - apply negb_true_iff. apply not_true_is_false. intros E.
    apply Qle_bool_iff in E. rewrite <- inject_Z_plus in E.
    rewrite <- Zle_Qle in E. lia.
  - apply negb_false_iff. apply Qle_bool_iff.
    rewrite <- inject_Z_plus, <- Zle_Qle. lia.
Qed.

Lemma slice_final_int (c : Z) (len : nat) :
  (0 <= c)%Z -> slice_final (num_of_Z c) len = Nat.min (Z.to_nat c) len.
Proof.
  intros Hc. unfold slice_final, num_of_Z. simpl.
  rewrite Z.quot_1_r.
  destruct (Z.ltb_spec c 0); [lia | reflexivity].
Qed.

Lemma num_add_int (a b : Z) :
  slice_final (num_add (num_of_Z a) (num_of_Z b)) = slice_final (num_of_Z (a + b)).
Proof.
  unfold slice_final, num_add, num_of_Z. simpl.
  now rewrite !Z.mul_1_r.
Qed.

Lemma firstn_min_length (A : Type) (k : nat) (l : list A) :
  firstn (Nat.min k (length l)) l = firstn k l.
Proof.
  destruct (Nat.le_gt_cases k (length l)) as [H|H].
  - now rewrite Nat.min_l.
  - rewrite Nat.min_r by lia. rewrite firstn_all.
    symmetry. apply firstn_all2. lia.
Qed.

(** ** History store *)

Lemma remove_uid_filter (u : str) (h : list BreadcrumbItem) :
  filter (fun x => negb (str_eqb (uid x) u)) h = remove_uid u h.
Proof.
  induction h as [|x h IH]; simpl; [reflexivity|].
  destruct (str_eqb (uid x) u); simpl; now rewrite IH.
Qed.

(** The update on an integer cap: the guard and the slice together keep the
    first [cap + 1] entries. *)
Lemma updateBreadcrumbHistory_int (item : BreadcrumbItem) (cap : Z)
    (h : list BreadcrumbItem) :
  (0 <= cap)%Z ->
  updateBreadcrumbHistory item (num_of_Z cap) h
  = firstn (Z.to_nat (cap + 1)) (item :: remove_uid (uid item) h).
Proof.
  intros Hcap. unfold updateBreadcrumbHistory.
  rewrite remove_uid_filter.
  set (l := item :: remove_uid (uid item) h).
  rewrite num_gtb_int.
  destruct (Z.ltb_spec (cap + 1) (Z.of_nat (length l))) as [H|H].
  - unfold slice0. rewrite num_add_int, slice_final_int by lia.
    apply firstn_min_length.
  - symmetry. apply firstn_all2. lia.
Qed.

Lemma remove_uid_In (u : str) (x : BreadcrumbItem) (h : list BreadcrumbItem) :
  In x (remove_uid u h) <-> In x h /\ uid x <> u.
Proof.
  induction h as [|y h IH]; simpl; [tauto|].
  destruct (str_eqb (uid y) u) eqn:E.
  - apply str_eqb_eq in E. rewrite IH. split.
    + tauto.
    + intros [[->|Hin] Hne]; [congruence | tauto].
  - apply str_eqb_neq in E. simpl. rewrite IH. split.
    + intros [->|[Hin Hne]]; tauto.
    + tauto.
Qed.

Lemma remove_uid_fixed (u : str) (h : list BreadcrumbItem) :
  (forall x, In x h -> uid x <> u) -> remove_uid u h = h.
Proof.
  induction h as [|y h IH]; simpl; intros H; [reflexivity|].
  destruct (str_eqb (uid y) u) eqn:E.
  - apply str_eqb_eq in E. exfalso. apply (H y); auto.
  - f_equal. apply IH. intros x Hx. apply H. now right.
Qed.

Lemma remove_uid_NoDup (u : str) (h : list BreadcrumbItem) :
  NoDup (map uid h) -> NoDup (map uid (remove_uid u h)).
Proof.
  induction h as [|y h IH]; simpl; intros Hnd; [constructor|].
  inversion Hnd as [|? ? Hnotin Hnd']; subst.
  destruct (str_eqb (uid y) u); [now apply IH|].
  simpl. constructor; [|now apply IH].
  intros Hin. apply Hnotin.
  apply in_map_iff in Hin as [x [Hx Hin]].
  apply remove_uid_In in Hin as [Hin _].
  apply in_map_iff. now exists x.
Qed.

Lemma NoDup_firstn (A : Type) (n : nat) (l : list A) :
  NoDup l -> NoDup (firstn n l).
Proof.
  revert l; induction n as [|n IH]; intros [|x l] Hnd; simpl; try constructor.
  - inversion Hnd as [|? ? Hnotin Hnd']; subst.
    intros Hin. apply Hnotin.
    rewrite <- (firstn_skipn n l). apply in_or_app. now left.
  - inversion Hnd; subst. now apply IH.
Qed.

Lemma In_firstn (A : Type) (n : nat) (x : A) (l : list A) :
  In x (firstn n l) -> In x l.
Proof.
  intros H. rewrite <- (firstn_skipn n l). apply in_or_app. now left.
Qed.

Lemma NoDup_four (A : Type) (a b c d : A) :
  NoDup [a; b; c; d] ->
  a <> b /\ a <> c /\ a <> d /\ b <> c /\ b <> d /\ c <> d.
Proof.
  intros H.
  inversion H as [|? ? Ha H1]; subst.
  inversion H1 as [|? ? Hb H2]; subst.
  inversion H2 as [|? ? Hc H3]; subst.
  simpl in Ha, Hb, Hc.
  repeat split; intros E; subst; tauto.
Qed.

(** One upsert keeps the ids distinct and the length within [cap + 1]. *)
Lemma update_invariant (e : BreadcrumbItem) (cap : Z) (h : list BreadcrumbItem) :
  (0 <= cap)%Z ->
  NoDup (map uid h) ->
  NoDup (map uid (updateBreadcrumbHistory e (num_of_Z cap) h))
  /\ (Z.of_nat (length (updateBreadcrumbHistory e (num_of_Z cap) h)) <= cap + 1)%Z.
Proof.
  intros Hcap Hnd. rewrite updateBreadcrumbHistory_int by assumption. split.
  - rewrite <- firstn_map. apply NoDup_firstn. simpl. constructor.
    + intros Hin. apply in_map_iff in Hin as [x [Hx Hin]].
      apply remove_uid_In in Hin as [_ Hne]. contradiction.
    + now apply remove_uid_NoDup.
  - pose proof (firstn_le_length (Z.to_nat (cap + 1))
                  (e :: remove_uid (uid e) h)) as Hlen.
    lia.
Qed.

Lemma upserts_invariant (cap : Z) (entries h : list BreadcrumbItem) :
  (0 <= cap)%Z ->
  NoDup (map uid h) ->
  (Z.of_nat (length h) <= cap + 1)%Z ->
  NoDup (map uid (upserts (num_of_Z cap) entries h))
  /\ (Z.of_nat (length (upserts (num_of_Z cap) entries h)) <= cap + 1)%Z.
Proof.
  intros Hcap. revert h. unfold upserts.
  induction entries as [|e entries IH]; intros h Hnd Hlen; simpl.
  - now split.
  - destruct (update_invariant e h Hcap Hnd) as [Hnd' Hlen'].
    now apply IH.
Qed.

(** C1. Starting from the empty history, any sequence of upserts with one
    cap > 0 leaves at most cap + 1 entries, and no two of them share an id. *)
Theorem history_bounded_and_deduplicated
    (entries : list BreadcrumbItem) (cap : Z) (Hcap : (0 < cap)%Z) :
  (Z.of_nat (length (upserts (num_of_Z cap) entries [])) <= cap + 1)%Z
  /\ NoDup (map uid (upserts (num_of_Z cap) entries [])).
Proof.
  destruct (@upserts_invariant cap entries []) as [Hnd Hlen].
  - lia.
  - constructor.
  - simpl. lia.
  - now split.
Qed.

(** C2. For cap > 0 the update is the contract of the specification: remove
    the entries with the id of the new one, prepend it, keep the first
    cap + 1.  On a history with ids a, b, c an upsert of id b with cap 8
    gives b, a, c; and with cap 2 four upserts with distinct ids leave the
    three most recent, newest first. *)
Theorem upsert_meets_contract
    (h : list BreadcrumbItem) (entry : BreadcrumbItem) (cap : Z)
    (Hcap : (0 < cap)%Z) :
  updateBreadcrumbHistory entry (num_of_Z cap) h = upsert_contract entry cap h
  /\ (forall a b c b' : BreadcrumbItem,
        uid a = js "a" -> uid b = js "b" -> uid c = js "c" -> uid b' = js "b" ->
        updateBreadcrumbHistory b' (num_of_Z 8) [a; b; c] = [b'; a; c])
  /\ (forall e1 e2 e3 e4 : BreadcrumbItem,
        NoDup [uid e1; uid e2; uid e3; uid e4] ->
        upserts (num_of_Z 2) [e1; e2; e3; e4] h = [e4; e3; e2]).
Proof.
  split; [|split].
  - apply updateBreadcrumbHistory_int. lia.
  - intros a b c b' Ha Hb Hc Hb'.
    rewrite updateBreadcrumbHistory_int by lia.
    simpl. rewrite Ha, Hb, Hc, Hb'. reflexivity.
  - intros e1 e2 e3 e4 Hnd.
    destruct (NoDup_four Hnd) as (N12 & N13 & N14 & N23 & N24 & N34).
    apply str_eqb_neq in N12, N13, N14, N23, N24, N34.
    unfold upserts. simpl fold_left.
    rewrite !updateBreadcrumbHistory_int by lia.
    change (Z.to_nat (2 + 1)) with 3%nat.
    cbn [firstn remove_uid]. rewrite N12.
    cbn [firstn remove_uid]. rewrite N23, N13.
    cbn [firstn remove_uid]. rewrite N34, N24, ?N14.
    reflexivity.
Qed.

(** C4. For cap > 0, a second upsert of the same entry changes nothing. *)
Theorem upsert_idempotent
    (h : list BreadcrumbItem) (e : BreadcrumbItem) (cap : Z)
    (Hcap : (0 < cap)%Z) :
  updateBreadcrumbHistory e (num_of_Z cap)
    (updateBreadcrumbHistory e (num_of_Z cap) h)
  = updateBreadcrumbHistory e (num_of_Z cap) h.
Proof.
  rewrite !updateBreadcrumbHistory_int by lia.
  replace (Z.to_nat (cap + 1)) with (S (Z.to_nat cap)) by lia.
  cbn [firstn remove_uid]. rewrite str_eqb_refl.
  rewrite remove_uid_fixed.
  - now rewrite firstn_firstn, Nat.min_id.
  - intros x Hx. apply In_firstn in Hx.
    now apply remove_uid_In in Hx.
Qed.

(** ** The matcher *)

Section Matcher.

Lemma first_some_none (A B : Type) (f : A -> option B) (l : list A) :
  (forall a, In a l -> f a = None) -> first_some f l = None.
Proof.
  induction l as [|a l IH]; simpl; intros H; [reflexivity|].
  rewrite (H a) by now left. apply IH. intros b Hb. apply H. now right.
Qed.

Lemma first_some_Some (A B : Type) (f : A -> option B) (l : list A) (b : B) :
  first_some f l = Some b -> exists a, In a l /\ f a = Some b.
Proof.
  induction l as [|a l IH]; simpl; [discriminate|].
  destruct (f a) as [b'|] eqn:E.
  - intros [= <-]. exists a. auto.
  - intros H. destruct (IH H) as [a' [Hin Ha']]. exists a'. auto.
Qed.

(** A greedy quantifier settles on the largest count at which the rest of
    the pattern matches. *)
Lemma first_some_greedy (B : Type) (f : nat -> option B) (lo len n0 : nat) (b : B) :
  lo <= n0 < lo + len ->
  f n0 = Some b ->
  (forall n, n0 < n < lo + len -> f n = None) ->
  first_some f (rev (seq lo len)) = Some b.
Proof.
  induction len as [|len IH]; intros Hn0 Hb Hnone; [lia|].
  rewrite seq_S, rev_app_distr. simpl.
  destruct (Nat.eq_dec n0 (lo + len)) as [->|Hne].
  - now rewrite Hb.
  - rewrite (Hnone (lo + len)) by lia.
    apply IH; [lia | assumption |].
    intros n Hn. apply Hnone. lia.
Qed.

Lemma candidates_In (g : bool) (min longest n : nat) :
  In n (candidates g min longest) <-> min <= n <= longest.
Proof.
  unfold candidates. destruct g; rewrite <- ?in_rev, in_seq; lia.
Qed.

Lemma run_firstn (cls : N -> bool) (s : str) (n : nat) :
  n <= run cls s ->
  forallb cls (firstn n s) = true /\ length (firstn n s) = n.
Proof.
  revert s; induction n as [|n IH]; intros s Hn; [now split|].
  destruct s as [|c s]; simpl in Hn; [lia|].
  destruct (cls c) eqn:E; [|lia].
  destruct (IH s) as [Hall Hlen]; [lia|].
  simpl. now rewrite E, Hall, Hlen.
Qed.

Lemma run_all (cls : N -> bool) (s t : str) :
  forallb cls s = true ->
  match t with c :: _ => cls c = false | [] => True end ->
  run cls (s ++ t) = length s.
Proof.
  induction s as [|c s IH]; simpl; intros Hs Ht.
  - destruct t as [|c t]; simpl; [reflexivity | now rewrite Ht].
  - apply andb_true_iff in Hs as [Hc Hs]. rewrite Hc. f_equal. now apply IH.
Qed.

Lemma In_skipn (A : Type) (n : nat) (x : A) (l : list A) :
  In x (skipn n l) -> In x l.
Proof.
  intros H. rewrite <- (firstn_skipn n l). apply in_or_app. now right.
Qed.

(** A match consumes every literal of the pattern from the input. *)
Lemma matchp_literals (r : pattern) :
  forall cap s res, matchp r cap s = Some res ->
  forall c, In (Lit c) r -> In c s.
Proof.
  induction r as [|a r IH]; intros cap s res Hm c Hc; [contradiction|].
  destruct a as [x|g min cls capt]; simpl in Hm.
  - destruct s as [|y s]; [discriminate|].
    destruct (N.eqb_spec y x) as [->|Hne]; [|discriminate].
    destruct Hc as [[= ->]|Hc]; [now left|].
    right. eapply IH; eassumption.
  - destruct Hc as [Hc|Hc]; [discriminate|].
    apply first_some_Some in Hm as [n [_ Hn]].
    eapply In_skipn, IH; eassumption.
Qed.

(** The literals at the head of a pattern are read off the input. *)
Lemma matchp_lits_app (l : str) (r : pattern) (cap : option str) (s : str) :
  matchp (map Lit l ++ r) cap (l ++ s) = matchp r cap s.
Proof.
  induction l as [|x l IH]; simpl; [reflexivity|].
  now rewrite N.eqb_refl.
Qed.

Lemma matchp_lits_inv (l : str) (r : pattern) (cap : option str) (s : str)
    (res : option str * str) :
  matchp (map Lit l ++ r) cap s = Some res ->
  exists s', s = l ++ s' /\ matchp r cap s' = Some res.
Proof.
  revert s; induction l as [|x l IH]; intros s Hm.
  - exists s. now split.
  - simpl in Hm. destruct s as [|y s]; [discriminate|].
    destruct (N.eqb_spec y x) as [->|Hne]; [|discriminate].
    destruct (IH _ Hm) as [s' [-> Hs']]. exists s'. now split.
Qed.

(** Where no match starts, [replace] copies the input. *)
Lemma replace_all_fixed (r : pattern) (t : template) (c : N) (s : str) :
  In (Lit c) r -> ~ In c s -> replace_all r t s = s.
Proof.
  intros Hc. unfold replace_all.
  induction s as [|x s IH]; intros Hs; simpl; [reflexivity|].
  destruct (matchp r None (x :: s)) as [res|] eqn:E.
  - exfalso. apply Hs. eapply matchp_literals; eassumption.
  - f_equal. apply IH. intros Hin. apply Hs. now right.
Qed.

End Matcher.

(** ** Location resolver *)

Section Resolver.

(** With a capture group in the pattern, every match sets group 1. *)
Lemma matchp_group (r : pattern) :
  forall cap s cap' rest, matchp r cap s = Some (cap', rest) ->
  (has_group r = false /\ cap' = cap)
  \/ exists g min cls u,
       In (Rep g min cls true) r /\ cap' = Some u
       /\ min <= length u /\ forallb cls u = true.
Proof.
  induction r as [|a r IH]; intros cap s cap' rest Hm.
  - simpl in Hm. injection Hm as <- _. now left.
  - destruct a as [x|g min cls capt]; simpl in Hm.
    + destruct s as [|y s]; [discriminate|].
      destruct (y =? x)%N; [|discriminate].
      destruct (IH _ _ _ _ Hm) as [H|(g & m & cls & u & Hin & Hu)]; [now left|].
      right. exists g, m, cls, u. split; [now right | exact Hu].
    + apply first_some_Some in Hm as [n [Hn Hm]].
      apply candidates_In in Hn.
      destruct (IH _ _ _ _ Hm) as [[Hg ->]|(g' & m & cls' & u & Hin & Hu)].
      * destruct capt; [|now left].
        right. destruct (@run_firstn cls s n) as [Hall Hlen]; [lia|].
        exists g, min, cls, (firstn n s).
        repeat split; [now left | lia | exact Hall].
      * right. exists g', m, cls', u. split; [now right | exact Hu].
Qed.

Lemma search_matchp (r : pattern) (s : str) (cap : option str) :
  search r s = Some cap ->
  exists s' rest, matchp r None s' = Some (cap, rest).
Proof.
  induction s as [|x s IH]; simpl.
  - destruct (matchp r None []) as [[c rest]|] eqn:E; [|discriminate].
    intros [= <-]. now exists [], rest.
  - destruct (matchp r None (x :: s)) as [[c rest]|] eqn:E.
    + intros [= <-]. now exists (x :: s), rest.
    + exact IH.
Qed.

(** What [block_re] and [page_re] capture is an identifier. *)
Lemma uid_captured (r : pattern) (s : str) (cap : option str) :
  r = block_re \/ r = page_re ->
  search r s = Some cap ->
  exists c u, cap = Some (c :: u) /\ forallb is_uid_char (c :: u) = true.
Proof.
  intros Hr Hs. apply search_matchp in Hs as (s' & rest & Hm).
  apply matchp_group in Hm
    as [[Hg _]|(g & m & cls & u & Hin & -> & Hlen & Hall)].
  - destruct Hr as [-> | ->]; discriminate Hg.
  - assert (Hgm : m = 1 /\ cls = is_uid_char).
    { destruct Hr as [-> | ->]; simpl in Hin;
        repeat (destruct Hin as [Hin|Hin]; try discriminate Hin);
        try contradiction; injection Hin as _ <- <-; now split. }
    destruct Hgm as [-> ->].
    destruct u as [|c u]; [simpl in Hlen; lia|].
    now exists c, u.
Qed.

End Resolver.

(** ** Several block parameters *)

Section LastBlockParameter.

Variables (id rest : str).
Hypothesis id_nonempty : id <> [].
Hypothesis id_chars : forallb is_uid_char id = true.
Hypothesis id_maximal : not_uid_start rest = true.
Hypothesis no_later_param :
  any_suffix block_param_at (tl (js "block=" ++ id ++ rest)) = false.

Lemma is_prefix_app (p s : str) : is_prefix p (p ++ s) = true.
Proof. induction p as [|x p IH]; simpl; [|rewrite N.eqb_refl]; auto. Qed.

Lemma any_suffix_skipn (f : str -> bool) (s : str) :
  any_suffix f s = false -> forall m, f (skipn m s) = false.
Proof.
  induction s as [|x s IH]; simpl; intros H m.
  - rewrite skipn_nil. now apply orb_false_iff in H.
  - apply orb_false_iff in H as [Hx Hs].
    destruct m as [|m]; simpl; auto.
Qed.

Lemma one_line_app (a b : str) :
  one_line (a ++ b) = true -> one_line a = true /\ one_line b = true.
Proof.
  unfold one_line. rewrite forallb_app. apply andb_true_iff.
Qed.

Lemma search_here (r : pattern) (s : str) (cap : option str) (left : str) :
  matchp r None s = Some (cap, left) -> search r s = Some cap.
Proof. intros H. destruct s; simpl; now rewrite H. Qed.

Lemma search_cons (r : pattern) (x : N) (s : str) :
  search r (x :: s)
  = match matchp r None (x :: s) with
    | Some (cap, _) => Some cap
    | None => search r s
    end.
Proof. reflexivity. Qed.

Lemma skipn_S_tl (A : Type) (m : nat) (l : list A) :
  skipn (S m) l = skipn m (tl l).
Proof. destruct l; simpl; [now rewrite skipn_nil | reflexivity]. Qed.

(** The group takes the whole identifier. *)
Lemma group_takes_id (cap : option str) :
  matchp [group_plus is_uid_char] cap (id ++ rest) = Some (Some id, rest).
Proof.
  cbn [matchp group_plus]. unfold candidates.
  rewrite run_all; [| exact id_chars |].
  - apply first_some_greedy with (n0 := length id).
    + destruct id; [contradiction | simpl; lia].
    + now rewrite firstn_app, firstn_all, Nat.sub_diag, skipn_app, skipn_all,
        Nat.sub_diag, app_nil_r.
    + intros n Hn. destruct id; [contradiction | simpl in Hn; lia].
  - destruct rest as [|c r]; [exact I|].
    simpl in id_maximal. now apply negb_true_iff.
Qed.

Lemma block_param_re_fails (cap : option str) (s : str) :
  block_param_at s = false -> matchp block_param_re cap s = None.
Proof.
  intros Hs. destruct (matchp block_param_re cap s) as [res|] eqn:E;
    [exfalso | reflexivity].
  apply matchp_lits_inv in E as [s' [-> Hm]].
  cbn [matchp group_plus] in Hm. apply first_some_Some in Hm as [n [Hn _]].
  apply candidates_In in Hn.
  unfold block_param_at in Hs. rewrite is_prefix_app in Hs.
  destruct s' as [|c t]; simpl in Hn; [lia|].
  destruct (is_uid_char c) eqn:Ec; [|lia].
  simpl in Hs. congruence.
Qed.

(** After the question mark, [.*] runs to the end of the signal and gives
    back as little as it must: up to the last [block=] parameter. *)
Lemma star_stops_at_last_param (Y : str) :
  one_line (Y ++ js "block=" ++ id ++ rest) = true ->
  matchp (star dot :: block_param_re) None (Y ++ js "block=" ++ id ++ rest)
  = Some (Some id, rest).
Proof.
  intros Hline. set (B := js "block=" ++ id ++ rest) in *.
  cbn [matchp star]. unfold candidates.
  replace (run dot (Y ++ B)) with (length (Y ++ B)).
  2:{ rewrite <- (app_nil_r (Y ++ B)) at 2. symmetry. now apply run_all. }
  apply first_some_greedy with (n0 := length Y).
  - rewrite length_app. lia.
  - rewrite skipn_app, skipn_all, Nat.sub_diag.
    change (matchp (map Lit (js "block=") ++ [group_plus is_uid_char]) None
                   (js "block=" ++ id ++ rest) = Some (Some id, rest)).
    rewrite matchp_lits_app. apply group_takes_id.
  - intros n Hn. apply block_param_re_fails.
    rewrite skipn_app, skipn_all2 by lia. simpl app.
    destruct (n - length Y) as [|m] eqn:Em; [lia|].
    rewrite skipn_S_tl.
    now apply any_suffix_skipn.
Qed.

(** [[^?]+] can only stop at the first question mark. *)
Lemma block_re_front (p T : str) (res : option str * str) :
  p <> [] ->
  forallb (not_char "?") p = true ->
  matchp (star dot :: block_param_re) None T = Some res ->
  matchp block_re None (js "/page/" ++ p ++ js "?" ++ T) = Some res.
Proof.
  intros Hp Hq HT.
  change block_re with
    (map Lit (js "/page/")
     ++ plus (not_char "?") :: map Lit (js "?") ++ star dot :: block_param_re).
  rewrite matchp_lits_app. cbn [matchp plus]. unfold candidates.
  rewrite run_all; [| exact Hq | reflexivity].
  apply first_some_greedy with (n0 := length p).
  - destruct p; [contradiction | simpl; lia].
  - rewrite skipn_app, skipn_all, Nat.sub_diag.
    change (matchp (map Lit (js "?") ++ star dot :: block_param_re) None
                   (js "?" ++ T) = Some res).
    now rewrite matchp_lits_app.
  - intros n Hn. destruct p; [contradiction | simpl in Hn; lia].
Qed.

Lemma block_re_inv (s : str) (res : option str * str) :
  matchp block_re None s = Some res ->
  exists a s2,
    s = js "/page/" ++ a ++ js "?" ++ s2
    /\ forallb (not_char "?") a = true
    /\ matchp (star dot :: block_param_re) None s2 = Some res.
Proof.
  change block_re with
    (map Lit (js "/page/")
     ++ plus (not_char "?") :: map Lit (js "?") ++ star dot :: block_param_re).
  intros Hm. apply matchp_lits_inv in Hm as [s1 [-> Hm]].
  cbn [matchp plus] in Hm.
  apply first_some_Some in Hm as [n [Hn Hm]].
  apply candidates_In in Hn.
  apply matchp_lits_inv in Hm as [s2 [Hs2 Hm]].
  exists (firstn n s1), s2. repeat split.
  - now rewrite <- Hs2, firstn_skipn.
  - apply run_firstn. lia.
  - exact Hm.
Qed.

Lemma app_split_first (A : Type) (c : A) (u' : list A) :
  forall u v v', u ++ c :: v = u' ++ c :: v' -> ~ In c u' ->
  exists Y, v' = Y ++ v.
Proof.
  induction u' as [|x u' IH]; intros u v v' E Hc.
  - destruct u as [|y u]; simpl in E.
    + injection E as ->. now exists [].
    + injection E as _ <-. exists (u ++ [c]). now rewrite <- app_assoc.
  - destruct u as [|y u]; simpl in E.
    + injection E as -> _. exfalso. apply Hc. now left.
    + injection E as _ E. apply (IH _ _ _ E). intros Hin. apply Hc. now right.
Qed.

Lemma forallb_not_char (a : ascii) (s : str) :
  forallb (not_char a) s = true -> ~ In (ch a) s.
Proof.
  intros H Hin. rewrite forallb_forall in H. specialize (H _ Hin).
  unfold not_char in H. now rewrite N.eqb_refl in H.
Qed.

Variables (p q : str).
Hypothesis p_nonempty : p <> [].
Hypothesis p_chars : forallb (not_char "?") p = true.

(** Whatever position at or before the page route the match starts at, it
    captures the last parameter. *)
Lemma block_re_captures_last (pre : str) (cap : option str) (r : str) :
  one_line (pre ++ page_route p q id rest) = true ->
  matchp block_re None (pre ++ page_route p q id rest) = Some (cap, r) ->
  cap = Some id.
Proof.
  intros Hline Hm.
  apply block_re_inv in Hm as (a & s2 & E & Ha & Hm).
  assert (HY : exists Y, s2 = Y ++ q ++ js "block=" ++ id ++ rest).
  { apply app_split_first
      with (c := ch "?") (u' := js "/page/" ++ a) (u := pre ++ js "/page/" ++ p).
    - unfold page_route in E. rewrite <- !app_assoc. exact E.
    - intros Hin. apply in_app_or in Hin as [Hin|Hin].
      + vm_compute in Hin. intuition discriminate.
      + revert Hin. now apply forallb_not_char. }
  destruct HY as [Y ->].
  rewrite app_assoc in Hm. rewrite star_stops_at_last_param in Hm.
  - now injection Hm as <- _.
  - rewrite E in Hline.
    apply one_line_app in Hline as [_ Hline].
    apply one_line_app in Hline as [_ Hline].
    apply one_line_app in Hline as [_ Hline].
    rewrite <- app_assoc. exact Hline.
Qed.

Lemma search_block_re (pre : str) :
  one_line (pre ++ page_route p q id rest) = true ->
  search block_re (pre ++ page_route p q id rest) = Some (Some id).
Proof.
  induction pre as [|x pre IH]; intros Hline.
  - assert (Hm : matchp block_re None (page_route p q id rest)
                 = Some (Some id, rest)).
    { apply block_re_front; [exact p_nonempty | exact p_chars |].
      apply star_stops_at_last_param.
      change (one_line (page_route p q id rest) = true) in Hline.
      unfold page_route in Hline.
      apply one_line_app in Hline as [_ Hline].
      apply one_line_app in Hline as [_ Hline].
      apply one_line_app in Hline as [_ Hline].
      exact Hline. }
    exact (search_here _ _ Hm).
  - change ((x :: pre) ++ page_route p q id rest)
      with (x :: pre ++ page_route p q id rest) in *.
    rewrite search_cons.
    destruct (matchp block_re None (x :: pre ++ page_route p q id rest))
      as [[cap r]|] eqn:E.
    + f_equal. now apply (@block_re_captures_last (x :: pre) cap r).
    + apply IH. apply (one_line_app [x] (pre ++ page_route p q id rest) Hline).
Qed.

Lemma resolver_takes_last_param (pre : str) :
  one_line (pre ++ page_route p q id rest) = true ->
  getLocationFromHash (pre ++ page_route p q id rest) = Some (mkLocation block id).
Proof.
  intros Hline. unfold getLocationFromHash.
  rewrite search_block_re by exact Hline. simpl.
  destruct id; [contradiction | reflexivity].
Qed.

End LastBlockParameter.

(** C10. In a signal (a URL fragment: one line) that holds a page route, a
    question mark and then several [block=] parameters, the resolver yields
    the block named by the last of them, because [.*] is greedy; a hash
    ending in /page/p?block=a&block=b resolves to block b, not a. *)
Theorem last_block_parameter_wins (pre p q id rest : str)
    (Hp : p <> []) (Hp' : forallb (not_char "?") p = true)
    (Hid : id <> []) (Hid' : forallb is_uid_char id = true)
    (Hrest : not_uid_start rest = true)
    (Hlast : any_suffix block_param_at (tl (js "block=" ++ id ++ rest)) = false)
    (Hline : one_line (pre ++ js "/page/" ++ p ++ js "?" ++ q
                           ++ js "block=" ++ id ++ rest) = true) :
  getLocationFromHash (pre ++ js "/page/" ++ p ++ js "?" ++ q
                           ++ js "block=" ++ id ++ rest)
  = Some (mkLocation block id)
  /\ (forall pre0, one_line pre0 = true ->
        getLocationFromHash (pre0 ++ js "/page/p?block=a&block=b")
        = Some (mkLocation block (js "b"))).
Proof.
  split.
  - now apply resolver_takes_last_param.
  - intros pre0 Hpre0.
    apply (@resolver_takes_last_param (js "b") [])
      with (p := js "p") (q := js "block=a&") (pre := pre0);
      try reflexivity; try discriminate.
    unfold one_line in *. rewrite forallb_app, Hpre0. reflexivity.
Qed.

(** ** Content labeler *)

Section Labeler.

Lemma drop_while_clean (s : str) :
  no_leading_space (drop_while is_white_space s).
Proof.
  induction s as [|c s IH]; simpl; [exact I|].
  destruct (is_white_space c) eqn:E; [exact IH | exact E].
Qed.

Lemma drop_while_fixed (s : str) :
  no_leading_space s -> drop_while is_white_space s = s.
Proof.
  destruct s as [|c s]; simpl; [reflexivity|]. now intros ->.
Qed.

Lemma drop_while_suffix (s : str) :
  exists w, s = w ++ drop_while is_white_space s.
Proof.
  induction s as [|c s [w IH]]; simpl.
  - now exists [].
  - destruct (is_white_space c).
    + exists (c :: w). simpl. now f_equal.
    + now exists [].
Qed.

Lemma no_leading_space_app (a b : str) :
  no_leading_space (a ++ b) -> a <> [] -> no_leading_space a.
Proof. destruct a; [contradiction | auto]. Qed.

(** What [trim] returns needs no trimming. *)
Lemma trim_trim (s : str) : trim (trim s) = trim s.
Proof.
  unfold trim.
  set (u := drop_while is_white_space s).
  set (v := drop_while is_white_space (rev u)).
  assert (Hv : drop_while is_white_space v = v)
    by apply drop_while_fixed, drop_while_clean.
  assert (Hrv : drop_while is_white_space (rev v) = rev v).
  { apply drop_while_fixed.
    destruct v as [|c v'] eqn:Ev; [exact I|].
    destruct (drop_while_suffix (rev u)) as [w Hw].
    fold v in Hw. rewrite Ev in Hw.
    apply (@no_leading_space_app _ (rev w)).
    - rewrite <- rev_app_distr, <- Hw, rev_involutive.
      apply drop_while_clean.
    - simpl. intros E. now apply app_eq_nil in E as [_ E]. }
  now rewrite Hrv, rev_involutive, Hv.
Qed.

Lemma markup_free_not_In (s : str) (c : N) :
  markup_free s = true -> is_markup_char c = true -> ~ In c s.
Proof.
  unfold markup_free. rewrite forallb_forall. intros H Hc Hin.
  specialize (H _ Hin). now rewrite Hc in H.
Qed.

(** One [replace] of the chain: its pattern holds the literal [c], the
    text does not. *)
Ltac replace_is_identity c :=
  match goal with
  | H : markup_free ?s = true |- _ =>
      rewrite (@replace_all_fixed _ _ (ch c) s);
      [| simpl; tauto | now apply markup_free_not_In]
  end.

(** On text without markup characters only the final [trim] acts. *)
Lemma stripMarkdown_markup_free (s : str) :
  markup_free s = true -> stripMarkdown s = trim s.
Proof.
  intros H. unfold stripMarkdown.
  replace_is_identity "*"%char.
  replace_is_identity "_"%char.
  replace_is_identity "*"%char.
  replace_is_identity "_"%char.
  replace_is_identity "~"%char.
  replace_is_identity "["%char.
  replace_is_identity "("%char.
  replace_is_identity "`"%char.
  replace_is_identity "`"%char.
  replace_is_identity "["%char.
  replace_is_identity "["%char.
  replace_is_identity "{"%char.
  replace_is_identity "["%char.
  reflexivity.
Qed.

Lemma stripMarkdown_trimmed (x : str) :
  trim (stripMarkdown x) = stripMarkdown x.
Proof. unfold stripMarkdown. apply trim_trim. Qed.

End Labeler.

(** C5 fails as stated: one pass over four stars around a letter leaves a
    pair of stars, which a second pass removes. *)
Lemma stripMarkdown_not_idempotent :
  stripMarkdown (js "****a****") = js "*a*"
  /\ stripMarkdown (stripMarkdown (js "****a****")) = js "a"
  /\ stripMarkdown (stripMarkdown (js "****a****"))
     <> stripMarkdown (js "****a****").
Proof.
  repeat split; try (vm_compute; reflexivity).
  vm_compute. discriminate.
Qed.

Section Truncation.

Lemma num_leb_int (n : nat) (c : Z) :
  num_leb (num_of_nat n) (num_of_Z c) = (Z.of_nat n <=? c)%Z.
Proof.
  unfold num_leb, num_of_nat, num_of_Z.
  destruct (Z.leb_spec (Z.of_nat n) c) as [H|H].
  - apply Qle_bool_iff. rewrite <- Zle_Qle. exact H.
  - apply not_true_is_false. intros E. apply Qle_bool_iff in E.
    rewrite <- Zle_Qle in E. lia.
Qed.

Lemma slice_final_pred (c : Z) (len : nat) :
  (1 <= c)%Z ->
  slice_final (num_sub (num_of_Z c) (num_of_Z 1)) len
  = Nat.min (Z.to_nat (c - 1)) len.
Proof.
  intros Hc. unfold slice_final, num_sub, num_of_Z. simpl.
  rewrite Z.mul_1_r, Z.quot_1_r.
  destruct (Z.ltb_spec (c + -1) 0); [lia|].
  f_equal.
Qed.

(** What [truncateText] does on an integer limit of at least 1: text that
    fits is passed on; longer text is cut to [maxLength - 1] code units
    and the three dots are appended, [maxLength + 2] code units in all. *)
Lemma truncateText_int (text : str) (n : Z) :
  (1 <= n)%Z ->
  ((Z.of_nat (length (stripMarkdown text)) <= n)%Z ->
     truncateText text (num_of_Z n) = stripMarkdown text)
  /\ ((n < Z.of_nat (length (stripMarkdown text)))%Z ->
        truncateText text (num_of_Z n)
        = firstn (Z.to_nat (n - 1)) (stripMarkdown text) ++ js "..."
        /\ Z.of_nat (length (truncateText text (num_of_Z n))) = (n + 2)%Z).
Proof.
  intros Hn. unfold truncateText. rewrite num_leb_int. split; intros H.
  - destruct (Z.leb_spec (Z.of_nat (length (stripMarkdown text))) n);
      [reflexivity | lia].
  - destruct (Z.leb_spec (Z.of_nat (length (stripMarkdown text))) n); [lia|].
    unfold slice0. rewrite slice_final_pred, firstn_min_length by exact Hn.
    split; [reflexivity|].
    rewrite length_app, length_firstn. simpl. lia.
Qed.

End Truncation.

(** C3, at the input on which the code departs from it: with limit 3 the
    six letters abcdef come back as the two letters ab and three dots, five
    code units. *)
Theorem truncateText_exceeds_limit :
  stripMarkdown (js "abcdef") = js "abcdef"
  /\ truncateText (js "abcdef") (num_of_Z 3) = js "ab..."
  /\ length (truncateText (js "abcdef") (num_of_Z 3)) = 5.
Proof. repeat split; vm_compute; reflexivity. Qed.

(** ** Settings *)

Section SettingsFacts.

Variable StringToNumber : str -> number.

(** The parser answers the fallback, or the floor of a finite positive
    number. *)
Lemma parsePositiveInteger_cases (value : jsvalue) (fallback : number) :
  parsePositiveInteger StringToNumber value fallback = fallback
  \/ exists q, Number_ StringToNumber value = Finite q
               /\ Qle_bool q 0 = false
               /\ parsePositiveInteger StringToNumber value fallback
                  = num_of_Z (Qfloor q).
Proof.
  unfold parsePositiveInteger.
  destruct (Number_ StringToNumber value) as [| | |q]; simpl; auto.
  change (inject_Z 0) with 0%Q.
  destruct (Qle_bool q 0) eqn:E; simpl; [now left|].
  right. now exists q.
Qed.

(** From 1 upwards the result is a positive integer. *)
Lemma parsePositiveInteger_from_one (value : jsvalue) (fallback : number) (q : Q) :
  Number_ StringToNumber value = Finite q ->
  (1 <= q)%Q ->
  parsePositiveInteger StringToNumber value fallback = num_of_Z (Qfloor q)
  /\ (1 <= Qfloor q)%Z.
Proof.
  intros Hv Hq. unfold parsePositiveInteger. rewrite Hv. simpl.
  assert (Hpos : Qle_bool q 0 = false).
  { apply not_true_is_false. intros E. apply Qle_bool_iff in E.
    apply (Qle_trans _ _ _ Hq) in E. unfold Qle in E. simpl in E. lia. }
  change (inject_Z 0) with 0%Q. rewrite Hpos. simpl. split; [reflexivity|].
  change 1%Z with (Qfloor 1). now apply Qfloor_resp_le.
Qed.

End SettingsFacts.

(** C9, at the input on which the code departs from it: the stored number
    one half is finite and positive, so it is floored to 0, which is neither
    a positive integer nor the default; [readSettings] hands that 0 on as
    [maxBreadcrumbs] and [truncateLength]. *)
Theorem parsePositiveInteger_floors_fraction_to_zero
    (StringToNumber : str -> number) :
  parsePositiveInteger StringToNumber (JNumber (Finite (1 # 2))) (num_of_Z 8)
  = num_of_Z 0
  /\ is_positive_integer
       (parsePositiveInteger StringToNumber (JNumber (Finite (1 # 2))) (num_of_Z 8))
     = false
  /\ readSettings StringToNumber (fun _ => JNumber (Finite (1 # 2)))
     = {| maxBreadcrumbs := num_of_Z 0; truncateLength := num_of_Z 0 |}.
Proof. repeat split. Qed.

(** ** Navigation controller *)

Section Controller.

Variable settings : ExtensionSettings.

Lemma pageTitleOf_truthy (r : QueryResult) (t : str) :
  pageTitleOf r = Some t -> truthy (Some t) = Some t.
Proof.
  destruct r as [[|[|[|c s] row] rows]|]; simpl; try discriminate.
  now intros [= <-].
Qed.

(** A handler that starts a resolution leaves the module variables as
    they are and waits for the page title. *)
Lemma handleNavigation_starts (hash : str) (location : Location) (st : GState) :
  getLocationFromHash hash = Some location ->
  same_uid (currentLocation st) location = false ->
  exists k,
    handleNavigation settings hash st
    = (st, Awaiting (PageTitleQuery (loc_uid location)) k)
    /\ (forall r t st',
          pageTitleOf r = Some t ->
          k r st'
          = ({| breadcrumbHistory :=
                  updateBreadcrumbHistory
                    {| uid := loc_uid location; type := page; title := t |}
                    (maxBreadcrumbs settings) (breadcrumbHistory st');
                currentLocation := Some location |}, Finished))
    /\ (forall r st',
          pageTitleOf r = None ->
          exists k',
            k r st' = (st', Awaiting (BlockStringQuery (loc_uid location)) k')
            /\ forall r' st'', blockStringOf r' = None ->
                               k' r' st'' = (st'', Finished)).
Proof.
  intros Hloc Hnew. unfold handleNavigation. rewrite Hloc, Hnew.
  eexists. split; [reflexivity|]. split.
  - intros r t st' Hr. simpl. rewrite Hr, (pageTitleOf_truthy _ Hr).
    reflexivity.
  - intros r st' Hr. simpl. rewrite Hr. simpl.
    eexists. split; [reflexivity|].
    intros r' st'' Hr'. simpl. now rewrite Hr'.
Qed.

End Controller.

(** C6. A handler run leaves the history and the tracked location as they
    are when the signal resolves to no location, when it resolves to the id
    already tracked (the handler then finishes without a query), and when
    the host finds neither a page title nor a block string for the id,
    whatever the module variables are when the answers arrive. *)
Theorem discarded_navigation_leaves_state
    (settings : ExtensionSettings) (hash : str) (st : GState) :
  (getLocationFromHash hash = None ->
     handleNavigation settings hash st = (st, Finished))
  /\ (forall location current,
        getLocationFromHash hash = Some location ->
        currentLocation st = Some current ->
        loc_uid current = loc_uid location ->
        handleNavigation settings hash st = (st, Finished))
  /\ (forall location,
        getLocationFromHash hash = Some location ->
        same_uid (currentLocation st) location = false ->
        exists k,
          handleNavigation settings hash st
          = (st, Awaiting (PageTitleQuery (loc_uid location)) k)
          /\ forall r st',
               pageTitleOf r = None ->
               exists k',
                 k r st'
                 = (st', Awaiting (BlockStringQuery (loc_uid location)) k')
                 /\ forall r' st'',
                      blockStringOf r' = None -> k' r' st'' = (st'', Finished)).
Proof.
  split; [|split].
  - intros H. unfold handleNavigation. now rewrite H.
  - intros location current Hloc Hcur Huid. unfold handleNavigation.
    rewrite Hloc. unfold same_uid. rewrite Hcur, Huid, str_eqb_refl.
    reflexivity.
  - intros location Hloc Hnew.
    destruct (handleNavigation_starts settings hash st Hloc Hnew)
      as (k & Hk & _ & Hmiss).
    exists k. split; assumption.
Qed.

(** C8 fails as stated: with the default settings and an empty start, the
    signal goes to page aaa and then to page bbb; bbb resolves first and is
    committed; when the slower answer for aaa arrives it overwrites the
    tracked location and the head of the history, although the last signal
    was bbb. *)
Lemma stale_resolution_overwrites :
  let hashA := js "#/app/graph/page/aaa" in
  let hashB := js "#/app/graph/page/bbb" in
  let rA := Some [[js "Page A"]] in
  let rB := Some [[js "Page B"]] in
  let evs := [Hashchange hashA; Hashchange hashB; Answer 1 rB; Answer 0 rA] in
  let w := run_events DEFAULT_SETTINGS {| globals := initial; handlers := [] |} evs in
  ~ last_requested_wins DEFAULT_SETTINGS initial hashA hashB rA rB
  /\ option_map getLocationFromHash (latest_hash evs None)
     = Some (Some (mkLocation page (js "bbb")))
  /\ currentLocation (globals w) = Some (mkLocation page (js "aaa"))
  /\ map uid (breadcrumbHistory (globals w)) = [js "aaa"; js "bbb"].
Proof.
  cbv zeta. split; [|repeat split; vm_compute; reflexivity].
  unfold last_requested_wins. cbv zeta. intros H.
  apply (f_equal currentLocation) in H.
  vm_compute in H. discriminate H.
Qed.

(** ** Worked instances *)

Lemma history_bounded_and_deduplicated_witness :
  let entries := [crumb page "a" "A"; crumb block "b" "B"; crumb page "a" "A2";
                  crumb page "c" "C"; crumb page "d" "D"; crumb block "b" "B2"] in
  (0 < 2)%Z
  /\ (Z.of_nat (length (upserts (num_of_Z 2) entries [])) <= 2 + 1)%Z
  /\ NoDup (map uid (upserts (num_of_Z 2) entries [])).
Proof.
  cbv zeta. split; [lia|].
  apply history_bounded_and_deduplicated. lia.
Defined.

Lemma upsert_meets_contract_witness :
  let h := [crumb page "a" "A"; crumb block "b" "B"; crumb page "c" "C"] in
  let entry := crumb block "b" "B again" in
  (0 < 8)%Z
  /\ updateBreadcrumbHistory entry (num_of_Z 8) h = upsert_contract entry 8 h.
Proof.
  cbv zeta. split; [lia|].
  refine (proj1 (@upsert_meets_contract
                   [crumb page "a" "A"; crumb block "b" "B"; crumb page "c" "C"]
                   (crumb block "b" "B again") 8 _)).
  lia.
Defined.

Lemma upsert_idempotent_witness :
  let h := [crumb page "a" "A"; crumb block "b" "B"; crumb page "c" "C"] in
  let e := crumb page "c" "C" in
  (0 < 1)%Z
  /\ updateBreadcrumbHistory e (num_of_Z 1) (updateBreadcrumbHistory e (num_of_Z 1) h)
     = updateBreadcrumbHistory e (num_of_Z 1) h.
Proof.
  cbv zeta. split; [lia|].
  apply upsert_idempotent. lia.
Defined.

Lemma last_block_parameter_wins_witness :
  one_line (js "#/app/graph/page/p?x=1&block=a&block=b&y=2") = true
  /\ getLocationFromHash (js "#/app/graph/page/p?x=1&block=a&block=b&y=2")
     = Some (mkLocation block (js "b")).
Proof.
  split; [vm_compute; reflexivity|].
  refine (proj1 (@last_block_parameter_wins
                   (js "#/app/graph") (js "p") (js "x=1&block=a&") (js "b")
                   (js "&y=2") _ _ _ _ _ _ _));
    try discriminate; vm_compute; reflexivity.
Defined.

Lemma discarded_navigation_leaves_state_witness :
  let st := {| breadcrumbHistory := [crumb page "aaa" "Page A"];
               currentLocation := Some (mkLocation page (js "aaa")) |} in
  handleNavigation DEFAULT_SETTINGS (js "#/app/graph/search") st = (st, Finished)
  /\ handleNavigation DEFAULT_SETTINGS (js "#/app/graph/page/aaa?x=1") st
     = (st, Finished)
  /\ exists k,
       handleNavigation DEFAULT_SETTINGS (js "#/app/graph/page/gone") st
       = (st, Awaiting (PageTitleQuery (js "gone")) k)
       /\ forall r st',
            pageTitleOf r = None ->
            exists k',
              k r st' = (st', Awaiting (BlockStringQuery (js "gone")) k')
              /\ forall r' st'',
                   blockStringOf r' = None -> k' r' st'' = (st'', Finished).
Proof.
  cbv zeta. split; [|split].
  - refine (proj1 (discarded_navigation_leaves_state _ _ _) _).
    vm_compute. reflexivity.
  - refine (proj1 (proj2 (discarded_navigation_leaves_state _ _ _))
                  (mkLocation page (js "aaa")) (mkLocation page (js "aaa")) _ _ _);
      vm_compute; reflexivity.
  - refine (proj2 (proj2 (discarded_navigation_leaves_state _ _ _))
                  (mkLocation page (js "gone")) _ _);
      vm_compute; reflexivity.
Defined.

(* ================================================================== *)
(** * Further properties of the code *)

(** ** Settings *)

Section SettingsMore.

Variable StringToNumber : str -> number.

Lemma parsePositiveInteger_integer (value : jsvalue) (fallback : Z) :
  (0 <= fallback)%Z ->
  exists z : Z,
    (0 <= z)%Z
    /\ parsePositiveInteger StringToNumber value (num_of_Z fallback) = num_of_Z z.
Proof.
  intros Hf.
  destruct (parsePositiveInteger_cases StringToNumber value (num_of_Z fallback))
    as [->|(q & _ & Hq & ->)].
  - now exists fallback.
  - exists (Qfloor q). split; [|reflexivity].
    change 0%Z with (Qfloor 0). apply Qfloor_resp_le.
    destruct (Qlt_le_dec 0 q) as [H|H]; [now apply Qlt_le_weak|].
    apply Qle_bool_iff in H. congruence.
Qed.

End SettingsMore.

(** X1. Whatever the settings store holds, [readSettings] yields two
    non-negative integers; where a stored value does not convert to a finite
    number above zero (missing, null, false, NaN, infinite, zero, negative),
    the field is the default, 8 or 25, independently of the other field. *)
Theorem readSettings_total_with_defaults
    (StringToNumber : str -> number) (get : string -> jsvalue) :
  (exists m t : Z,
     (0 <= m)%Z /\ (0 <= t)%Z
     /\ readSettings StringToNumber get
        = {| maxBreadcrumbs := num_of_Z m; truncateLength := num_of_Z t |})
  /\ (positive_finite (Number_ StringToNumber (get "maxBreadcrumbs"%string)) = false ->
      maxBreadcrumbs (readSettings StringToNumber get) = num_of_Z 8)
  /\ (positive_finite (Number_ StringToNumber (get "truncateLength"%string)) = false ->
      truncateLength (readSettings StringToNumber get) = num_of_Z 25)
  /\ readSettings StringToNumber (fun _ => JUndefined) = DEFAULT_SETTINGS.
Proof.
  split; [|repeat split].
  - destruct (@parsePositiveInteger_integer StringToNumber
                (get "maxBreadcrumbs"%string) 8) as (m & Hm & Em); [lia|].
    destruct (@parsePositiveInteger_integer StringToNumber
                (get "truncateLength"%string) 25) as (t & Ht & Et); [lia|].
    exists m, t. repeat split; try assumption.
    unfold readSettings. cbn [maxBreadcrumbs truncateLength DEFAULT_SETTINGS].
    now rewrite Em, Et.
  - intros H. unfold readSettings, parsePositiveInteger. cbn [maxBreadcrumbs].
    unfold positive_finite in H. now rewrite H.
  - intros H. unfold readSettings, parsePositiveInteger. cbn [truncateLength].
    unfold positive_finite in H. now rewrite H.
Qed.

(** X2. A stored number from 1 upwards is rounded down to the integer at or
    just below it, which is at least 1; a positive integer is returned as it
    is. *)
Theorem parsePositiveInteger_rounds_down
    (StringToNumber : str -> number) (q : Q) (fallback : number)
    (Hq : (1 <= q)%Q) :
  exists z : Z,
    parsePositiveInteger StringToNumber (JNumber (Finite q)) fallback = num_of_Z z
    /\ (1 <= z)%Z
    /\ (inject_Z z <= q)%Q /\ (q < inject_Z (z + 1))%Q
    /\ (forall n : Z, (1 <= n)%Z ->
          parsePositiveInteger StringToNumber (JNumber (num_of_Z n)) fallback
          = num_of_Z n).
Proof.
  destruct (@parsePositiveInteger_from_one StringToNumber
              (JNumber (Finite q)) fallback q eq_refl Hq) as [E Hz].
  exists (Qfloor q). repeat split.
  - exact E.
  - exact Hz.
  - apply Qfloor_le.
  - apply Qlt_floor.
  - intros n Hn.
    destruct (@parsePositiveInteger_from_one StringToNumber
                (JNumber (num_of_Z n)) fallback (inject_Z n) eq_refl) as [En _].
    + change (inject_Z 1 <= inject_Z n)%Q. rewrite <- Zle_Qle. exact Hn.
    + rewrite En. now rewrite Qfloor_Z.
Qed.

Lemma parsePositiveInteger_rounds_down_witness :
  (1 <= 7 # 2)%Q
  /\ exists z : Z,
       parsePositiveInteger (fun _ => NaN) (JNumber (Finite (7 # 2))) (num_of_Z 8)
       = num_of_Z z
       /\ (1 <= z)%Z.
Proof.
  assert (H : (1 <= 7 # 2)%Q) by (unfold Qle; simpl; lia).
  split; [exact H|].
  destruct (@parsePositiveInteger_rounds_down (fun _ => NaN) (7 # 2) (num_of_Z 8) H)
    as (z & E & Hz & _).
  exists z. split; assumption.
Defined.

(** ** Location resolver *)

Section ResolverMore.

Lemma search_suffix (r : pattern) (s : str) (cap : option str) :
  search r s = Some cap ->
  exists before s' left,
    s = before ++ s' /\ matchp r None s' = Some (cap, left).
Proof.
  induction s as [|x s IH].
  - simpl. destruct (matchp r None []) as [[c left]|] eqn:E; [|discriminate].
    intros [= <-]. now exists [], [], left.
  - rewrite search_cons.
    destruct (matchp r None (x :: s)) as [[c left]|] eqn:E.
    + intros [= <-]. now exists [], (x :: s), left.
    + intros H. destruct (IH H) as (before & s' & left & -> & Hm).
      now exists (x :: before), s', left.
Qed.

Lemma search_None (r : pattern) (s : str) :
  (forall before s', s = before ++ s' -> matchp r None s' = None) ->
  search r s = None.
Proof.
  intros H. destruct (search r s) as [cap|] eqn:E; [|reflexivity].
  apply search_suffix in E as (before & s' & left & Hs & Hm).
  rewrite (H _ _ Hs) in Hm. discriminate.
Qed.

Lemma any_suffix_app (f : str -> bool) (a b : str) :
  any_suffix f (a ++ b) = false -> any_suffix f b = false.
Proof.
  induction a as [|x a IH]; simpl; intros H; [exact H|].
  apply orb_false_iff in H as [_ H]. now apply IH.
Qed.

Lemma is_prefix_true (l s : str) :
  is_prefix l s = true -> exists s', s = l ++ s'.
Proof.
  revert s; induction l as [|x l IH]; intros s H.
  - now exists s.
  - destruct s as [|y s]; [discriminate|]. simpl in H.
    apply andb_true_iff in H as [Hx Hl]. apply N.eqb_eq in Hx. subst y.
    destruct (IH _ Hl) as [s' ->]. now exists s'.
Qed.

(** A pattern that opens with literals matches only where they stand. *)
Lemma matchp_needs_prefix (l : str) (r : pattern) (cap : option str) (s : str) :
  is_prefix l s = false -> matchp (map Lit l ++ r) cap s = None.
Proof.
  intros H. destruct (matchp (map Lit l ++ r) cap s) as [res|] eqn:E;
    [|reflexivity].
  apply matchp_lits_inv in E as [s' [-> _]].
  now rewrite is_prefix_app in H.
Qed.

Lemma page_re_fails (cap : option str) (s : str) :
  page_param_at s = false -> matchp page_re cap s = None.
Proof.
  intros Hs. destruct (matchp page_re cap s) as [res|] eqn:E;
    [exfalso | reflexivity].
  apply matchp_lits_inv in E as [s' [-> Hm]].
  cbn [matchp group_plus] in Hm. apply first_some_Some in Hm as [n [Hn _]].
  apply candidates_In in Hn.
  unfold page_param_at in Hs. rewrite is_prefix_app in Hs.
  destruct s' as [|c t]; simpl in Hn; [lia|].
  destruct (is_uid_char c) eqn:Ec; [|lia].
  simpl in Hs. congruence.
Qed.

(** The block pattern needs a question mark and, after it, a block
    parameter with a value. *)
Lemma block_re_needs (s : str) :
  ~ In (ch "?") s \/ any_suffix block_param_at s = false ->
  search block_re s = None.
Proof.
  intros H. apply search_None. intros before s' Hs.
  destruct (matchp block_re None s') as [res|] eqn:E; [exfalso | reflexivity].
  destruct H as [H|H].
  - apply H. rewrite Hs. apply in_or_app. right.
    apply (matchp_literals _ _ _ E). unfold block_re, lits.
    apply in_or_app. right. right. now left.
  - apply block_re_inv in E as (a & s2 & Hs' & _ & Hm).
    cbn [matchp star] in Hm. apply first_some_Some in Hm as [n [_ Hm]].
    assert (Hat : block_param_at (skipn n s2) = false).
    { apply any_suffix_skipn.
      apply any_suffix_app with (a := before ++ js "/page/" ++ a ++ js "?").
      rewrite <- !app_assoc. now rewrite <- Hs', <- Hs. }
    rewrite (block_param_re_fails _ _ Hat) in Hm. discriminate.
Qed.

End ResolverMore.

(** X3. A signal in which the text /page/ does not occur (settings, search,
    any other route) resolves to no location. *)
Theorem no_page_route_no_location (hash : str)
    (Hno : any_suffix (is_prefix (js "/page/")) hash = false) :
  getLocationFromHash hash = None.
Proof.
  assert (H : forall r, search (map Lit (js "/page/") ++ r) hash = None).
  { intros r. apply search_None. intros before s' Hs.
    apply matchp_needs_prefix.
    rewrite Hs in Hno. apply any_suffix_app in Hno.
    apply (any_suffix_skipn _ _ Hno 0). }
  unfold getLocationFromHash.
  change block_re with
    (map Lit (js "/page/")
     ++ plus (not_char "?") :: map Lit (js "?") ++ star dot :: block_param_re).
  change page_re with (map Lit (js "/page/") ++ [group_plus is_uid_char]).
  now rewrite !H.
Qed.

Lemma no_page_route_no_location_witness :
  getLocationFromHash (js "#/app/graph/search?block=abc") = None.
Proof.
  apply no_page_route_no_location. vm_compute. reflexivity.
Defined.

(** A captured [(x+)] at the end of a pattern takes the whole run. *)
Lemma group_takes_run (id rest : str) (cap : option str) :
  id <> [] ->
  forallb is_uid_char id = true ->
  not_uid_start rest = true ->
  matchp [group_plus is_uid_char] cap (id ++ rest) = Some (Some id, rest).
Proof.
  intros Hne Hall Hrest. cbn [matchp group_plus]. unfold candidates.
  rewrite run_all; [| exact Hall |].
  - apply first_some_greedy with (n0 := length id).
    + destruct id; [contradiction | simpl; lia].
    + now rewrite firstn_app, firstn_all, Nat.sub_diag, skipn_app, skipn_all,
        Nat.sub_diag, app_nil_r.
    + intros n Hn. destruct id; [contradiction | simpl in Hn; lia].
  - destruct rest as [|c r]; [exact I|].
    simpl in Hrest. now apply negb_true_iff.
Qed.

(** X4. A signal with a page route and no block parameter (no question
    mark at all, or no [block=] with a value) resolves to the page whose id
    is the whole run of identifier characters after the first /page/ that
    has one. *)
Theorem page_route_resolves_to_page (pre id rest : str)
    (Hid : id <> []) (Hid' : forallb is_uid_char id = true)
    (Hrest : not_uid_start rest = true)
    (Hfirst : forall n, n < length pre ->
                page_param_at (skipn n (pre ++ js "/page/" ++ id ++ rest)) = false)
    (Hblock : ~ In (ch "?") (pre ++ js "/page/" ++ id ++ rest)
              \/ any_suffix block_param_at (pre ++ js "/page/" ++ id ++ rest)
                 = false) :
  getLocationFromHash (pre ++ js "/page/" ++ id ++ rest)
  = Some (mkLocation page id).
Proof.
  assert (Hp : search page_re (pre ++ js "/page/" ++ id ++ rest) = Some (Some id)).
  { clear Hblock. induction pre as [|x pre IH].
    - apply search_here with (left := rest).
      change page_re with (map Lit (js "/page/") ++ [group_plus is_uid_char]).
      change ([] ++ js "/page/" ++ id ++ rest) with (js "/page/" ++ id ++ rest).
      rewrite matchp_lits_app. now apply group_takes_run.
    - change ((x :: pre) ++ js "/page/" ++ id ++ rest)
        with (x :: pre ++ js "/page/" ++ id ++ rest) in *.
      rewrite search_cons, page_re_fails.
      + apply IH. intros n Hn. apply (Hfirst (S n)). simpl. lia.
      + apply (Hfirst 0). simpl. lia. }
  unfold getLocationFromHash. rewrite (block_re_needs _ Hblock), Hp. simpl.
  destruct id; [contradiction | reflexivity].
Qed.

Lemma page_route_resolves_to_page_witness :
  getLocationFromHash (js "#/app/graph/page/abc-123_x?focus=1")
  = Some (mkLocation page (js "abc-123_x")).
Proof.
  apply (@page_route_resolves_to_page (js "#/app/graph") (js "abc-123_x")
           (js "?focus=1")).
  - discriminate.
  - reflexivity.
  - reflexivity.
  - intros n Hn. simpl in Hn.
    do 11 (destruct n as [|n]; [reflexivity|]). lia.
  - right. vm_compute. reflexivity.
Defined.

(** ** Content labeler *)

Section LabelerMore.

Lemma run_le_length (cls : N -> bool) (s : str) : run cls s <= length s.
Proof.
  induction s as [|c s IH]; simpl; [lia|]. destruct (cls c); simpl; lia.
Qed.

(** A match consumes its literals and what group 1 holds. *)
Lemma matchp_consumes (r : pattern) :
  forall cap s cap' left,
    matchp r cap s = Some (cap', left) ->
    length left + literals r + (if has_group r then cap_length cap' else 0)
    <= length s.
Proof.
  induction r as [|a r IH]; intros cap s cap' left Hm.
  - simpl in Hm. injection Hm as _ <-. unfold literals, has_group. simpl. lia.
  - destruct a as [x|g min cls capt].
    + simpl in Hm. destruct s as [|y s]; [discriminate|].
      destruct (y =? x)%N; [|discriminate].
      apply IH in Hm. unfold literals, has_group in *. simpl in *. lia.
    + cbn [matchp] in Hm. apply first_some_Some in Hm as [n [Hn Hm]].
      apply candidates_In in Hn.
      pose proof (run_le_length cls s) as Hrun.
      pose proof (IH _ _ _ _ Hm) as Hlen.
      rewrite length_skipn in Hlen.
      change (literals (Rep g min cls capt :: r)) with (literals r).
      change (has_group (Rep g min cls capt :: r)) with (capt || has_group r).
      destruct (has_group r) eqn:Hg.
      * rewrite orb_true_r. lia.
      * rewrite orb_false_r. destruct capt; [|lia].
        apply matchp_group in Hm as [[_ ->]|(g' & m & cls' & u & Hin & _)].
        -- simpl. rewrite length_firstn. lia.
        -- assert (Hg' : has_group r = true).
           { unfold has_group. apply existsb_exists.
             eexists. split; [exact Hin | reflexivity]. }
           congruence.
Qed.

Lemma expand_length (t : template) (cap : option str) :
  length (expand t cap) = template_text t + template_groups t * cap_length cap.
Proof.
  unfold expand, template_text, template_groups.
  induction t as [|i t IH]; simpl; [reflexivity|].
  rewrite length_app, IH. destruct i; simpl; [lia|].
  destruct cap; simpl; lia.
Qed.

(** A shrinking replacement does not lengthen the text. *)
Lemma replace_go_length (r : pattern) (t : template) :
  shrinking r t = true ->
  forall s skip, length (replace_go r t skip s) <= length s - skip.
Proof.
  intros Hsh. apply andb_true_iff in Hsh as [Htext Hgroups].
  apply Nat.leb_le in Htext, Hgroups.
  induction s as [|c s IH]; intros skip; [simpl; lia|].
  cbn [replace_go]. destruct skip as [|k].
  - destruct (matchp r None (c :: s)) as [[cap left]|] eqn:E.
    + pose proof (matchp_consumes _ _ _ E) as Hc.
      pose proof (IH (length (c :: s) - length left - 1)) as Hrec.
      rewrite length_app, expand_length.
      assert (Hexp : template_text t + template_groups t * cap_length cap
                     <= literals r + (if has_group r then cap_length cap else 0)).
      { destruct (has_group r); nia. }
      simpl length in *. lia.
    + specialize (IH 0). simpl. lia.
  - specialize (IH k). simpl. lia.
Qed.

Lemma drop_while_length (s : str) :
  length (drop_while is_white_space s) <= length s.
Proof.
  induction s as [|c s IH]; simpl; [lia|].
  destruct (is_white_space c); simpl; lia.
Qed.

Lemma trim_length (s : str) : length (trim s) <= length s.
Proof.
  unfold trim. rewrite length_rev.
  etransitivity; [apply drop_while_length|].
  rewrite length_rev. apply drop_while_length.
Qed.

Lemma trim_no_leading_space (s : str) : no_leading_space (trim s).
Proof.
  unfold trim.
  set (u := drop_while is_white_space s).
  destruct (drop_while is_white_space (rev u)) as [|c v] eqn:Ev; [exact I|].
  destruct (drop_while_suffix (rev u)) as [w Hw]. rewrite Ev in Hw.
  apply (@no_leading_space_app _ (rev w)).
  - rewrite <- rev_app_distr, <- Hw, rev_involutive. apply drop_while_clean.
  - simpl. intros E. now apply app_eq_nil in E as [_ E].
Qed.

Lemma trim_no_trailing_space (s : str) : no_leading_space (rev (trim s)).
Proof.
  unfold trim. rewrite rev_involutive. apply drop_while_clean.
Qed.

Lemma trim_fixed (s : str) :
  no_leading_space s -> no_leading_space (rev s) -> trim s = s.
Proof.
  intros H1 H2. unfold trim.
  now rewrite (drop_while_fixed _ H1), (drop_while_fixed _ H2), rev_involutive.
Qed.

Lemma white_space_not_markup (c : N) :
  is_white_space c = true -> is_markup_char c = false.
Proof.
  intros Hw. destruct (is_markup_char c) eqn:Hm; [|reflexivity].
  unfold is_markup_char in Hm.
  repeat (apply orb_true_iff in Hm as [Hm|Hm]);
    apply N.eqb_eq in Hm; subst c; discriminate Hw.
Qed.

Lemma drop_while_all (s : str) :
  forallb is_white_space s = true -> drop_while is_white_space s = [].
Proof.
  induction s as [|c s IH]; simpl; [reflexivity|].
  intros H. apply andb_true_iff in H as [-> H]. now apply IH.
Qed.

End LabelerMore.

(** X5. Stripping never lengthens a text: every replacement of
    [stripMarkdown] is at most as long as what it replaces, and [trim] only
    removes. *)
Theorem stripMarkdown_never_longer (text : str) :
  length (stripMarkdown text) <= length text.
Proof.
  unfold stripMarkdown, replace_all.
  etransitivity; [apply trim_length|].
  repeat (etransitivity;
          [apply (fun r t H s => @replace_go_length r t H s 0); reflexivity
          | rewrite ?Nat.sub_0_r]).
  apply Nat.le_refl.
Qed.

(** X6. What [stripMarkdown] returns neither starts nor ends with white
    space, and a text of white space only (or the empty text) gives the empty
    label. *)
Theorem stripMarkdown_trims (text : str) :
  no_leading_space (stripMarkdown text)
  /\ no_leading_space (rev (stripMarkdown text))
  /\ (forallb is_white_space text = true -> stripMarkdown text = []).
Proof.
  split; [|split].
  - apply trim_no_leading_space.
  - apply trim_no_trailing_space.
  - intros Hw. rewrite stripMarkdown_markup_free.
    + unfold trim. now rewrite (drop_while_all _ Hw).
    + unfold markup_free. rewrite forallb_forall in *. intros c Hc.
      apply negb_true_iff, white_space_not_markup. now apply Hw.
Qed.

(** X7. Plain text passes through: a text with no markup character and no
    white space at either end is returned as it is, and [truncateText]
    returns it as it is whenever it fits the limit. *)
Theorem plain_text_unchanged (text : str) (n : Z)
    (Hplain : markup_free text = true)
    (Hhead : no_leading_space text)
    (Htail : no_leading_space (rev text)) :
  stripMarkdown text = text
  /\ ((Z.of_nat (length text) <= n)%Z -> truncateText text (num_of_Z n) = text).
Proof.
  assert (E : stripMarkdown text = text).
  { rewrite stripMarkdown_markup_free by exact Hplain. now apply trim_fixed. }
  split; [exact E|].
  intros Hfit. unfold truncateText. rewrite E, num_leb_int.
  destruct (Z.leb_spec (Z.of_nat (length text)) n); [reflexivity | lia].
Qed.

Lemma plain_text_unchanged_witness :
  stripMarkdown (js "Daily notes: March 3rd") = js "Daily notes: March 3rd"
  /\ truncateText (js "Daily notes: March 3rd") (num_of_Z 25)
     = js "Daily notes: March 3rd".
Proof.
  destruct (@plain_text_unchanged (js "Daily notes: March 3rd") 25)
    as [E T]; try (vm_compute; reflexivity).
  split; [exact E|]. apply T. vm_compute. discriminate.
Defined.

(** *** Single constructs *)

Section Constructs.

Lemma replace_go_skip_all (r : pattern) (t : template) (s : str) (skip : nat) :
  length s <= skip -> replace_go r t skip s = [].
Proof.
  revert skip; induction s as [|c s IH]; intros skip H; [reflexivity|].
  destruct skip as [|k]; simpl in H; [lia|].
  simpl. apply IH. lia.
Qed.

(** A match that spans the whole text is replaced by the template. *)
Lemma replace_whole (r : pattern) (t : template) (s : str) (cap : option str) :
  s <> [] ->
  matchp r None s = Some (cap, []) ->
  replace_all r t s = expand t cap.
Proof.
  intros Hs Hm. unfold replace_all. destruct s as [|c s]; [contradiction|].
  cbn [replace_go]. rewrite Hm.
  rewrite replace_go_skip_all by (simpl; lia).
  apply app_nil_r.
Qed.

Lemma matchp_lits_only (l : str) (cap : option str) :
  matchp (map Lit l) cap l = Some (cap, []).
Proof.
  pose proof (matchp_lits_app l [] cap []) as H.
  now rewrite !app_nil_r in H.
Qed.

(** Opening literals, a captured run without [c], closing literals that
    start with [c]: the pattern matches the wrapped text as a whole. *)
Lemma wrapped_match (o cl t : str) (c : ascii) :
  t <> [] ->
  forallb (not_char c) t = true ->
  match cl with x :: _ => not_char c x = false | [] => True end ->
  matchp (map Lit o ++ [group_plus (not_char c)] ++ map Lit cl) None
         (o ++ t ++ cl)
  = Some (Some t, []).
Proof.
  intros Ht Hall Hcl. rewrite matchp_lits_app.
  cbn [app matchp group_plus]. unfold candidates.
  rewrite run_all by assumption.
  apply first_some_greedy with (n0 := length t).
  - destruct t; [contradiction | simpl; lia].
  - rewrite firstn_app, firstn_all, Nat.sub_diag, skipn_app, skipn_all,
      Nat.sub_diag, app_nil_r.
    apply matchp_lits_only.
  - intros n Hn. destruct t; [contradiction | simpl in Hn; lia].
Qed.

Lemma replace_wrapped (o cl t : str) (c : ascii) (tm : template) :
  t <> [] ->
  forallb (not_char c) t = true ->
  match cl with x :: _ => not_char c x = false | [] => True end ->
  replace_all (map Lit o ++ [group_plus (not_char c)] ++ map Lit cl) tm
              (o ++ t ++ cl)
  = expand tm (Some t).
Proof.
  intros Ht Hall Hcl. apply replace_whole.
  - destruct t; [contradiction|]. now destruct o.
  - now apply wrapped_match.
Qed.

(** Where the opening literals of a pattern stand nowhere, [replace]
    copies the text. *)
Lemma replace_all_no_prefix (l : str) (r : pattern) (t : template) (s : str) :
  any_suffix (is_prefix l) s = false ->
  replace_all (map Lit l ++ r) t s = s.
Proof.
  unfold replace_all. induction s as [|x s IH]; intros H; [reflexivity|].
  change (any_suffix (is_prefix l) (x :: s))
    with (is_prefix l (x :: s) || any_suffix (is_prefix l) s) in H.
  apply orb_false_iff in H as [Hx Hs].
  cbn [replace_go]. rewrite (matchp_needs_prefix _ _ _ _ Hx).
  f_equal. now apply IH.
Qed.

(** A delimiter that stands alone at both ends is nowhere doubled. *)
Lemma no_doubled_delimiter (a : N) (l t : str) :
  t <> [] -> ~ In a t ->
  any_suffix (is_prefix (a :: a :: l)) ([a] ++ t ++ [a]) = false.
Proof.
  intros Ht Ha.
  assert (Htail : any_suffix (is_prefix (a :: a :: l)) (t ++ [a]) = false).
  { clear Ht. induction t as [|x t IH].
    - simpl. rewrite N.eqb_refl. reflexivity.
    - change (any_suffix (is_prefix (a :: a :: l)) ((x :: t) ++ [a]))
        with (is_prefix (a :: a :: l) (x :: t ++ [a])
              || any_suffix (is_prefix (a :: a :: l)) (t ++ [a])).
      rewrite IH by (intros Hin; apply Ha; now right).
      simpl. destruct (N.eqb_spec a x) as [->|_]; [|reflexivity].
      exfalso. apply Ha. now left. }
  change (any_suffix (is_prefix (a :: a :: l)) ([a] ++ t ++ [a]))
    with (is_prefix (a :: a :: l) (a :: t ++ [a])
          || any_suffix (is_prefix (a :: a :: l)) (t ++ [a])).
  rewrite Htail. destruct t as [|x t]; [contradiction|].
  simpl. destruct (N.eqb_spec a x) as [->|_].
  - exfalso. apply Ha. now left.
  - now rewrite andb_false_r.
Qed.

Lemma markup_free_not_char (t : str) (c : ascii) :
  markup_free t = true -> is_markup_char (ch c) = true ->
  forallb (not_char c) t = true.
Proof.
  intros Ht Hc. apply forallb_forall. intros x Hx.
  unfold not_char. apply negb_true_iff. apply N.eqb_neq. intros ->.
  revert Hx. now apply markup_free_not_In.
Qed.

Lemma not_In_wrapped (c : N) (o t cl : str) :
  is_markup_char c = true ->
  markup_free t = true ->
  existsb (N.eqb c) o = false ->
  existsb (N.eqb c) cl = false ->
  ~ In c (o ++ t ++ cl).
Proof.
  intros Hc Ht Ho Hcl Hin.
  assert (Hex : forall l, existsb (N.eqb c) l = false -> ~ In c l).
  { intros l Hl Hinl.
    assert (existsb (N.eqb c) l = true); [|congruence].
    apply existsb_exists. exists c. split; [exact Hinl | apply N.eqb_refl]. }
  apply in_app_or in Hin as [Hin|Hin]; [now apply (Hex o)|].
  apply in_app_or in Hin as [Hin|Hin]; [|now apply (Hex cl)].
  revert Hin. now apply markup_free_not_In.
Qed.

Lemma first_some_lazy (B : Type) (f : nat -> option B) (len lo n0 : nat) (b : B) :
  lo <= n0 < lo + len ->
  f n0 = Some b ->
  (forall n, lo <= n < n0 -> f n = None) ->
  first_some f (seq lo len) = Some b.
Proof.
  revert lo; induction len as [|len IH]; intros lo Hn0 Hb Hnone; [lia|].
  simpl. destruct (Nat.eq_dec lo n0) as [->|Hne].
  - now rewrite Hb.
  - rewrite (Hnone lo) by lia. apply IH; [lia | assumption |].
    intros n Hn. apply Hnone. lia.
Qed.

Lemma skipn_inside (A : Type) (n : nat) (t u : list A) :
  n < length t ->
  exists x rest, skipn n (t ++ u) = x :: rest /\ In x t.
Proof.
  revert t; induction n as [|n IH]; intros [|y t] H; simpl in H; try lia.
  - exists y, (t ++ u). split; [reflexivity | now left].
  - destruct (IH t) as (x & rest & E & Hx); [lia|].
    exists x, rest. split; [exact E | now right].
Qed.

(** [{{.*?}}] on a template: the lazy [.*?] stops at the first closing
    pair, which is the end. *)
Lemma template_match (t : str) :
  one_line t = true -> ~ In (ch "}") t ->
  matchp (map Lit (js "{{") ++ [star_lazy dot] ++ map Lit (js "}}")) None
         (js "{{" ++ t ++ js "}}")
  = Some (None, []).
Proof.
  intros Hline Hbrace. rewrite matchp_lits_app.
  cbn [app matchp star_lazy]. unfold candidates.
  apply first_some_lazy with (n0 := length t).
  - replace (run dot (t ++ js "}}")) with (length (t ++ js "}}")).
    + rewrite length_app. simpl. lia.
    + rewrite <- (app_nil_r (t ++ js "}}")) at 2. symmetry.
      apply run_all; [|exact I].
      unfold one_line in Hline. rewrite forallb_app, Hline. reflexivity.
  - rewrite skipn_app, skipn_all, Nat.sub_diag. apply matchp_lits_only.
  - intros n Hn.
    destruct (@skipn_inside _ n t (js "}}")) as (x & rest & E & Hx); [lia|].
    rewrite E. change (map Lit (js "}}")) with (map Lit (js "}}") ++ []).
    apply matchp_needs_prefix.
    change (is_prefix (ch "}" :: [ch "}"]) (x :: rest) = false).
    cbn [is_prefix].
    destruct (N.eqb_spec (ch "}") x) as [<-|_]; [|reflexivity].
    exfalso. now apply Hbrace.
Qed.

End Constructs.

(** The replace at the head of the chain copies [S]: its pattern needs the
    markup character [c], which [S = o ++ t ++ cl] does not hold. *)
Ltac absent c :=
  match goal with
  | H : markup_free ?t = true |- context [replace_all _ _ (?o ++ ?t ++ ?cl)] =>
      rewrite (@replace_all_fixed _ _ (ch c) (o ++ t ++ cl));
      [| simpl; tauto
       | apply not_In_wrapped; [reflexivity | exact H | reflexivity | reflexivity]]
  end.

(** The replace at the head of the chain copies the plain text [t]. *)
Ltac plain c :=
  match goal with
  | H : markup_free ?t = true |- _ =>
      rewrite (@replace_all_fixed _ _ (ch c) t);
      [| simpl; tauto | now apply markup_free_not_In]
  end.

(** The replace at the head of the chain unwraps [o ++ t ++ cl]. *)
Ltac unwrap c :=
  match goal with
  | H : markup_free ?t = true |- context [replace_all _ _ (?o ++ ?t ++ ?cl)] =>
      rewrite (@replace_wrapped o cl t c);
      [ cbn [expand flat_map]; rewrite ?app_nil_r
      | assumption
      | now apply markup_free_not_char
      | reflexivity ]
  end.

(** The replace at the head of the chain copies [S]: its pattern opens with
    the delimiter [c] doubled, and [S] has it single at both ends only. *)
Ltac doubled c l' :=
  match goal with
  | H : markup_free ?t = true
    |- context [replace_all (map Lit ?l ++ ?r) ?tm (?o ++ ?t ++ ?cl)] =>
      rewrite (@replace_all_no_prefix l r tm (o ++ t ++ cl));
      [| apply (@no_doubled_delimiter (ch c) l' t);
         [assumption | now apply markup_free_not_In]]
  end.

(** X8. Emphasis and code delimiters around plain text are removed: for
    non-empty text [t] without markup characters, the bold, italic,
    strikethrough and inline-code forms of [t] all strip to [t] trimmed. *)
Theorem emphasis_unwrapped (t : str)
    (Ht : t <> []) (Hplain : markup_free t = true) :
  stripMarkdown (js "**" ++ t ++ js "**") = trim t
  /\ stripMarkdown (js "__" ++ t ++ js "__") = trim t
  /\ stripMarkdown (js "*" ++ t ++ js "*") = trim t
  /\ stripMarkdown (js "_" ++ t ++ js "_") = trim t
  /\ stripMarkdown (js "~~" ++ t ++ js "~~") = trim t
  /\ stripMarkdown (js "`" ++ t ++ js "`") = trim t.
Proof.
  repeat split; unfold stripMarkdown, lits; cbv zeta.
  - unwrap "*"%char.
    plain "_"%char. plain "*"%char. plain "_"%char. plain "~"%char.
    plain "["%char. plain "("%char. plain "`"%char. plain "`"%char.
    plain "["%char. plain "["%char. plain "{"%char. plain "["%char.
    reflexivity.
  - absent "*"%char. unwrap "_"%char.
    plain "*"%char. plain "_"%char. plain "~"%char.
    plain "["%char. plain "("%char. plain "`"%char. plain "`"%char.
    plain "["%char. plain "["%char. plain "{"%char. plain "["%char.
    reflexivity.
  - doubled "*"%char (@nil N). absent "_"%char. unwrap "*"%char.
    plain "_"%char. plain "~"%char.
    plain "["%char. plain "("%char. plain "`"%char. plain "`"%char.
    plain "["%char. plain "["%char. plain "{"%char. plain "["%char.
    reflexivity.
  - absent "*"%char. doubled "_"%char (@nil N). absent "*"%char.
    unwrap "_"%char. plain "~"%char.
    plain "["%char. plain "("%char. plain "`"%char. plain "`"%char.
    plain "["%char. plain "["%char. plain "{"%char. plain "["%char.
    reflexivity.
  - absent "*"%char. absent "_"%char. absent "*"%char. absent "_"%char.
    unwrap "~"%char.
    plain "["%char. plain "("%char. plain "`"%char. plain "`"%char.
    plain "["%char. plain "["%char. plain "{"%char. plain "["%char.
    reflexivity.
  - absent "*"%char. absent "_"%char. absent "*"%char. absent "_"%char.
    absent "~"%char. absent "["%char. absent "("%char.
    doubled "`"%char [ch "`"]. unwrap "`"%char.
    plain "["%char. plain "["%char. plain "{"%char. plain "["%char.
    reflexivity.
Qed.

Lemma emphasis_unwrapped_witness :
  stripMarkdown (js "**" ++ js " done today " ++ js "**") = js "done today"
  /\ stripMarkdown (js "`" ++ js "npm start" ++ js "`") = js "npm start".
Proof.
  destruct (@emphasis_unwrapped (js " done today ")) as (B & _);
    [discriminate | reflexivity |].
  destruct (@emphasis_unwrapped (js "npm start")) as (_ & _ & _ & _ & _ & C);
    [discriminate | reflexivity |].
  split; [exact B | exact C].
Defined.

Lemma no_closer_not_char (t : str) (c : ascii) :
  no_closer t = true ->
  ((ch c =? ch "]") || (ch c =? ch ")") || (ch c =? ch "}"))%N = true ->
  forallb (not_char c) t = true.
Proof.
  intros Ht Hc. unfold no_closer in Ht. rewrite forallb_forall in *.
  intros x Hx. specialize (Ht x Hx). unfold not_char.
  destruct (N.eqb_spec x (ch c)) as [->|_]; [|reflexivity].
  now rewrite Hc in Ht.
Qed.

(** X9. References around plain text: for non-empty text [t] without
    markup characters and closing brackets, a page reference strips to [t]
    trimmed, a block reference to the arrow, and a one-line template call to
    the empty text. *)
Theorem references_replaced (t : str)
    (Ht : t <> []) (Hplain : markup_free t = true)
    (Hclose : no_closer t = true) (Hline : one_line t = true) :
  stripMarkdown (js "[[" ++ t ++ js "]]") = trim t
  /\ stripMarkdown (js "((" ++ t ++ js "))") = js "->"
  /\ stripMarkdown (js "{{" ++ t ++ js "}}") = [].
Proof.
  repeat split; unfold stripMarkdown, lits; cbv zeta.
  - absent "*"%char. absent "_"%char. absent "*"%char. absent "_"%char.
    absent "~"%char.
    rewrite (@replace_wrapped (js "[[") (js "]]") t "]");
      [| assumption | now apply no_closer_not_char | reflexivity].
    cbn [expand flat_map]. rewrite app_nil_r.
    plain "("%char. plain "`"%char. plain "`"%char.
    plain "["%char. plain "["%char. plain "{"%char. plain "["%char.
    reflexivity.
  - absent "*"%char. absent "_"%char. absent "*"%char. absent "_"%char.
    absent "~"%char. absent "["%char.
    rewrite (@replace_wrapped (js "((") (js "))") t ")");
      [| assumption | now apply no_closer_not_char | reflexivity].
    vm_compute. reflexivity.
  - absent "*"%char. absent "_"%char. absent "*"%char. absent "_"%char.
    absent "~"%char. absent "["%char. absent "("%char.
    absent "`"%char. absent "`"%char. absent "["%char. absent "["%char.
    rewrite (@replace_whole _ _ (js "{{" ++ t ++ js "}}") None).
    + reflexivity.
    + discriminate.
    + apply template_match; [exact Hline|].
      apply (@forallb_not_char "}"). now apply no_closer_not_char.
Qed.

Lemma references_replaced_witness :
  stripMarkdown (js "[[" ++ js "Project plan" ++ js "]]") = js "Project plan"
  /\ stripMarkdown (js "((" ++ js "abc123XYZ" ++ js "))") = js "->"
  /\ stripMarkdown (js "{{" ++ js "TODO" ++ js "}}") = [].
Proof.
  destruct (@references_replaced (js "Project plan")) as (A & _);
    [discriminate | reflexivity | reflexivity | reflexivity |].
  destruct (@references_replaced (js "abc123XYZ")) as (_ & B & _);
    [discriminate | reflexivity | reflexivity | reflexivity |].
  destruct (@references_replaced (js "TODO")) as (_ & _ & C);
    [discriminate | reflexivity | reflexivity | reflexivity |].
  repeat split; assumption.
Defined.

(** *** Truncation *)

(** X10. On an integer limit of at least 1, a stripped text that fits is
    returned as it is; a longer one is cut to its first [maxLength - 1] code
    units and gets the three dots, [maxLength + 2] code units in all. *)
Theorem truncateText_fits_or_cuts (text : str) (n : Z) (Hn : (1 <= n)%Z) :
  ((Z.of_nat (length (stripMarkdown text)) <= n)%Z ->
     truncateText text (num_of_Z n) = stripMarkdown text)
  /\ ((n < Z.of_nat (length (stripMarkdown text)))%Z ->
        truncateText text (num_of_Z n)
        = firstn (Z.to_nat (n - 1)) (stripMarkdown text) ++ js "..."
        /\ Z.of_nat (length (truncateText text (num_of_Z n))) = (n + 2)%Z).
Proof. exact (truncateText_int text Hn). Qed.

Lemma truncateText_fits_or_cuts_witness :
  (1 <= 8)%Z
  /\ truncateText (js "**bold** and `code`") (num_of_Z 8) = js "bold an..."
  /\ truncateText (js "**bold**") (num_of_Z 8) = js "bold".
Proof.
  destruct (@truncateText_fits_or_cuts (js "**bold** and `code`") 8)
    as [_ Hover]; [lia|].
  destruct (@truncateText_fits_or_cuts (js "**bold**") 8) as [Hfit _]; [lia|].
  split; [lia|]. split.
  - destruct Hover as [E _]; [vm_compute; reflexivity | exact E].
  - apply Hfit. vm_compute. discriminate.
Defined.

(** X11. A limit of zero or below does not empty the label: the slice end
    [maxLength - 1] is negative and counts from the end, so a non-empty
    cleaned text loses its last [1 - maxLength] code units (all of them when
    it is shorter) and gets the three dots. *)
Theorem truncateText_nonpositive_limit (text : str) (n : Z)
    (Hn : (n <= 0)%Z) (Hne : stripMarkdown text <> []) :
  truncateText text (num_of_Z n)
  = firstn (Z.to_nat (Z.of_nat (length (stripMarkdown text)) + n - 1))
           (stripMarkdown text)
    ++ js "...".
Proof.
  unfold truncateText. rewrite num_leb_int.
  destruct (stripMarkdown text) as [|c cleaned] eqn:E; [contradiction|].
  destruct (Z.leb_spec (Z.of_nat (length (c :: cleaned))) n) as [H|H];
    [simpl length in H; lia|].
  f_equal. unfold slice0. f_equal.
  unfold slice_final, num_sub, num_of_Z. simpl Qnum. simpl Qden.
  rewrite Z.mul_1_r, Z.quot_1_r.
  destruct (Z.ltb_spec (n + -1) 0); lia.
Qed.

Lemma truncateText_nonpositive_limit_witness :
  (0 <= 0)%Z
  /\ truncateText (js "Inbox") (num_of_Z 0) = js "Inbo...".
Proof.
  split; [lia|].
  rewrite (@truncateText_nonpositive_limit (js "Inbox") 0);
    [reflexivity | lia | vm_compute; discriminate].
Defined.

(** ** History store *)

Section HistoryMore.

Lemma remove_uid_length_absent (u : str) (h : list BreadcrumbItem) :
  ~ In u (map uid h) -> remove_uid u h = h.
Proof.
  intros H. apply remove_uid_fixed. intros x Hx E. apply H.
  apply in_map_iff. now exists x.
Qed.

Lemma remove_uid_length_present (u : str) (h : list BreadcrumbItem) :
  NoDup (map uid h) -> In u (map uid h) ->
  S (length (remove_uid u h)) = length h.
Proof.
  induction h as [|x h IH]; simpl; intros Hnd Hin; [contradiction|].
  inversion Hnd as [|? ? Hnotin Hnd']; subst.
  destruct (str_eqb (uid x) u) eqn:E.
  - apply str_eqb_eq in E. subst u.
    now rewrite remove_uid_length_absent.
  - apply str_eqb_neq in E. destruct Hin as [Hin|Hin]; [contradiction|].
    simpl. f_equal. now apply IH.
Qed.

Lemma firstn_app_firstn (A : Type) (k : nat) (a b : list A) :
  firstn k (a ++ firstn k b) = firstn k (a ++ b).
Proof.
  rewrite !firstn_app, firstn_firstn. do 2 f_equal. lia.
Qed.

Lemma NoDup_app_firstn (A : Type) (k : nat) (a b : list A) :
  NoDup (a ++ b) -> NoDup (a ++ firstn k b).
Proof.
  induction a as [|x a IH]; simpl; intros H.
  - now apply NoDup_firstn.
  - inversion H as [|? ? Hnotin Hnd]; subst. constructor; [|now apply IH].
    intros Hin. apply Hnotin. apply in_app_or in Hin as [Hin|Hin];
      apply in_or_app; [now left | right; now apply In_firstn in Hin].
Qed.

Lemma upserts_distinct (cap : Z) (es h : list BreadcrumbItem) :
  (0 <= cap)%Z ->
  NoDup (map uid (rev es ++ h)) ->
  upserts (num_of_Z cap) es h = firstn (Z.to_nat (cap + 1)) (rev es ++ h)
  \/ (Z.to_nat (cap + 1) < length h)%nat.
Proof.
  intros Hcap. revert h. induction es as [|e es IH]; intros h Hnd.
  - simpl. destruct (Nat.le_gt_cases (length h) (Z.to_nat (cap + 1))) as [H|H].
    + left. symmetry. now apply firstn_all2.
    + now right.
  - left.
    change (upserts (num_of_Z cap) (e :: es) h)
      with (upserts (num_of_Z cap) es (updateBreadcrumbHistory e (num_of_Z cap) h)).
    rewrite updateBreadcrumbHistory_int by exact Hcap.
    simpl rev in *. rewrite <- app_assoc in *. simpl app in *.
    assert (Hnew : ~ In (uid e) (map uid h)).
    { rewrite map_app in Hnd. apply NoDup_remove_2 in Hnd.
      intros Hin. apply Hnd. apply in_or_app. now right. }
    rewrite (@remove_uid_length_absent _ _ Hnew).
    destruct (IH (firstn (Z.to_nat (cap + 1)) (e :: h))) as [E|Hlong].
    + rewrite map_app in *. rewrite <- firstn_map. now apply NoDup_app_firstn.
    + rewrite E. apply firstn_app_firstn.
    + pose proof (firstn_le_length (Z.to_nat (cap + 1)) (e :: h)). lia.
Qed.

End HistoryMore.

(** X12. Size accounting of one upsert, on a history with distinct ids and
    an integer cap of 0 or more: revisiting an id already in the history
    keeps the length (cut to cap + 1); a new id adds one entry, up to
    cap + 1.  The new entry is always first. *)
Theorem upsert_size (item : BreadcrumbItem) (cap : Z) (h : list BreadcrumbItem)
    (Hcap : (0 <= cap)%Z) (Hnd : NoDup (map uid h)) :
  hd_error (updateBreadcrumbHistory item (num_of_Z cap) h) = Some item
  /\ (In (uid item) (map uid h) ->
      length (updateBreadcrumbHistory item (num_of_Z cap) h)
      = Nat.min (Z.to_nat (cap + 1)) (length h))
  /\ (~ In (uid item) (map uid h) ->
      length (updateBreadcrumbHistory item (num_of_Z cap) h)
      = Nat.min (Z.to_nat (cap + 1)) (S (length h))).
Proof.
  rewrite updateBreadcrumbHistory_int by exact Hcap.
  replace (Z.to_nat (cap + 1)) with (S (Z.to_nat cap)) by lia.
  split; [reflexivity|]. split; intros Hin.
  - rewrite length_firstn. simpl length.
    now rewrite (@remove_uid_length_present _ _ Hnd Hin).
  - rewrite length_firstn. simpl length.
    now rewrite (@remove_uid_length_absent _ _ Hin).
Qed.

Lemma upsert_size_witness :
  let h := [crumb page "a" "A"; crumb block "b" "B"; crumb page "c" "C"] in
  length (updateBreadcrumbHistory (crumb block "b" "B2") (num_of_Z 8) h) = 3
  /\ length (updateBreadcrumbHistory (crumb page "d" "D") (num_of_Z 2) h) = 3.
Proof.
  cbv zeta.
  assert (Hnd : NoDup (map uid [crumb page "a" "A"; crumb block "b" "B";
                                crumb page "c" "C"])).
  { repeat constructor; simpl; intuition discriminate. }
  split.
  - destruct (@upsert_size (crumb block "b" "B2") 8 _ ltac:(lia) Hnd)
      as (_ & Hin & _).
    rewrite Hin; [reflexivity | simpl; tauto].
  - destruct (@upsert_size (crumb page "d" "D") 2 _ ltac:(lia) Hnd)
      as (_ & _ & Hout).
    rewrite Hout; [reflexivity | simpl; intuition discriminate].
Defined.

(** X13. A stored number strictly between 0 and 1 is parsed to 0, and
    with that cap every upsert leaves the new entry alone in the history. *)
Theorem fractional_cap_keeps_one_entry
    (StringToNumber : str -> number) (q : Q) (fallback : number)
    (item : BreadcrumbItem) (h : list BreadcrumbItem)
    (Hpos : (0 < q)%Q) (Hlt : (q < 1)%Q) :
  updateBreadcrumbHistory item
    (parsePositiveInteger StringToNumber (JNumber (Finite q)) fallback) h
  = [item].
Proof.
  assert (Hq : Qle_bool q 0 = false).
  { apply not_true_is_false. intros E. apply Qle_bool_iff in E.
    now apply Qle_not_lt in E. }
  assert (Hfloor : Qfloor q = 0%Z).
  { assert (H0 : (0 <= Qfloor q)%Z).
    { change 0%Z with (Qfloor 0). apply Qfloor_resp_le.
      now apply Qlt_le_weak. }
    assert (H1 : (Qfloor q < 1)%Z).
    { rewrite Zlt_Qlt. eapply Qle_lt_trans; [apply Qfloor_le | exact Hlt]. }
    lia. }
  unfold parsePositiveInteger. cbn [Number_ isFinite num_gtb num_of_Z].
  change (inject_Z 0) with 0%Q. rewrite Hq. cbn [negb andb Math_floor].
  rewrite Hfloor. fold (num_of_Z 0).
  now rewrite updateBreadcrumbHistory_int by lia.
Qed.

Lemma fractional_cap_keeps_one_entry_witness :
  updateBreadcrumbHistory (crumb page "d" "D")
    (parsePositiveInteger (fun _ => NaN) (JNumber (Finite (1 # 2))) (num_of_Z 8))
    [crumb page "a" "A"; crumb block "b" "B"]
  = [crumb page "d" "D"].
Proof.
  apply fractional_cap_keeps_one_entry; reflexivity.
Defined.

(** X14. Upserting entries with pairwise distinct ids into the empty
    history, one after the other, leaves the last cap + 1 of them, newest
    first. *)
Theorem upserts_keep_most_recent (cap : Z) (entries : list BreadcrumbItem)
    (Hcap : (0 <= cap)%Z) (Hnd : NoDup (map uid entries)) :
  upserts (num_of_Z cap) entries [] = firstn (Z.to_nat (cap + 1)) (rev entries).
Proof.
  destruct (@upserts_distinct cap entries [] Hcap) as [E|H].
  - rewrite app_nil_r, map_rev. apply NoDup_rev. exact Hnd.
  - now rewrite app_nil_r in E.
  - simpl in H. lia.
Qed.

Lemma upserts_keep_most_recent_witness :
  upserts (num_of_Z 1)
          [crumb page "a" "A"; crumb block "b" "B"; crumb page "c" "C"] []
  = [crumb page "c" "C"; crumb block "b" "B"].
Proof.
  rewrite upserts_keep_most_recent; [reflexivity | lia |].
  repeat constructor; simpl; intuition discriminate.
Defined.

(** ** Content resolution *)

Section Resolution.

Lemma blockStringOf_truthy (r : QueryResult) (b : str) :
  blockStringOf r = Some b -> truthy (Some b) = Some b /\ b <> [].
Proof.
  destruct r as [[|row rows]|]; simpl; try discriminate.
  destruct row as [|[|c s] row]; simpl; intros [= <-]; now split.
Qed.

Lemma pageTitleOf_nonempty (r : QueryResult) (t : str) :
  pageTitleOf r = Some t -> t <> [].
Proof.
  destruct r as [[|[|[|c s] row] rows]|]; simpl; try discriminate.
  now intros [= <-].
Qed.

Lemma getBreadcrumbItemByUid_returns (u : str) :
  returns (resolved_for u) (getBreadcrumbItemByUid u).
Proof.
  unfold getBreadcrumbItemByUid, queryPageTitle, queryBlockString.
  cbn [bind returns]. intros r.
  destruct (pageTitleOf r) as [t|] eqn:Et.
  - rewrite (pageTitleOf_truthy _ Et). cbn [returns resolved_for uid title].
    split; [reflexivity|]. now apply (pageTitleOf_nonempty r).
  - cbn [truthy bind returns]. intros r'.
    destruct (blockStringOf r') as [b|] eqn:Eb.
    + destruct (blockStringOf_truthy _ Eb) as [-> Hb].
      cbn [returns resolved_for uid title]. now split.
    + exact I.
Qed.

End Resolution.

(** X15. Content resolution against a host: the page title is asked
    first, and a non-empty title settles it without a second query; only
    when there is none is the block string asked; a block that exists with
    no string, or an empty one, is kept under the placeholder title; the
    entry carries the id asked for and never an empty title. *)
Theorem resolution_page_then_block (host : Query -> QueryResult) (u : str) :
  match pageTitleOf (host (PageTitleQuery u)),
        blockStringOf (host (BlockStringQuery u)) with
  | Some t, _ =>
      run_async host (getBreadcrumbItemByUid u)
      = (Some {| uid := u; type := page; title := t |}, [PageTitleQuery u])
      /\ t <> []
  | None, Some b =>
      run_async host (getBreadcrumbItemByUid u)
      = (Some {| uid := u; type := block; title := b |},
         [PageTitleQuery u; BlockStringQuery u])
      /\ b <> []
  | None, None =>
      run_async host (getBreadcrumbItemByUid u)
      = (None, [PageTitleQuery u; BlockStringQuery u])
  end
  /\ (forall rows,
        blockStringOf (Some ([] :: rows)) = Some (js "(empty block)")
        /\ forall cells,
             blockStringOf (Some (([] :: cells) :: rows))
             = Some (js "(empty block)")).
Proof.
  split; [|now split].
  unfold getBreadcrumbItemByUid, queryPageTitle, queryBlockString.
  cbn [bind run_async].
  destruct (pageTitleOf (host (PageTitleQuery u))) as [t|] eqn:Et.
  - rewrite (pageTitleOf_truthy _ Et). cbn [run_async].
    split; [reflexivity | now apply (pageTitleOf_nonempty _ Et)].
  - cbn [truthy bind run_async].
    destruct (blockStringOf (host (BlockStringQuery u))) as [b|] eqn:Eb.
    + destruct (blockStringOf_truthy _ Eb) as [-> Hb]. now split.
    + reflexivity.
Qed.

(** ** Navigation controller: what every run keeps *)

Section Invariant.

Variable settings : ExtensionSettings.
Variable cap : Z.
Hypothesis cap_integer : maxBreadcrumbs settings = num_of_Z cap.
Hypothesis cap_nonneg : (0 <= cap)%Z.

Lemma resume_keeps (A : Type) (P : GState -> Prop) (Q : A -> Prop)
    (commit : A -> GState -> GState) :
  (forall a st, Q a -> P st -> P (commit a st)) ->
  forall m : Async A, returns Q m ->
  forall st, P st ->
    P (fst (resume m commit st)) /\ task_keeps P (snd (resume m commit st)).
Proof.
  intros Hcommit. induction m as [a|q k IH]; intros Hm st Hst.
  - simpl. split; [now apply Hcommit | constructor].
  - simpl. split; [exact Hst|]. constructor.
    + intros r st' Hst'. now apply IH.
    + intros r st' Hst'. now apply IH.
Qed.

(** The commit of a resolved entry keeps the state consistent. *)
Lemma commit_ok (location : Location) (o : option BreadcrumbItem) (st : GState) :
  resolved_for (loc_uid location) o ->
  state_ok cap st ->
  state_ok cap
    match o with
    | None => st
    | Some item =>
        {| breadcrumbHistory :=
             updateBreadcrumbHistory item (maxBreadcrumbs settings)
                                     (breadcrumbHistory st);
           currentLocation := Some location |}
    end.
Proof.
  intros Ho Hst. destruct o as [item|]; [|exact Hst].
  destruct Ho as [Huid Htitle]. destruct Hst as (Hnd & Hlen & Htitles & _).
  rewrite cap_integer. unfold state_ok. cbn [breadcrumbHistory currentLocation].
  destruct (update_invariant item (breadcrumbHistory st) cap_nonneg Hnd)
    as [Hnd' Hlen'].
  repeat split; try assumption.
  - rewrite updateBreadcrumbHistory_int by exact cap_nonneg.
    apply Forall_forall. intros x Hx. apply In_firstn in Hx.
    destruct Hx as [<-|Hx]; [exact Htitle|].
    apply remove_uid_In in Hx as [Hx _].
    rewrite Forall_forall in Htitles. now apply Htitles.
  - rewrite updateBreadcrumbHistory_int by exact cap_nonneg.
    replace (Z.to_nat (cap + 1)) with (S (Z.to_nat cap)) by lia.
    cbn [firstn]. eexists. eexists. split; [reflexivity | exact Huid].
Qed.

Lemma handleNavigation_keeps (hash : str) (st : GState) :
  state_ok cap st ->
  state_ok cap (fst (handleNavigation settings hash st))
  /\ task_keeps (state_ok cap) (snd (handleNavigation settings hash st)).
Proof.
  intros Hst. unfold handleNavigation.
  destruct (getLocationFromHash hash) as [location|];
    [|split; [exact Hst | constructor]].
  destruct (same_uid (currentLocation st) location);
    [split; [exact Hst | constructor]|].
  apply resume_keeps with (Q := resolved_for (loc_uid location)).
  - intros o st' Ho Hst'. now apply commit_ok.
  - apply getBreadcrumbItemByUid_returns.
  - exact Hst.
Qed.

Lemma set_nth_Forall (A : Type) (P : A -> Prop) (i : nat) (x : A) (l : list A) :
  P x -> Forall P l -> Forall P (set_nth i x l).
Proof.
  intros Hx. revert i. induction l as [|y l IH]; intros i Hl.
  - destruct i; constructor.
  - inversion Hl; subst. destruct i; simpl; constructor; auto.
Qed.

Lemma step_keeps (w : World) (ev : Event) :
  world_ok cap w -> world_ok cap (step settings w ev).
Proof.
  intros [Hst Hts]. destruct ev as [hash|i r]; unfold step.
  - destruct (handleNavigation_keeps hash Hst) as [Hst' Ht].
    destruct (handleNavigation settings hash (globals w)) as [st' t].
    split; [exact Hst'|]. cbn [handlers].
    apply Forall_app. split; [exact Hts | now constructor].
  - destruct (nth_error (handlers w) i) as [[|q k]|] eqn:E;
      try (split; assumption).
    apply nth_error_In in E. rewrite Forall_forall in Hts.
    pose proof (Hts _ E) as Hk. inversion Hk as [|? ? Hfst Hsnd]; subst.
    specialize (Hfst r _ Hst). specialize (Hsnd r _ Hst).
    destruct (k r (globals w)) as [st' t']. split; [exact Hfst|].
    cbn [handlers]. apply set_nth_Forall; [exact Hsnd|].
    now apply Forall_forall.
Qed.

Lemma run_events_keeps (evs : list Event) (w : World) :
  world_ok cap w -> world_ok cap (run_events settings w evs).
Proof.
  unfold run_events. revert w. induction evs as [|ev evs IH]; intros w Hw;
    [exact Hw|].
  simpl. apply IH. now apply step_keeps.
Qed.

End Invariant.

(** X16. Whatever signals arrive and in whatever order the host answers
    (handlers may overlap), with an integer cap of 0 or more the module
    variables stay consistent after every event: the ids in the history are
    distinct, there are at most cap + 1 entries, no title is empty, and the
    tracked location is the id of the first entry (a location is tracked
    exactly when the history is not empty). *)
Theorem event_loop_keeps_history_consistent
    (settings : ExtensionSettings) (cap : Z) (evs : list Event)
    (Hint : maxBreadcrumbs settings = num_of_Z cap) (Hcap : (0 <= cap)%Z) :
  state_ok cap
    (globals (run_events settings {| globals := initial; handlers := [] |} evs)).
Proof.
  apply (@run_events_keeps settings cap Hint Hcap evs).
  split; [|constructor].
  unfold state_ok, initial. cbn [breadcrumbHistory currentLocation].
  repeat split; try constructor. simpl. lia.
Qed.

Lemma event_loop_keeps_history_consistent_witness :
  state_ok 8
    (globals
       (run_events DEFAULT_SETTINGS {| globals := initial; handlers := [] |}
          [Hashchange (js "#/app/graph/page/aaa");
           Hashchange (js "#/app/graph/page/bbb");
           Answer 1 (Some [[js "Page B"]]);
           Answer 0 (Some [[js "Page A"]]);
           Hashchange (js "#/app/graph/page/bbb?block=ccc");
           Answer 2 None; Answer 2 (Some [[]])])).
Proof.
  apply event_loop_keeps_history_consistent; [reflexivity | lia].
Defined.

(** X17. The same holds with the settings as [readSettings] reads them,
    whatever the settings store holds: the cap it yields is an integer of 0
    or more, and every run of events keeps the history consistent for it. *)
Theorem stored_settings_keep_history_consistent
    (StringToNumber : str -> number) (get : string -> jsvalue)
    (evs : list Event) :
  exists cap : Z,
    (0 <= cap)%Z
    /\ maxBreadcrumbs (readSettings StringToNumber get) = num_of_Z cap
    /\ state_ok cap
         (globals (run_events (readSettings StringToNumber get)
                              {| globals := initial; handlers := [] |} evs)).
Proof.
  destruct (@parsePositiveInteger_integer StringToNumber
              (get "maxBreadcrumbs"%string) 8) as (m & Hm & Em); [lia|].
  assert (Em' : maxBreadcrumbs (readSettings StringToNumber get) = num_of_Z m)
    by exact Em.
  exists m. split; [exact Hm|]. split; [exact Em'|].
  apply (@run_events_keeps _ m Em' Hm evs).
  split; [|constructor].
  unfold state_ok, initial. cbn [breadcrumbHistory currentLocation].
  repeat split; try constructor. simpl. lia.
Qed.

(** X18. The kind stored with an entry is the kind the host resolves the
    id to, not the kind the signal had: a handler started for any location
    stores a page entry when the page title arrives, and a block entry when
    the title is missing and the block string arrives; either way the
    location of the signal becomes the tracked one. *)
Theorem stored_kind_follows_resolution
    (settings : ExtensionSettings) (hash : str) (location : Location)
    (st : GState)
    (Hloc : getLocationFromHash hash = Some location)
    (Hnew : same_uid (currentLocation st) location = false) :
  exists k,
    handleNavigation settings hash st
    = (st, Awaiting (PageTitleQuery (loc_uid location)) k)
    /\ (forall r t st',
          pageTitleOf r = Some t ->
          k r st'
          = ({| breadcrumbHistory :=
                  updateBreadcrumbHistory
                    {| uid := loc_uid location; type := page; title := t |}
                    (maxBreadcrumbs settings) (breadcrumbHistory st');
                currentLocation := Some location |}, Finished))
    /\ (forall r st',
          pageTitleOf r = None ->
          exists k',
            k r st' = (st', Awaiting (BlockStringQuery (loc_uid location)) k')
            /\ forall r' b st'',
                 blockStringOf r' = Some b ->
                 k' r' st''
                 = ({| breadcrumbHistory :=
                         updateBreadcrumbHistory
                           {| uid := loc_uid location; type := block; title := b |}
                           (maxBreadcrumbs settings) (breadcrumbHistory st'');
                       currentLocation := Some location |}, Finished)).
Proof.
  unfold handleNavigation. rewrite Hloc, Hnew.
  eexists. split; [reflexivity|]. split.
  - intros r t st' Hr. simpl. rewrite Hr, (pageTitleOf_truthy _ Hr).
    reflexivity.
  - intros r st' Hr. simpl. rewrite Hr. simpl.
    eexists. split; [reflexivity|].
    intros r' b st'' Hr'. cbn beta. rewrite Hr'.
    destruct (blockStringOf_truthy _ Hr') as [-> _]. reflexivity.
Qed.

Lemma stored_kind_follows_resolution_witness :
  exists k,
    handleNavigation DEFAULT_SETTINGS (js "#/app/graph/page/abc") initial
    = (initial, Awaiting (PageTitleQuery (js "abc")) k)
    /\ exists k',
         k None initial = (initial, Awaiting (BlockStringQuery (js "abc")) k')
         /\ k' (Some [[js "a block"]]) initial
            = ({| breadcrumbHistory := [crumb block "abc" "a block"];
                  currentLocation := Some (mkLocation page (js "abc")) |},
               Finished).
Proof.
  destruct (@stored_kind_follows_resolution DEFAULT_SETTINGS
              (js "#/app/graph/page/abc") (mkLocation page (js "abc")) initial)
    as (k & Hk & _ & Hblock); [reflexivity | reflexivity |].
  exists k. split; [exact Hk|].
  destruct (Hblock None initial eq_refl) as (k' & Hk' & Hcommit).
  exists k'. split; [exact Hk'|].
  rewrite (Hcommit (Some [[js "a block"]]) (js "a block") initial eq_refl).
  reflexivity.
Defined.

(** X19. [cleanup] does not cancel a resolution in flight: when the page
    title for a handler started earlier arrives after [cleanup] has emptied
    the module variables, the handler still commits, and the history holds
    that one entry again with its location tracked (cap an integer of 0 or
    more). *)
Theorem cleanup_does_not_cancel_in_flight
    (settings : ExtensionSettings) (cap : Z) (hash : str) (location : Location)
    (st : GState)
    (Hint : maxBreadcrumbs settings = num_of_Z cap) (Hcap : (0 <= cap)%Z)
    (Hloc : getLocationFromHash hash = Some location)
    (Hnew : same_uid (currentLocation st) location = false) :
  exists k,
    handleNavigation settings hash st
    = (st, Awaiting (PageTitleQuery (loc_uid location)) k)
    /\ forall r t st',
         pageTitleOf r = Some t ->
         k r (cleanup st')
         = ({| breadcrumbHistory :=
                 [{| uid := loc_uid location; type := page; title := t |}];
               currentLocation := Some location |}, Finished).
Proof.
  destruct (handleNavigation_starts settings hash st Hloc Hnew)
    as (k & Hk & Hcommit & _).
  exists k. split; [exact Hk|].
  intros r t st' Hr. rewrite (Hcommit r t (cleanup st') Hr).
  unfold cleanup. cbn [breadcrumbHistory].
  rewrite Hint, updateBreadcrumbHistory_int by exact Hcap.
  replace (Z.to_nat (cap + 1)) with (S (Z.to_nat cap)) by lia.
  cbn [remove_uid firstn]. now rewrite firstn_nil.
Qed.

Lemma cleanup_does_not_cancel_in_flight_witness :
  exists k,
    handleNavigation DEFAULT_SETTINGS (js "#/app/graph/page/abc") initial
    = (initial, Awaiting (PageTitleQuery (js "abc")) k)
    /\ k (Some [[js "Title"]]) (cleanup initial)
       = ({| breadcrumbHistory := [crumb page "abc" "Title"];
             currentLocation := Some (mkLocation page (js "abc")) |}, Finished).
Proof.
  destruct (@cleanup_does_not_cancel_in_flight DEFAULT_SETTINGS 8
              (js "#/app/graph/page/abc") (mkLocation page (js "abc")) initial)
    as (k & Hk & Hcommit); [reflexivity | lia | reflexivity | reflexivity |].
  exists k. split; [exact Hk|].
  apply (Hcommit (Some [[js "Title"]]) (js "Title") initial eq_refl).
Defined.

(** ** Render projector *)

Section Render.

Variable truncateLength : number.

(** The loop over [displayOrder], read as a whole: the earlier items, then
    the last one marked current, separators in between. *)
Lemma appendBreadcrumbs_separated (items : list BreadcrumbItem)
    (last : BreadcrumbItem) :
  forall index,
    appendBreadcrumbs truncateLength (index + length items + 1) index
                      (items ++ [last])
    = (if 0 <? index then [createSeparatorElement] else [])
      ++ separated createSeparatorElement
          (map (fun item => createBreadcrumbElement item false truncateLength) items
           ++ [createBreadcrumbElement last true truncateLength]).
Proof.
  induction items as [|a items IH]; intros index.
  - cbn [app appendBreadcrumbs map separated length].
    replace (index + 0 + 1 - 1) with index by lia.
    now rewrite Nat.eqb_refl.
  - cbn [app appendBreadcrumbs map length].
    replace (index + S (length items) + 1)
      with (S index + length items + 1) by lia.
    rewrite IH.
    replace (index =? S index + length items + 1 - 1) with false
      by (symmetry; apply Nat.eqb_neq; lia).
    cbn [Nat.ltb Nat.leb app]. f_equal.
    destruct (map (fun item => createBreadcrumbElement item false truncateLength)
                  items ++ [createBreadcrumbElement last true truncateLength])
      eqn:E.
    + destruct items; discriminate E.
    + reflexivity.
Qed.

Lemma separated_length (A : Type) (s : A) (l : list A) :
  length (separated s l) = 2 * length l - 1.
Proof.
  induction l as [|x [|y l] IH]; try reflexivity.
  change (separated s (x :: y :: l)) with (x :: s :: separated s (y :: l)).
  simpl length in *. lia.
Qed.

Lemma separated_In (A : Type) (s x : A) (l : list A) :
  In x (separated s l) -> x = s \/ In x l.
Proof.
  induction l as [|y [|z l] IH]; intros H.
  - contradiction.
  - right. exact H.
  - change (separated s (y :: z :: l)) with (y :: s :: separated s (z :: l)) in H.
    destruct H as [<-|[<-|H]]; [right; now left | now left |].
    destruct (IH H) as [->|Hin]; [now left | right; now right].
Qed.

Lemma In_separated (A : Type) (s x : A) (l : list A) :
  In x l -> In x (separated s l).
Proof.
  induction l as [|y [|z l] IH]; intros H; [contradiction | exact H |].
  change (separated s (y :: z :: l)) with (y :: s :: separated s (z :: l)).
  destruct H as [<-|H]; [now left | right; right; now apply IH].
Qed.

Lemma renderContent_nonempty (cur : BreadcrumbItem) (older : list BreadcrumbItem) :
  renderContent truncateLength (cur :: older)
  = Children
      (separated createSeparatorElement
         (map (fun item => createBreadcrumbElement item false truncateLength)
              (rev older)
          ++ [createBreadcrumbElement cur true truncateLength])).
Proof.
  unfold renderContent. cbn [rev]. f_equal.
  rewrite length_app. cbn [length].
  exact (appendBreadcrumbs_separated (rev older) cur 0).
Qed.

End Render.

(** X20. What the strip shows: for an empty history the text "No history
    yet"; otherwise the entries oldest first, a separator between
    neighbours, the most recent entry last and alone marked current,
    2n - 1 elements for n entries; each label is the truncated title and each
    tooltip the stripped title. *)
Theorem render_shows_trail_oldest_first
    (truncateLength : number) (cur : BreadcrumbItem)
    (older : list BreadcrumbItem) :
  renderContent truncateLength [] = TextContent (js "No history yet")
  /\ renderContent truncateLength (cur :: older)
     = Children
         (separated createSeparatorElement
            (map (fun item => createBreadcrumbElement item false truncateLength)
                 (rev older)
             ++ [createBreadcrumbElement cur true truncateLength]))
  /\ (forall spans,
        renderContent truncateLength (cur :: older) = Children spans ->
        length spans = 2 * length (cur :: older) - 1)
  /\ (forall item isCurrent,
        textContent (createBreadcrumbElement item isCurrent truncateLength)
        = truncateText (title item) truncateLength
        /\ tooltip (createBreadcrumbElement item isCurrent truncateLength)
           = stripMarkdown (title item)).
Proof.
  split; [reflexivity|]. split; [apply renderContent_nonempty|].
  split; [|now split].
  intros spans. rewrite renderContent_nonempty. intros [= <-].
  rewrite separated_length, length_app, length_map, length_rev.
  simpl length. lia.
Qed.

(** X21. What a click does: every click listener in the strip opens an
    entry of the history other than the most recent one, as a page or as a
    block according to the entry's kind; every such entry has its listener;
    the current element and the separators have none. *)
Theorem clicks_open_earlier_entries
    (truncateLength : number) (cur : BreadcrumbItem)
    (older : list BreadcrumbItem) (spans : list Span)
    (Hrender : renderContent truncateLength (cur :: older) = Children spans) :
  (forall span call,
     In span spans -> onClick span = Some call ->
     exists item, In item older
                  /\ call = match type item with
                            | page => OpenPage (uid item)
                            | block => OpenBlock (uid item)
                            end)
  /\ (forall item, In item older ->
        exists span, In span spans
                     /\ onClick span = Some (navigateTo (uid item) (type item)))
  /\ In (createBreadcrumbElement cur true truncateLength) spans
  /\ onClick (createBreadcrumbElement cur true truncateLength) = None
  /\ onClick createSeparatorElement = None.
Proof.
  rewrite renderContent_nonempty in Hrender. injection Hrender as <-.
  split; [|split; [|split; [|now split]]].
  - intros span call Hin Hclick.
    apply separated_In in Hin as [->|Hin]; [discriminate Hclick|].
    apply in_app_or in Hin as [Hin|[<-|[]]]; [|discriminate Hclick].
    apply in_map_iff in Hin as (item & <- & Hitem).
    exists item. split; [now apply in_rev|].
    cbn [onClick createBreadcrumbElement] in Hclick.
    injection Hclick as <-. unfold navigateTo. now destruct (type item).
  - intros item Hitem.
    exists (createBreadcrumbElement item false truncateLength). split; [|reflexivity].
    apply In_separated, in_or_app. left.
    apply in_map_iff. exists item. split; [reflexivity | now apply in_rev in Hitem].
  - apply In_separated, in_or_app. right. now left.
Qed.

Lemma clicks_open_earlier_entries_witness :
  let spans :=
    [createBreadcrumbElement (crumb block "b" "B") false (num_of_Z 25);
     createSeparatorElement;
     createBreadcrumbElement (crumb page "a" "A") true (num_of_Z 25)] in
  renderContent (num_of_Z 25) [crumb page "a" "A"; crumb block "b" "B"]
  = Children spans
  /\ exists span, In span spans /\ onClick span = Some (OpenBlock (js "b")).
Proof.
  cbv zeta.
  assert (H : renderContent (num_of_Z 25) [crumb page "a" "A"; crumb block "b" "B"]
              = Children
                  [createBreadcrumbElement (crumb block "b" "B") false (num_of_Z 25);
                   createSeparatorElement;
                   createBreadcrumbElement (crumb page "a" "A") true (num_of_Z 25)])
    by reflexivity.
  split; [exact H|].
  destruct (clicks_open_earlier_entries H) as (_ & Hall & _).
  apply (Hall (crumb block "b" "B")). now left.
Defined.

(** ** Mount point *)

Section Mount.

Lemma setPanelContent_has (c : Content) (l : list DomNode) :
  existsb is_panel (setPanelContent c l) = existsb is_panel l.
Proof.
  induction l as [|[c'|tag] l IH]; simpl; [reflexivity | reflexivity | exact IH].
Qed.

Lemma setPanelContent_twice (c1 c2 : Content) (l : list DomNode) :
  setPanelContent c2 (setPanelContent c1 l) = setPanelContent c2 l.
Proof.
  induction l as [|[c'|tag] l IH]; simpl; [reflexivity | reflexivity |].
  now rewrite IH.
Qed.

Lemma panelContent_set (c : Content) (l : list DomNode) :
  existsb is_panel l = true -> panelContent (setPanelContent c l) = Some c.
Proof.
  induction l as [|[c'|tag] l IH]; simpl; [discriminate | reflexivity | exact IH].
Qed.

Lemma setPanelContent_hosts (c : Content) (l : list DomNode) :
  filter (fun n => negb (is_panel n)) (setPanelContent c l)
  = filter (fun n => negb (is_panel n)) l.
Proof.
  induction l as [|[c'|tag] l IH]; simpl; [reflexivity | reflexivity |].
  now rewrite IH.
Qed.

Lemma removeFirstPanel_none (l : list DomNode) :
  existsb is_panel l = false -> removeFirstPanel l = l.
Proof.
  induction l as [|[c'|tag] l IH]; simpl; [reflexivity | discriminate |].
  intros H. now rewrite IH.
Qed.

Lemma getOrCreatePanel_cases (doc : Document) :
  match topbar doc with
  | None => getOrCreatePanel doc = (doc, false)
  | Some children =>
      exists children',
        getOrCreatePanel doc = ({| topbar := Some children' |}, true)
        /\ existsb is_panel children' = true
        /\ filter (fun n => negb (is_panel n)) children'
           = filter (fun n => negb (is_panel n)) children
        /\ (existsb is_panel children = true -> children' = children)
        /\ (existsb is_panel children = false ->
            removeFirstPanel children' = children)
  end.
Proof.
  destruct doc as [[children|]]; unfold getOrCreatePanel, hasPanel;
    cbn [topbar]; [|reflexivity].
  destruct (existsb is_panel children) eqn:E.
  - exists children. repeat split; auto. discriminate.
  - destruct children as [|a [|b rest]].
    + exists [PanelNode (Children [])]. repeat split; auto. discriminate.
    + exists [a; PanelNode (Children [])].
      destruct a as [c|tag]; [discriminate E|].
      repeat split; auto. discriminate.
    + exists (a :: PanelNode (Children []) :: b :: rest).
      destruct a as [c|tag]; [discriminate E|].
      repeat split; auto; discriminate.
Qed.

End Mount.

(** X22. Mounting is idempotent and leaves the host's elements alone:
    without a top bar [getOrCreatePanel] returns null and changes nothing;
    with one it returns a panel, a second call changes nothing more, and the
    other children of the top bar are what they were, in their order. *)
Theorem mount_is_idempotent (doc : Document) :
  getOrCreatePanel (fst (getOrCreatePanel doc)) = getOrCreatePanel doc
  /\ (topbar doc = None -> getOrCreatePanel doc = (doc, false))
  /\ (topbar doc <> None ->
      snd (getOrCreatePanel doc) = true
      /\ hasPanel (fst (getOrCreatePanel doc)) = true)
  /\ option_map (filter (fun n => negb (is_panel n)))
                (topbar (fst (getOrCreatePanel doc)))
     = option_map (filter (fun n => negb (is_panel n))) (topbar doc).
Proof.
  pose proof (getOrCreatePanel_cases doc) as H.
  destruct (topbar doc) as [children|] eqn:Et.
  - destruct H as (children' & E & Hhas & Hhosts & _).
    rewrite E. cbn [fst snd]. split; [|split; [|split]].
    + unfold getOrCreatePanel, hasPanel. cbn [topbar]. now rewrite Hhas.
    + discriminate.
    + intros _. split; [reflexivity|]. unfold hasPanel. cbn [topbar]. exact Hhas.
    + cbn [topbar option_map]. now rewrite Hhosts.
  - rewrite H. cbn [fst snd]. split; [|split; [|split]].
    + exact H.
    + reflexivity.
    + intros Hne. now contradiction Hne.
    + now rewrite Et.
Qed.

(** X23. Mounting and removing is a round trip: on a document without a
    panel, the panel that [getOrCreatePanel] puts in is the one [cleanup]
    removes, and the top bar is as it was. *)
Theorem mount_then_remove_restores (doc : Document)
    (Hfresh : hasPanel doc = false) :
  removePanel (fst (getOrCreatePanel doc)) = doc.
Proof.
  pose proof (getOrCreatePanel_cases doc) as H.
  destruct doc as [[children|]]; cbn [topbar] in H.
  - destruct H as (children' & E & _ & _ & _ & Hrem).
    rewrite E. unfold removePanel. cbn [fst topbar option_map].
    now rewrite (Hrem Hfresh).
  - now rewrite H.
Qed.

Lemma mount_then_remove_restores_witness :
  removePanel
    (fst (getOrCreatePanel {| topbar := Some [HostNode 1; HostNode 2; HostNode 3] |}))
  = {| topbar := Some [HostNode 1; HostNode 2; HostNode 3] |}
  /\ fst (getOrCreatePanel {| topbar := Some [HostNode 1; HostNode 2; HostNode 3] |})
     = {| topbar := Some [HostNode 1; PanelNode (Children []); HostNode 2;
                          HostNode 3] |}.
Proof.
  split; [|reflexivity].
  apply mount_then_remove_restores. reflexivity.
Defined.

(** X24. Rendering replaces, it does not add: without a top bar
    [renderBreadcrumbs] changes nothing; with one, the panel afterwards shows
    exactly the projection of the history it was given, the host's elements
    are untouched, and rendering again leaves only the later rendering. *)
Theorem render_replaces_content
    (truncateLength : number) (h1 h2 : list BreadcrumbItem) (doc : Document) :
  (topbar doc = None -> renderBreadcrumbs truncateLength h1 doc = doc)
  /\ (forall children,
        topbar doc = Some children ->
        exists children',
          renderBreadcrumbs truncateLength h1 doc = {| topbar := Some children' |}
          /\ panelContent children' = Some (renderContent truncateLength h1)
          /\ filter (fun n => negb (is_panel n)) children'
             = filter (fun n => negb (is_panel n)) children)
  /\ renderBreadcrumbs truncateLength h2 (renderBreadcrumbs truncateLength h1 doc)
     = renderBreadcrumbs truncateLength h2 doc.
Proof.
  pose proof (getOrCreatePanel_cases doc) as H.
  destruct doc as [[children|]]; cbn [topbar] in H.
  - destruct H as (children' & E & Hhas & Hhosts & _).
    assert (R : forall h,
              renderBreadcrumbs truncateLength h {| topbar := Some children |}
              = {| topbar := Some (setPanelContent
                                     (renderContent truncateLength h) children') |}).
    { intros h. unfold renderBreadcrumbs. now rewrite E. }
    split; [discriminate|]. split.
    + intros ? [= <-]. eexists. split; [apply R|]. split.
      * now apply panelContent_set.
      * now rewrite setPanelContent_hosts.
    + rewrite !R. unfold renderBreadcrumbs, getOrCreatePanel, hasPanel.
      cbn [topbar]. rewrite setPanelContent_has, Hhas.
      cbn [topbar option_map]. now rewrite setPanelContent_twice.
  - assert (R : forall h,
              renderBreadcrumbs truncateLength h {| topbar := None |}
              = {| topbar := None |}).
    { intros h. unfold renderBreadcrumbs. now rewrite H. }
    split; [intros _; apply R|]. split; [discriminate|].
    now rewrite !R.
Qed.

(* ================================================================== *)
(** * When a second pass changes nothing *)

Section Idempotence.

Lemma stripMarkdown_rules (text : str) :
  stripMarkdown text = trim (apply_rules strip_rules text).
Proof. reflexivity. Qed.

Lemma strip_rules_lowering : forallb lowering strip_rules = true.
Proof. vm_compute. reflexivity. Qed.

Lemma weight_app (a b : str) : weight (a ++ b) = weight a + weight b.
Proof. unfold weight. now rewrite map_app, list_sum_app. Qed.

Lemma weight_rev (s : str) : weight (rev s) = weight s.
Proof.
  induction s as [|c s IH]; [reflexivity|].
  simpl rev. rewrite weight_app, IH. unfold weight. simpl. lia.
Qed.

Lemma weight_split (n : nat) (s : str) :
  weight s = weight (firstn n s) + weight (skipn n s).
Proof. now rewrite <- weight_app, firstn_skipn. Qed.

Lemma weight_drop_while (s : str) :
  weight (drop_while is_white_space s) <= weight s.
Proof.
  induction s as [|c s IH]; simpl; [lia|].
  destruct (is_white_space c); [|lia].
  change (weight (c :: s)) with (char_weight c + weight s). lia.
Qed.

Lemma weight_trim (s : str) : weight (trim s) <= weight s.
Proof.
  unfold trim. rewrite weight_rev.
  etransitivity; [apply weight_drop_while|].
  rewrite weight_rev. apply weight_drop_while.
Qed.

(** What is left after a match is the end of the input. *)
Lemma matchp_left (r : pattern) :
  forall cap s cap' left,
    matchp r cap s = Some (cap', left) ->
    left = skipn (length s - length left) s /\ length left <= length s.
Proof.
  induction r as [|a r IH]; intros cap s cap' left Hm.
  - simpl in Hm. injection Hm as _ <-. rewrite Nat.sub_diag. now split.
  - destruct a as [x|g min cls capt].
    + simpl in Hm. destruct s as [|y s]; [discriminate|].
      destruct (y =? x)%N; [|discriminate].
      destruct (IH _ _ _ _ Hm) as [E Hlen]. split; [|cbn [length]; lia].
      replace (length (y :: s) - length left) with (S (length s - length left))
        by (cbn [length]; lia).
      exact E.
    + cbn [matchp] in Hm. apply first_some_Some in Hm as [n [Hn Hm]].
      apply candidates_In in Hn. pose proof (run_le_length cls s) as Hrun.
      destruct (IH _ _ _ _ Hm) as [E Hlen]. rewrite length_skipn in *.
      split; [|lia].
      rewrite skipn_skipn in E.
      replace (length s - length left) with (length s - n - length left + n) by lia.
      exact E.
Qed.

(** A match consumes the weight of its literals and of what group 1
    holds. *)
Lemma matchp_weight (r : pattern) :
  forall cap s cap' left,
    matchp r cap s = Some (cap', left) ->
    weight left + literal_weight r
    + (if has_group r then match cap' with Some u => weight u | None => 0 end
       else 0)
    <= weight s.
Proof.
  induction r as [|a r IH]; intros cap s cap' left Hm.
  - simpl in Hm. injection Hm as _ <-.
    unfold literal_weight, has_group. simpl. lia.
  - destruct a as [x|g min cls capt].
    + simpl in Hm. destruct s as [|y s]; [discriminate|].
      destruct (N.eqb_spec y x) as [->|]; [|discriminate].
      apply IH in Hm.
      change (literal_weight (Lit x :: r)) with (char_weight x + literal_weight r).
      change (has_group (Lit x :: r)) with (has_group r).
      change (weight (x :: s)) with (char_weight x + weight s). lia.
    + cbn [matchp] in Hm. apply first_some_Some in Hm as [n [Hn Hm]].
      pose proof (IH _ _ _ _ Hm) as Hw.
      pose proof (weight_split n s) as Hs.
      change (literal_weight (Rep g min cls capt :: r)) with (literal_weight r).
      change (has_group (Rep g min cls capt :: r)) with (capt || has_group r).
      destruct (has_group r) eqn:Hg.
      * rewrite orb_true_r. lia.
      * rewrite orb_false_r. destruct capt; [|lia].
        apply matchp_group in Hm as [[_ ->]|(g' & m & cls' & u & Hin & _)].
        -- lia.
        -- assert (Hg' : has_group r = true).
           { unfold has_group. apply existsb_exists.
             eexists. split; [exact Hin | reflexivity]. }
           congruence.
Qed.

Lemma expand_weight (t : template) (cap : option str) :
  weight (expand t cap)
  = template_weight t
    + template_groups t * match cap with Some u => weight u | None => 0 end.
Proof.
  unfold expand, template_weight, template_groups, list_sum.
  induction t as [|i t IH]; [reflexivity|].
  destruct i; cbn [flat_map map fold_right filter length];
    rewrite weight_app, IH; [lia|].
  destruct cap; change (weight []) with 0; lia.
Qed.

Variable rule : pattern * template.
Hypothesis rule_lowering : lowering rule = true.

(** At a match, the replacement and what follows weigh less than the
    text. *)
Lemma replace_at_match (c : N) (s : str) (cap : option str) (left : str) :
  matchp (fst rule) None (c :: s) = Some (cap, left) ->
  weight (expand (snd rule) cap) + weight left < weight (c :: s)
  /\ skipn (length (c :: s) - length left - 1) s = left.
Proof.
  intros Hm. pose proof rule_lowering as Hl.
  apply andb_true_iff in Hl as [Htext Hgroups].
  apply Nat.ltb_lt in Htext. apply Nat.leb_le in Hgroups.
  pose proof (matchp_weight _ _ _ Hm) as Hw.
  destruct (matchp_left _ _ _ Hm) as [E Hlen].
  rewrite expand_weight.
  assert (Hlt : template_weight (snd rule)
                + template_groups (snd rule)
                  * match cap with Some u => weight u | None => 0 end
                + weight left < weight (c :: s)).
  { destruct (has_group (fst rule)); nia. }
  split; [exact Hlt|].
  assert (Hne : length left < length (c :: s)).
  { destruct (Nat.eq_dec (length left) (length (c :: s))) as [Heq|]; [|lia].
    rewrite Heq, Nat.sub_diag in E. simpl skipn in E. subst left. lia. }
  remember (length (c :: s) - length left) as k eqn:Hk.
  destruct k as [|k]; [lia|].
  cbn [skipn] in E. now rewrite E, Nat.sub_succ, Nat.sub_0_r.
Qed.

Lemma replace_go_weight (s : str) :
  forall skip,
    weight (replace_go (fst rule) (snd rule) skip s) <= weight (skipn skip s).
Proof.
  induction s as [|c s IH]; intros skip.
  - destruct skip; simpl; lia.
  - cbn [replace_go]. destruct skip as [|k]; [|apply IH].
    destruct (matchp (fst rule) None (c :: s)) as [[cap left]|] eqn:E.
    + destruct (replace_at_match _ _ E) as [Hlt Hskip].
      specialize (IH (length (c :: s) - length left - 1)).
      rewrite Hskip in IH. rewrite weight_app. simpl skipn. lia.
    + specialize (IH 0). simpl skipn in *.
      change (weight (c :: replace_go (fst rule) (snd rule) 0 s))
        with (char_weight c + weight (replace_go (fst rule) (snd rule) 0 s)).
      change (weight (c :: s)) with (char_weight c + weight s). lia.
Qed.

Lemma apply_rule_weight (s : str) : weight (apply_rule s rule) <= weight s.
Proof. apply (replace_go_weight s 0). Qed.

(** Where the pattern matches, the replacement lowers the weight. *)
Lemma apply_rule_lowers (s : str) :
  occurs (fst rule) s = true -> weight (apply_rule s rule) < weight s.
Proof.
  unfold occurs, apply_rule, replace_all.
  induction s as [|c s IH]; intros Hocc.
  - simpl in Hocc.
    destruct (matchp (fst rule) None []) as [[cap left]|] eqn:E;
      [|discriminate].
    exfalso. pose proof (matchp_weight _ _ _ E) as Hw.
    pose proof rule_lowering as Hl. apply andb_true_iff in Hl as [Htext _].
    apply Nat.ltb_lt in Htext. change (weight []) with 0 in Hw. lia.
  - rewrite search_cons in Hocc. cbn [replace_go].
    destruct (matchp (fst rule) None (c :: s)) as [[cap left]|] eqn:E.
    + destruct (replace_at_match _ _ E) as [Hlt Hskip].
      pose proof (replace_go_weight s (length (c :: s) - length left - 1)) as H.
      rewrite Hskip in H. rewrite weight_app. lia.
    + specialize (IH Hocc).
      change (weight (c :: replace_go (fst rule) (snd rule) 0 s))
        with (char_weight c + weight (replace_go (fst rule) (snd rule) 0 s)).
      change (weight (c :: s)) with (char_weight c + weight s). lia.
Qed.

End Idempotence.

Lemma apply_rule_fixed (rule : pattern * template) (s : str) :
  occurs (fst rule) s = false -> apply_rule s rule = s.
Proof.
  unfold occurs, apply_rule, replace_all.
  induction s as [|c s IH]; intros Hocc; [reflexivity|].
  rewrite search_cons in Hocc. cbn [replace_go].
  destruct (matchp (fst rule) None (c :: s)) as [[cap left]|]; [discriminate|].
  f_equal. now apply IH.
Qed.

Lemma apply_rules_weight (rules : list (pattern * template)) :
  forallb lowering rules = true ->
  forall s, weight (apply_rules rules s) <= weight s.
Proof.
  unfold apply_rules. induction rules as [|rule rules IH]; intros Hl s;
    [simpl; lia|].
  simpl in Hl. apply andb_true_iff in Hl as [Hr Hl]. simpl.
  etransitivity; [apply (IH Hl)|]. now apply apply_rule_weight.
Qed.

(** The first pattern of the chain that matches in [s] meets [s] itself,
    and lowers the weight for good. *)
Lemma apply_rules_lowers (rules : list (pattern * template)) :
  forallb lowering rules = true ->
  forall s,
    forallb (fun rule => negb (occurs (fst rule) s)) rules = false ->
    weight (apply_rules rules s) < weight s.
Proof.
  unfold apply_rules. induction rules as [|rule rules IH]; intros Hl s Hocc;
    [discriminate|].
  simpl in Hl. apply andb_true_iff in Hl as [Hr Hl]. simpl in Hocc. simpl.
  destruct (occurs (fst rule) s) eqn:E.
  - eapply Nat.le_lt_trans; [apply (apply_rules_weight _ Hl)|].
    now apply apply_rule_lowers.
  - rewrite (apply_rule_fixed _ _ E). now apply IH.
Qed.

Lemma apply_rules_fixed (rules : list (pattern * template)) (s : str) :
  forallb (fun rule => negb (occurs (fst rule) s)) rules = true ->
  apply_rules rules s = s.
Proof.
  unfold apply_rules. induction rules as [|rule rules IH]; intros H;
    [reflexivity|].
  simpl in H. apply andb_true_iff in H as [Hr H]. apply negb_true_iff in Hr.
  simpl. rewrite (apply_rule_fixed _ _ Hr). now apply IH.
Qed.

(** C5, as the code has it.  A second pass of stripMarkdown leaves the
    output of the first as it is exactly when none of the thirteen patterns
    still matches in that output: with no match left every replacement copies
    the text and it is already trimmed; with a match left the first such
    replacement removes or shortens something and nothing later puts it
    back. *)
Theorem stripMarkdown_idempotent_iff_no_construct_left (x : str) :
  stripMarkdown (stripMarkdown x) = stripMarkdown x
  <-> construct_free (stripMarkdown x) = true.
Proof.
  set (y := stripMarkdown x). split.
  - intros Hfix. destruct (construct_free y) eqn:E; [reflexivity|].
    exfalso.
    pose proof (apply_rules_lowers _ strip_rules_lowering y E) as Hlow.
    pose proof (weight_trim (apply_rules strip_rules y)) as Htrim.
    rewrite <- stripMarkdown_rules, Hfix in Htrim. lia.
  - intros Hfree. rewrite stripMarkdown_rules.
    rewrite (apply_rules_fixed _ _ Hfree).
    apply stripMarkdown_trimmed.
Qed.

(** Outputs that hold markup characters and no construct: the placeholders
    the code writes itself, and brackets in plain prose. *)
Lemma construct_free_examples :
  construct_free (js "[code]") = true
  /\ construct_free (js "[img]") = true
  /\ construct_free (js "Meeting (Monday)") = true
  /\ stripMarkdown (js "```let x```") = js "[code]"
  /\ stripMarkdown (js "[code]") = js "[code]"
  /\ construct_free (js "*a*") = false.
Proof. repeat split; vm_compute; reflexivity. Qed.

(* ================================================================== *)
(** * The location resolver, by the shape of the signal *)

Section ResolverShape.

Lemma run_stop (cls : N -> bool) (s : str) :
  match skipn (run cls s) s with
  | c :: _ => cls c = false
  | [] => True
  end.
Proof.
  induction s as [|c s IH]; simpl; [exact I|].
  destruct (cls c) eqn:E; [exact IH | exact E].
Qed.

Lemma run_prefix (cls : N -> bool) (q t : str) :
  forallb cls q = true -> length q <= run cls (q ++ t).
Proof.
  induction q as [|c q IH]; simpl; intros H; [lia|].
  apply andb_true_iff in H as [-> H]. specialize (IH H). lia.
Qed.

(** A captured [(x+)] at the end of a pattern takes the longest run, and
    needs one of at least one code unit. *)
Lemma group_eval (cls : N -> bool) (cap : option str) (s : str) :
  matchp [group_plus cls] cap s
  = if 1 <=? run cls s
    then Some (Some (firstn (run cls s) s), skipn (run cls s) s)
    else None.
Proof.
  cbn [matchp group_plus]. unfold candidates.
  destruct (run cls s) as [|k]; [reflexivity|].
  replace (S (S k) - 1) with (S k) by lia.
  rewrite seq_S, rev_app_distr. reflexivity.
Qed.

Lemma first_some_exists (A B : Type) (f : A -> option B) (l : list A)
    (a : A) (b : B) :
  In a l -> f a = Some b -> exists b', first_some f l = Some b'.
Proof.
  induction l as [|x l IH]; intros Hin Hb; [contradiction|].
  simpl. destruct (f x) as [b'|] eqn:E; [now exists b'|].
  destruct Hin as [->|Hin]; [congruence | now apply IH].
Qed.

Lemma search_exists (r : pattern) (s' : str) (res : option str * str) :
  matchp r None s' = Some res ->
  forall before, exists cap, search r (before ++ s') = Some cap.
Proof.
  intros Hm. induction before as [|x before [cap IH]].
  - destruct res as [cap left]. exists cap. now apply search_here with left.
  - change ((x :: before) ++ s') with (x :: before ++ s').
    rewrite search_cons.
    destruct (matchp r None (x :: before ++ s')) as [[c left]|];
      [now exists c | now exists cap].
Qed.

(** [search] returns the leftmost match. *)
Lemma search_leftmost (r : pattern) (s : str) (cap : option str) :
  search r s = Some cap ->
  exists before s' left,
    s = before ++ s'
    /\ matchp r None s' = Some (cap, left)
    /\ forall n, n < length before -> matchp r None (skipn n s) = None.
Proof.
  induction s as [|x s IH].
  - simpl. destruct (matchp r None []) as [[c left]|] eqn:E; [|discriminate].
    intros [= <-]. exists [], [], left. repeat split; auto.
    intros n Hn. simpl in Hn. lia.
  - rewrite search_cons.
    destruct (matchp r None (x :: s)) as [[c left]|] eqn:E.
    + intros [= <-]. exists [], (x :: s), left. repeat split; auto.
      intros n Hn. simpl in Hn. lia.
    + intros H. destruct (IH H) as (before & s' & left & -> & Hm & Hnone).
      exists (x :: before), s', left. repeat split; auto.
      intros [|n] Hn; [exact E|]. apply Hnone. simpl in Hn. lia.
Qed.

(** What a match of the block pattern spans. *)
Lemma block_re_spans (s : str) (cap : option str) (left : str) :
  matchp block_re None s = Some (cap, left) ->
  exists p q u,
    s = js "/page/" ++ p ++ js "?" ++ q ++ js "block=" ++ u ++ left
    /\ p <> [] /\ forallb (not_char "?") p = true
    /\ one_line q = true
    /\ cap = Some u /\ u <> [] /\ forallb is_uid_char u = true
    /\ not_uid_start left = true.
Proof.
  change block_re with
    (map Lit (js "/page/")
     ++ plus (not_char "?") :: map Lit (js "?") ++ star dot
        :: map Lit (js "block=") ++ [group_plus is_uid_char]).
  intros Hm. apply matchp_lits_inv in Hm as [s1 [-> Hm]].
  cbn [matchp plus] in Hm. apply first_some_Some in Hm as [n [Hn Hm]].
  apply candidates_In in Hn.
  apply matchp_lits_inv in Hm as [s2 [Hs2 Hm]].
  cbn [matchp star] in Hm. apply first_some_Some in Hm as [m [Hm' Hm]].
  apply candidates_In in Hm'.
  apply matchp_lits_inv in Hm as [s3 [Hs3 Hm]].
  rewrite group_eval in Hm.
  destruct (Nat.leb_spec 1 (run is_uid_char s3)) as [Hrun|]; [|discriminate].
  injection Hm as <- <-.
  destruct (@run_firstn (not_char "?") s1 n) as [Hp Hplen]; [lia|].
  destruct (@run_firstn dot s2 m) as [Hq _]; [lia|].
  destruct (@run_firstn is_uid_char s3 (run is_uid_char s3)) as [Hu Hulen];
    [lia|].
  exists (firstn n s1), (firstn m s2), (firstn (run is_uid_char s3) s3).
  repeat split.
  - rewrite firstn_skipn, <- Hs3, firstn_skipn, <- Hs2, firstn_skipn.
    reflexivity.
  - intros E. rewrite E in Hplen. simpl in Hplen. lia.
  - exact Hp.
  - exact Hq.
  - intros E. rewrite E in Hulen. simpl in Hulen. lia.
  - exact Hu.
  - pose proof (run_stop is_uid_char s3) as Hstop. unfold not_uid_start.
    destruct (skipn (run is_uid_char s3) s3); [reflexivity|].
    now rewrite Hstop.
Qed.

(** Where the signal has the block form, the block pattern matches. *)
Lemma block_shape_matches (hash : str) :
  block_shape hash -> exists cap, search block_re hash = Some cap.
Proof.
  intros (pre & p & q & u & rest & -> & Hp & Hp' & Hq & Hu & Hu').
  assert (Hgroup : exists res,
            matchp block_param_re None (js "block=" ++ u ++ rest) = Some res).
  { unfold block_param_re, lits. rewrite matchp_lits_app, group_eval.
    pose proof (run_prefix is_uid_char u rest Hu') as Hrun.
    destruct (Nat.leb_spec 1 (run is_uid_char (u ++ rest))) as [_|Hlt].
    - eexists. reflexivity.
    - destruct u; [contradiction | cbn [length] in Hrun; lia]. }
  destruct Hgroup as [res0 Hgroup].
  assert (Htail : exists res,
            matchp (star dot :: block_param_re) None
                   (q ++ js "block=" ++ u ++ rest) = Some res).
  { cbn [matchp star].
    apply first_some_exists with (a := length q) (b := res0).
    - apply candidates_In. split; [lia|]. now apply run_prefix.
    - now rewrite skipn_app, skipn_all, Nat.sub_diag. }
  destruct Htail as [res Htail].
  apply search_exists with (res := res).
  now apply block_re_front.
Qed.

Lemma page_at_matches (s : str) :
  page_param_at s = true -> exists res, matchp page_re None s = Some res.
Proof.
  unfold page_param_at. intros H. apply andb_true_iff in H as [Hpre Hid].
  apply is_prefix_true in Hpre as [s' ->].
  change (skipn 6 (js "/page/" ++ s')) with s' in Hid.
  change page_re with (map Lit (js "/page/") ++ [group_plus is_uid_char]).
  rewrite matchp_lits_app, group_eval.
  destruct s' as [|c t]; [discriminate|]. simpl run. rewrite Hid.
  eexists. reflexivity.
Qed.

(** The page form, resolved. *)
Lemma page_form_resolves (pre id rest : str) :
  id <> [] -> forallb is_uid_char id = true -> not_uid_start rest = true ->
  (forall n, n < length pre ->
     page_param_at (skipn n (pre ++ js "/page/" ++ id ++ rest)) = false) ->
  search block_re (pre ++ js "/page/" ++ id ++ rest) = None ->
  getLocationFromHash (pre ++ js "/page/" ++ id ++ rest)
  = Some (mkLocation page id).
Proof.
  intros Hid Hid' Hrest Hfirst Hblock.
  assert (Hp : search page_re (pre ++ js "/page/" ++ id ++ rest) = Some (Some id)).
  { clear Hblock. induction pre as [|x pre IH].
    - apply search_here with (left := rest).
      change page_re with (map Lit (js "/page/") ++ [group_plus is_uid_char]).
      change ([] ++ js "/page/" ++ id ++ rest) with (js "/page/" ++ id ++ rest).
      rewrite matchp_lits_app. now apply group_takes_run.
    - change ((x :: pre) ++ js "/page/" ++ id ++ rest)
        with (x :: pre ++ js "/page/" ++ id ++ rest) in *.
      rewrite search_cons, page_re_fails.
      + apply IH. intros n Hn. apply (Hfirst (S n)). simpl. lia.
      + apply (Hfirst 0). simpl. lia. }
  unfold getLocationFromHash. rewrite Hblock, Hp. simpl.
  destruct id; [contradiction | reflexivity].
Qed.

Lemma no_page_text_resolves (hash : str) :
  any_suffix (is_prefix (js "/page/")) hash = false ->
  getLocationFromHash hash = None.
Proof.
  intros Hno.
  assert (H : forall r, search (map Lit (js "/page/") ++ r) hash = None).
  { intros r. apply search_None. intros before s' Hs.
    apply matchp_needs_prefix.
    rewrite Hs in Hno. apply any_suffix_app in Hno.
    apply (any_suffix_skipn _ _ Hno 0). }
  unfold getLocationFromHash.
  change block_re with
    (map Lit (js "/page/")
     ++ plus (not_char "?") :: map Lit (js "?") ++ star dot :: block_param_re).
  change page_re with (map Lit (js "/page/") ++ [group_plus is_uid_char]).
  now rewrite !H.
Qed.

End ResolverShape.

Lemma any_suffix_true (f : str -> bool) (s : str) :
  any_suffix f s = true -> exists n, f (skipn n s) = true.
Proof.
  induction s as [|x s IH]; simpl; intros H.
  - rewrite orb_false_r in H. now exists 0.
  - apply orb_true_iff in H as [H|H]; [now exists 0|].
    destruct (IH H) as [n Hn]. now exists (S n).
Qed.

(** The three outcomes of the resolver, by the two searches. *)
Lemma resolver_cases (hash : str) :
  (exists c u, search block_re hash = Some (Some (c :: u))
               /\ getLocationFromHash hash = Some (mkLocation block (c :: u)))
  \/ (search block_re hash = None
      /\ ((exists c u, search page_re hash = Some (Some (c :: u))
                       /\ getLocationFromHash hash
                          = Some (mkLocation page (c :: u)))
          \/ (search page_re hash = None
              /\ getLocationFromHash hash = None))).
Proof.
  unfold getLocationFromHash.
  destruct (search block_re hash) as [cap|] eqn:Hb.
  - left. destruct (@uid_captured block_re hash cap) as (c & u & -> & _); auto.
    exists c, u. now split.
  - right. split; [reflexivity|].
    destruct (search page_re hash) as [cap|] eqn:Hp.
    + left. destruct (@uid_captured page_re hash cap) as (c & u & -> & _); auto.
      exists c, u. now split.
    + right. now split.
Qed.

(** The block pattern matches somewhere exactly in the signals of the block
    form. *)
Lemma block_search_spans (hash : str) (cap : option str) :
  search block_re hash = Some cap ->
  exists pre p q u rest,
    hash = pre ++ js "/page/" ++ p ++ js "?" ++ q ++ js "block=" ++ u ++ rest
    /\ p <> [] /\ forallb (not_char "?") p = true
    /\ one_line q = true
    /\ cap = Some u /\ u <> [] /\ forallb is_uid_char u = true
    /\ not_uid_start rest = true.
Proof.
  intros H. apply search_leftmost in H as (before & s' & left & -> & Hm & _).
  apply block_re_spans in Hm as (p & q & u & -> & Hrest).
  now exists before, p, q, u, left.
Qed.

(** The page pattern matches at the leftmost /page/ that an identifier
    follows, and captures the whole run of identifier characters there. *)
Lemma page_search_spans (hash : str) (cap : option str) :
  search page_re hash = Some cap ->
  exists pre u rest,
    hash = pre ++ js "/page/" ++ u ++ rest
    /\ cap = Some u /\ u <> [] /\ forallb is_uid_char u = true
    /\ not_uid_start rest = true
    /\ forall n, n < length pre -> page_param_at (skipn n hash) = false.
Proof.
  intros H. apply search_leftmost in H as (before & s' & left & -> & Hm & Hl).
  change page_re with (map Lit (js "/page/") ++ [group_plus is_uid_char]) in Hm.
  apply matchp_lits_inv in Hm as [s1 [-> Hm]].
  rewrite group_eval in Hm.
  destruct (Nat.leb_spec 1 (run is_uid_char s1)) as [Hrun|]; [|discriminate].
  injection Hm as <- <-.
  destruct (@run_firstn is_uid_char s1 (run is_uid_char s1)) as [Hu Hulen];
    [lia|].
  exists before, (firstn (run is_uid_char s1) s1),
    (skipn (run is_uid_char s1) s1).
  repeat split.
  - now rewrite firstn_skipn.
  - intros E. rewrite E in Hulen. simpl in Hulen. lia.
  - exact Hu.
  - pose proof (run_stop is_uid_char s1) as Hstop. unfold not_uid_start.
    destruct (skipn (run is_uid_char s1) s1); [reflexivity|].
    now rewrite Hstop.
  - intros n Hn.
    destruct (page_param_at (skipn n (before ++ js "/page/" ++ s1))) eqn:E;
      [|reflexivity].
    apply page_at_matches in E as [res E].
    change (map Lit (js "/page/") ++ [group_plus is_uid_char]) with page_re in Hl.
    rewrite (Hl n Hn) in E. discriminate.
Qed.

Lemma page_search_None (hash : str) :
  search page_re hash = None <-> any_suffix page_param_at hash = false.
Proof.
  split.
  - intros H. destruct (any_suffix page_param_at hash) eqn:E; [|reflexivity].
    apply any_suffix_true in E as [n E].
    apply page_at_matches in E as [res E].
    destruct (@search_exists _ _ _ E (firstn n hash)) as [cap Hcap].
    rewrite firstn_skipn in Hcap. congruence.
  - intros H. apply search_None. intros before s' ->.
    apply page_re_fails. apply any_suffix_app in H.
    apply (any_suffix_skipn _ _ H 0).
Qed.

Lemma block_search_shape (hash : str) :
  (exists cap, search block_re hash = Some cap) <-> block_shape hash.
Proof.
  split.
  - intros [cap H].
    apply block_search_spans in H
      as (pre & p & q & u & rest & E & Hp & Hp' & Hq & _ & Hu & Hu' & _).
    now exists pre, p, q, u, rest.
  - apply block_shape_matches.
Qed.

(** The signal does not resolve to a page as the form ".../search" is said
    to, nor always to the page a form ".../page/abc123" ends with: the page
    pattern takes the leftmost /page/ that an identifier follows. *)
Lemma search_form_resolves_to_page :
  getLocationFromHash (js "#/app/page/search")
  = Some (mkLocation page (js "search"))
  /\ getLocationFromHash (js "#/app/page/search") <> None
  /\ getLocationFromHash (js "#/app/page/zzz/page/abc123")
     = Some (mkLocation page (js "zzz"))
  /\ getLocationFromHash (js "#/app/page/zzz/page/abc123")
     <> Some (mkLocation page (js "abc123")).
Proof.
  repeat split; try (vm_compute; reflexivity); vm_compute; discriminate.
Qed.

(** C7, as the code has it.  The resolver is a function of the signal, and
    its three outcomes are fixed by the text of the signal alone.
    - It yields a block location exactly when the signal has the block form:
      /page/, one or more characters other than a question mark, a question
      mark, and later on the same line block= with an identifier character
      after it; the id is then a whole run of [a-zA-Z0-9_-] that follows
      such a block=.
    - Otherwise it yields a page location exactly when some /page/ is
      followed by an identifier character; the id is the whole run of
      [a-zA-Z0-9_-] after the leftmost such /page/.
    - Otherwise it yields None.
    For the three forms of the specification this gives: every one-line
    signal ".../page/abc123?...block=xyz789" resolves to the block xyz789;
    a signal ".../page/abc123" resolves to the page abc123 when its front
    part holds no question mark and no earlier /page/ with an identifier;
    a signal ".../search" resolves to None when the text /page/ does not
    occur in it. *)
Theorem location_resolver_by_shape :
  (forall hash u,
     getLocationFromHash hash = Some (mkLocation block u) ->
     exists pre p q rest,
       hash = pre ++ js "/page/" ++ p ++ js "?" ++ q ++ js "block=" ++ u ++ rest
       /\ p <> [] /\ forallb (not_char "?") p = true
       /\ one_line q = true
       /\ u <> [] /\ forallb is_uid_char u = true
       /\ not_uid_start rest = true)
  /\ (forall hash u,
        getLocationFromHash hash = Some (mkLocation page u) ->
        ~ block_shape hash
        /\ exists pre rest,
             hash = pre ++ js "/page/" ++ u ++ rest
             /\ u <> [] /\ forallb is_uid_char u = true
             /\ not_uid_start rest = true
             /\ forall n, n < length pre ->
                  page_param_at (skipn n hash) = false)
  /\ (forall hash,
        getLocationFromHash hash = None ->
        ~ block_shape hash /\ any_suffix page_param_at hash = false)
  /\ (forall hash,
        block_shape hash ->
        exists u, getLocationFromHash hash = Some (mkLocation block u))
  /\ (forall hash,
        ~ block_shape hash -> any_suffix page_param_at hash = true ->
        exists u, getLocationFromHash hash = Some (mkLocation page u))
  /\ (forall hash,
        ~ block_shape hash -> any_suffix page_param_at hash = false ->
        getLocationFromHash hash = None)
  /\ (forall pre mid,
        one_line (pre ++ js "/page/abc123?" ++ mid ++ js "block=xyz789") = true ->
        getLocationFromHash (pre ++ js "/page/abc123?" ++ mid ++ js "block=xyz789")
        = Some (mkLocation block (js "xyz789")))
  /\ (forall pre,
        ~ In (ch "?") pre ->
        (forall n, n < length pre ->
           page_param_at (skipn n (pre ++ js "/page/abc123")) = false) ->
        getLocationFromHash (pre ++ js "/page/abc123")
        = Some (mkLocation page (js "abc123")))
  /\ (forall pre,
        any_suffix (is_prefix (js "/page/")) (pre ++ js "/search") = false ->
        getLocationFromHash (pre ++ js "/search") = None).
Proof.
  split; [|split; [|split; [|split; [|split; [|split; [|split; [|split]]]]]]].
  - intros hash u H.
    destruct (resolver_cases hash)
      as [(c & u0 & Hb & E) | [_ [(c & u0 & _ & E) | [_ E]]]];
      rewrite E in H; try discriminate.
    injection H as <-.
    apply block_search_spans in Hb
      as (pre & p & q & u' & rest & Eh & Hp & Hp' & Hq & [= <-] & Hrest).
    now exists pre, p, q, rest.
  - intros hash u H.
    destruct (resolver_cases hash)
      as [(c & u0 & _ & E) | [Hb [(c & u0 & Hp & E) | [_ E]]]];
      rewrite E in H; try discriminate.
    injection H as <-. split.
    + intros Hs. apply block_search_shape in Hs as [cap Hs]. congruence.
    + apply page_search_spans in Hp
        as (pre & u' & rest & Eh & [= <-] & Hrest).
      now exists pre, rest.
  - intros hash H.
    destruct (resolver_cases hash)
      as [(c & u0 & _ & E) | [Hb [(c & u0 & _ & E) | [Hp _]]]];
      try (rewrite E in H; discriminate).
    split.
    + intros Hs. apply block_search_shape in Hs as [cap Hs]. congruence.
    + now apply page_search_None.
  - intros hash Hs. apply block_search_shape in Hs as [cap Hs].
    destruct (resolver_cases hash) as [(c & u0 & _ & E) | [Hb _]];
      [now exists (c :: u0) | congruence].
  - intros hash Hs Hp.
    destruct (resolver_cases hash)
      as [(c & u0 & Hb & _) | [_ [(c & u0 & _ & E) | [Hn _]]]].
    + exfalso. apply Hs. apply block_search_shape. eauto.
    + now exists (c :: u0).
    + apply page_search_None in Hn. congruence.
  - intros hash Hs Hp.
    destruct (resolver_cases hash)
      as [(c & u0 & Hb & _) | [_ [(c & u0 & Hq & _) | [_ E]]]].
    + exfalso. apply Hs. apply block_search_shape. eauto.
    + apply page_search_None in Hp. congruence.
    + exact E.
  - intros pre mid Hline.
    apply (@resolver_takes_last_param (js "xyz789") []
             ltac:(discriminate) eq_refl eq_refl eq_refl
             (js "abc123") mid ltac:(discriminate) eq_refl pre).
    exact Hline.
  - intros pre Hq Hfirst.
    apply (@page_form_resolves pre (js "abc123") []);
      try reflexivity; try discriminate; try exact Hfirst.
    apply block_re_needs. left. intros Hin.
    apply in_app_or in Hin as [Hin|Hin]; [now apply Hq|].
    vm_compute in Hin. intuition discriminate.
  - intros pre. apply no_page_text_resolves.
Qed.

Lemma location_resolver_by_shape_witness :
  getLocationFromHash (js "#/app/g/page/abc123?x=1&block=xyz789")
  = Some (mkLocation block (js "xyz789"))
  /\ getLocationFromHash (js "#/app/g/page/abc123")
     = Some (mkLocation page (js "abc123"))
  /\ getLocationFromHash (js "#/app/g/search") = None.
Proof.
  destruct location_resolver_by_shape
    as (_ & _ & _ & _ & _ & _ & Hb & Hp & Hn).
  split; [|split].
  - apply (Hb (js "#/app/g") (js "x=1&")). vm_compute. reflexivity.
  - apply (Hp (js "#/app/g")).
    + vm_compute. intuition discriminate.
    + intros n Hn'. simpl in Hn'.
      do 7 (destruct n as [|n]; [reflexivity|]). lia.
  - apply (Hn (js "#/app/g")). vm_compute. reflexivity.
Defined.

(* ================================================================== *)
(** * Overlapping runs of the controller *)

Section Overlap.

Variable settings : ExtensionSettings.

Lemma handleNavigation_resumes (hash : str) (location : Location) (st : GState) :
  getLocationFromHash hash = Some location ->
  same_uid (currentLocation st) location = false ->
  handleNavigation settings hash st
  = resume (getBreadcrumbItemByUid (loc_uid location))
           (commit_resolution settings location) st.
Proof.
  intros H1 H2. unfold handleNavigation. rewrite H1, H2. reflexivity.
Qed.

Lemma getBreadcrumbItemByUid_awaits (u : str) :
  exists k, getBreadcrumbItemByUid u = Await (PageTitleQuery u) k.
Proof. eexists. reflexivity. Qed.

Lemma last_cons (A : Type) (x d : A) (l : list A) :
  l <> [] -> last (x :: l) d = last l d.
Proof. destruct l; [contradiction | reflexivity]. Qed.

Lemma last_handler_cons (ev : Event) (evs : list Event) :
  evs <> [] -> last_handler (ev :: evs) = last_handler evs.
Proof. intros H. unfold last_handler. now rewrite last_cons. Qed.

Lemma completes_await_nonempty (A : Type) (q : Query) (k : QueryResult -> Async A)
    (rs : list QueryResult) (a : A) :
  completes (Await q k) rs = Some a -> rs <> [].
Proof. destruct rs; [discriminate | discriminate]. Qed.

Lemma completes_ret (A : Type) (a b : A) (rs : list QueryResult) :
  completes (Ret a) rs = Some b -> rs = [] /\ a = b.
Proof. destruct rs; simpl; [intros [= ->]; auto | discriminate]. Qed.

Lemma answers_none (evs : list Event) :
  answers_only evs = true ->
  answers_to 0 evs = [] -> answers_to 1 evs = [] -> evs = [].
Proof.
  destruct evs as [|[h|[|[|j]] r] evs]; simpl; try discriminate; auto.
Qed.

Lemma answers_nonempty (i : nat) (evs : list Event) :
  answers_to i evs <> [] -> evs <> [].
Proof. destruct evs; [intros H; now contradict H | discriminate]. Qed.

Variable A : Type.

(** One handler is still waiting and receives all the answers. *)
Lemma second_alone (cB : A -> GState -> GState) (evs : list Event) :
  forall (t0 : Task) (qb : Query) (kb : QueryResult -> Async A)
         (g : GState) (b : A),
    answers_only evs = true ->
    answers_to 0 evs = [] ->
    completes (Await qb kb) (answers_to 1 evs) = Some b ->
    globals (run_events settings
               {| globals := g;
                  handlers := [t0; Awaiting qb (fun r st => resume (kb r) cB st)] |}
               evs)
    = cB b g
    /\ last_handler evs = Some 1.
Proof.
  induction evs as [|ev evs IH]; intros t0 qb kb g b Honly H0 Hb;
    [discriminate|].
  destruct ev as [h|[|[|j]] r]; try discriminate.
  cbn [answers_only forallb] in Honly.
  change (forallb _ evs) with (answers_only evs) in Honly.
  cbn [Nat.ltb Nat.leb andb] in Honly.
  cbn [answers_to Nat.eqb] in H0, Hb. cbn [completes] in Hb.
  unfold run_events. cbn [fold_left step nth_error handlers globals].
  destruct (kb r) as [b'|q' k'] eqn:E; cbn [resume set_nth].
  - apply completes_ret in Hb as [Hnil ->].
    rewrite (answers_none evs Honly H0 Hnil). split; reflexivity.
  - destruct (IH t0 q' k' g b Honly H0 Hb) as [IH1 IH2]. split.
    + exact IH1.
    + rewrite last_handler_cons; [exact IH2|].
      apply answers_nonempty with (i := 1).
      now apply completes_await_nonempty in Hb.
Qed.

Lemma first_alone (cA : A -> GState -> GState) (evs : list Event) :
  forall (t1 : Task) (qa : Query) (ka : QueryResult -> Async A)
         (g : GState) (a : A),
    answers_only evs = true ->
    answers_to 1 evs = [] ->
    completes (Await qa ka) (answers_to 0 evs) = Some a ->
    globals (run_events settings
               {| globals := g;
                  handlers := [Awaiting qa (fun r st => resume (ka r) cA st); t1] |}
               evs)
    = cA a g
    /\ last_handler evs = Some 0.
Proof.
  induction evs as [|ev evs IH]; intros t1 qa ka g a Honly H1 Ha;
    [discriminate|].
  destruct ev as [h|[|[|j]] r]; try discriminate.
  cbn [answers_only forallb] in Honly.
  change (forallb _ evs) with (answers_only evs) in Honly.
  cbn [Nat.ltb Nat.leb andb] in Honly.
  cbn [answers_to Nat.eqb] in H1, Ha. cbn [completes] in Ha.
  unfold run_events. cbn [fold_left step nth_error handlers globals].
  destruct (ka r) as [a'|q' k'] eqn:E; cbn [resume set_nth].
  - apply completes_ret in Ha as [Hnil ->].
    rewrite (answers_none evs Honly Hnil H1). split; reflexivity.
  - destruct (IH t1 q' k' g a Honly H1 Ha) as [IH1 IH2]. split.
    + exact IH1.
    + rewrite last_handler_cons; [exact IH2|].
      apply answers_nonempty with (i := 0).
      now apply completes_await_nonempty in Ha.
Qed.

(** Two handlers are waiting; their answers arrive in any order. *)
Lemma two_waiting (cA cB : A -> GState -> GState) (evs : list Event) :
  forall (qa qb : Query) (ka kb : QueryResult -> Async A) (g : GState) (a b : A),
    answers_only evs = true ->
    completes (Await qa ka) (answers_to 0 evs) = Some a ->
    completes (Await qb kb) (answers_to 1 evs) = Some b ->
    globals (run_events settings
               {| globals := g;
                  handlers := [Awaiting qa (fun r st => resume (ka r) cA st);
                               Awaiting qb (fun r st => resume (kb r) cB st)] |}
               evs)
    = match last_handler evs with
      | Some 0 => cA a (cB b g)
      | _ => cB b (cA a g)
      end.
Proof.
  induction evs as [|ev evs IH]; intros qa qb ka kb g a b Honly Ha Hb;
    [discriminate|].
  destruct ev as [h|[|[|j]] r]; try discriminate.
  - cbn [answers_only forallb] in Honly.
    change (forallb _ evs) with (answers_only evs) in Honly.
    cbn [Nat.ltb Nat.leb andb] in Honly.
    cbn [answers_to Nat.eqb] in Ha, Hb. cbn [completes] in Ha.
    assert (Hne : evs <> []).
    { apply answers_nonempty with (i := 1).
      now apply completes_await_nonempty in Hb. }
    rewrite (last_handler_cons _ Hne).
    unfold run_events. cbn [fold_left step nth_error handlers globals].
    destruct (ka r) as [a'|q' k'] eqn:E; cbn [resume set_nth].
    + apply completes_ret in Ha as [Hnil ->].
      destruct (@second_alone cB evs Finished qb kb (cA a g) b Honly Hnil Hb)
        as [H1 H2].
      rewrite H2. exact H1.
    + apply (IH q' qb k' kb g a b Honly Ha Hb).
  - cbn [answers_only forallb] in Honly.
    change (forallb _ evs) with (answers_only evs) in Honly.
    cbn [Nat.ltb Nat.leb andb] in Honly.
    cbn [answers_to Nat.eqb] in Ha, Hb. cbn [completes] in Hb.
    assert (Hne : evs <> []).
    { apply answers_nonempty with (i := 0).
      now apply completes_await_nonempty in Ha. }
    rewrite (last_handler_cons _ Hne).
    unfold run_events. cbn [fold_left step nth_error handlers globals].
    destruct (kb r) as [b'|q' k'] eqn:E; cbn [resume set_nth].
    + apply completes_ret in Hb as [Hnil ->].
      destruct (@first_alone cA evs Finished qa ka (cB b g) a Honly Hnil Ha)
        as [H1 H2].
      rewrite H2. exact H1.
    + apply (IH qa q' ka k' g a b Honly Ha Hb).
Qed.

(** The first handler is alone and does not finish on the answers it
    receives. *)
Lemma still_in_flight (cA : A -> GState -> GState)
    (early late : list QueryResult) (a : A) :
  late <> [] ->
  forall (qa : Query) (ka : QueryResult -> Async A) (g : GState),
    completes (Await qa ka) (early ++ late) = Some a ->
    exists q' k',
      run_events settings
        {| globals := g;
           handlers := [Awaiting qa (fun r st => resume (ka r) cA st)] |}
        (map (Answer 0) early)
      = {| globals := g;
           handlers := [Awaiting q' (fun r st => resume (k' r) cA st)] |}
      /\ completes (Await q' k') late = Some a.
Proof.
  intros Hlate. induction early as [|r early IH]; intros qa ka g Ha.
  - exists qa, ka. now split.
  - cbn [app completes] in Ha.
    unfold run_events. cbn [map fold_left step nth_error handlers globals].
    destruct (ka r) as [a'|q' k'] eqn:E; cbn [resume set_nth].
    + apply completes_ret in Ha as [Hnil _].
      apply app_eq_nil in Hnil as [_ Hnil]. contradiction.
    + apply (IH q' k' g Ha).
Qed.

End Overlap.

Lemma truthy_pageTitleOf (r : QueryResult) :
  truthy (pageTitleOf r) = pageTitleOf r.
Proof. now destruct r as [[|[|[|c s] row] rows]|]. Qed.

(** The answers a resolution takes, and what it returns: one answer with a
    page title, or an answer without one and then the answer to the block
    query. *)
Lemma resolution_outcomes (u : str) (rs : list QueryResult)
    (res : option BreadcrumbItem) :
  completes (getBreadcrumbItemByUid u) rs = Some res ->
  (exists r t, rs = [r] /\ pageTitleOf r = Some t
               /\ res = Some {| uid := u; type := page; title := t |})
  \/ (exists r r', rs = [r; r'] /\ pageTitleOf r = None
                   /\ res = match blockStringOf r' with
                            | Some b => Some {| uid := u; type := block; title := b |}
                            | None => None
                            end).
Proof.
  destruct rs as [|r rs]; [discriminate|].
  cbn [getBreadcrumbItemByUid queryPageTitle bind completes].
  rewrite truthy_pageTitleOf.
  destruct (pageTitleOf r) as [t|] eqn:Ht.
  - intros H. apply completes_ret in H as [-> <-]. left. now exists r, t.
  - cbn [queryBlockString bind completes].
    destruct rs as [|r' rs]; [discriminate|]. cbn [completes].
    intros H. right. exists r, r'.
    assert (Hb : truthy (blockStringOf r') = blockStringOf r').
    { destruct r' as [[|row rows]|]; try reflexivity.
      simpl. destruct (truthy (hd_error row)) as [[|c s]|] eqn:E;
        try reflexivity.
      destruct (hd_error row) as [[|c' s']|]; discriminate. }
    rewrite Hb in H.
    destruct (blockStringOf r') as [b|];
      apply completes_ret in H as [-> <-]; auto.
Qed.

Lemma resolved_uid (u : str) (rs : list QueryResult) (item : BreadcrumbItem) :
  completes (getBreadcrumbItemByUid u) rs = Some (Some item) -> uid item = u.
Proof.
  intros H.
  apply resolution_outcomes in H
    as [(r & t & _ & _ & [= ->]) | (r & r' & _ & _ & H)]; [reflexivity|].
  destruct (blockStringOf r'); [injection H as -> | discriminate].
  reflexivity.
Qed.

Lemma remove_uid_firstn (u : str) (n : nat) (h : list BreadcrumbItem) :
  remove_uid u (firstn n (remove_uid u h)) = firstn n (remove_uid u h).
Proof.
  apply remove_uid_fixed. intros x Hx. apply In_firstn in Hx.
  now apply remove_uid_In in Hx.
Qed.

Lemma last_handler_two (evs : list Event) :
  answers_only evs = true -> evs <> [] ->
  last_handler evs = Some 0 \/ last_handler evs = Some 1.
Proof.
  induction evs as [|ev l IH]; intros Hevs Hne; [contradiction|].
  destruct l as [|ev' l'].
  - destruct ev as [h|[|[|j]] r]; try discriminate; auto.
  - rewrite last_handler_cons by discriminate.
    cbn [answers_only forallb] in Hevs.
    apply andb_true_iff in Hevs as [_ Hevs].
    apply IH; [exact Hevs | discriminate].
Qed.

Lemma later_commit_wins (settings : ExtensionSettings) (st : GState)
    (locX locY : Location) (itemX : BreadcrumbItem)
    (resY : option BreadcrumbItem) :
  uid itemX = loc_uid locX ->
  (forall itemY, resY = Some itemY -> uid itemY = loc_uid locY) ->
  committed_last settings st
    (commit_resolution settings locX (Some itemX)
       (commit_resolution settings locY resY st))
    locX locY itemX resY.
Proof.
  intros HX HY. split; [reflexivity|].
  intros cap Hcap Hmax. cbn [commit_resolution breadcrumbHistory].
  rewrite Hmax.
  assert (Hn : exists m, Z.to_nat (cap + 1) = S m).
  { exists (Z.to_nat cap). lia. }
  destruct Hn as [m Hm].
  split; [|split].
  - rewrite updateBreadcrumbHistory_int, Hm by exact Hcap. reflexivity.
  - intros ->. reflexivity.
  - intros itemY ->. cbn [commit_resolution breadcrumbHistory].
    rewrite Hmax, !updateBreadcrumbHistory_int, Hm by exact Hcap.
    specialize (HY itemY eq_refl).
    cbn [firstn remove_uid]. split.
    + intros Hsame.
      assert (E : str_eqb (uid itemY) (uid itemX) = true).
      { apply str_eqb_eq. congruence. }
      rewrite E.
      replace (uid itemY) with (uid itemX) by congruence.
      rewrite remove_uid_firstn. cbn [firstn].
      now rewrite firstn_firstn, Nat.min_id.
    + intros Hdiff Hcap1.
      assert (E : str_eqb (uid itemY) (uid itemX) = false).
      { apply str_eqb_neq. congruence. }
      rewrite E.
      destruct m as [|m']; [lia|]. reflexivity.
Qed.

(** C8, as the code has it.  Two runs of the handler overlap: the signal
    changes to hashA, and changes again to hashB while the resolution for
    hashA is still in flight; each resolution takes either path (a page
    title; no page title and then a block string or nothing), and the
    answers of the two runs arrive in any order.  Each run commits when its
    own resolution completes, on the module variables of that moment, so the
    state in the end is that of the two commits in the order of completion,
    whichever signal came last.  The run that completes last with an entry
    has its location tracked and its entry first in the history; the entry
    of the other run is second when the ids differ and the cap is at least
    one, and is replaced when the ids are the same.  A run that completes
    last and finds nothing leaves what the other committed. *)
Theorem overlapping_runs_commit_in_completion_order
    (settings : ExtensionSettings) (st : GState) (hashA hashB : str)
    (locA locB : Location) (early : list QueryResult) (evs : list Event)
    (resA resB : option BreadcrumbItem)
    (HlocA : getLocationFromHash hashA = Some locA)
    (HnewA : same_uid (currentLocation st) locA = false)
    (HlocB : getLocationFromHash hashB = Some locB)
    (HnewB : same_uid (currentLocation st) locB = false)
    (Hevs : answers_only evs = true)
    (Hflight : answers_to 0 evs <> [])
    (HA : completes (getBreadcrumbItemByUid (loc_uid locA))
                    (early ++ answers_to 0 evs) = Some resA)
    (HB : completes (getBreadcrumbItemByUid (loc_uid locB))
                    (answers_to 1 evs) = Some resB) :
  let g := globals (overlapping_runs settings st hashA early hashB evs) in
  g = match last_handler evs with
      | Some 0 =>
          commit_resolution settings locA resA
            (commit_resolution settings locB resB st)
      | _ =>
          commit_resolution settings locB resB
            (commit_resolution settings locA resA st)
      end
  /\ (last_handler evs = Some 0 \/ last_handler evs = Some 1)
  /\ (last_handler evs = Some 0 ->
      (forall itemA, resA = Some itemA ->
         committed_last settings st g locA locB itemA resB)
      /\ (resA = None -> g = commit_resolution settings locB resB st))
  /\ (last_handler evs = Some 1 ->
      (forall itemB, resB = Some itemB ->
         committed_last settings st g locB locA itemB resA)
      /\ (resB = None -> g = commit_resolution settings locA resA st)).
Proof.
  intros g.
  assert (Hg : g = match last_handler evs with
                   | Some 0 =>
                       commit_resolution settings locA resA
                         (commit_resolution settings locB resB st)
                   | _ =>
                       commit_resolution settings locB resB
                         (commit_resolution settings locA resA st)
                   end).
  { subst g. unfold overlapping_runs, run_events.
    cbn [fold_left step handlers globals].
    rewrite (handleNavigation_resumes settings hashA st HlocA HnewA).
    destruct (getBreadcrumbItemByUid_awaits (loc_uid locA)) as [kA EA].
    destruct (getBreadcrumbItemByUid_awaits (loc_uid locB)) as [kB EB].
    rewrite EA in HA |- *. rewrite EB in HB. cbn [resume app].
    rewrite fold_left_app.
    destruct (@still_in_flight settings _
                (commit_resolution settings locA) early (answers_to 0 evs)
                resA Hflight _ kA st HA) as (q' & k' & Hrun & HA').
    unfold run_events in Hrun. rewrite Hrun.
    cbn [fold_left step handlers globals].
    rewrite (handleNavigation_resumes settings hashB st HlocB HnewB), EB.
    cbn [resume app].
    apply (@two_waiting settings _ (commit_resolution settings locA)
             (commit_resolution settings locB) evs q' _ k' kB st resA resB
             Hevs HA' HB). }
  assert (Hlast : last_handler evs = Some 0 \/ last_handler evs = Some 1).
  { apply last_handler_two; [exact Hevs|].
    now apply answers_nonempty with (i := 0). }
  split; [exact Hg|]. split; [exact Hlast|].
  assert (HuA : forall itemA, resA = Some itemA -> uid itemA = loc_uid locA).
  { intros itemA ->. now apply resolved_uid in HA. }
  assert (HuB : forall itemB, resB = Some itemB -> uid itemB = loc_uid locB).
  { intros itemB ->. now apply resolved_uid in HB. }
  split.
  - intros H0. rewrite H0 in Hg. split.
    + intros itemA ->. rewrite Hg.
      apply later_commit_wins; auto.
    + intros ->. exact Hg.
  - intros H1. rewrite H1 in Hg. split.
    + intros itemB ->. rewrite Hg.
      apply later_commit_wins; auto.
    + intros ->. exact Hg.
Qed.

Lemma overlapping_runs_commit_in_completion_order_witness :
  let hashA := js "#/app/graph/page/aaa" in
  let hashB := js "#/app/graph/page/bbb" in
  let evs := [Answer 1 (Some [[js "Page B"]]); Answer 0 (Some [[js "block a"]])] in
  let g := globals (overlapping_runs DEFAULT_SETTINGS initial hashA [Some []]
                                     hashB evs) in
  answers_to 0 evs <> []
  /\ last_handler evs = Some 0
  /\ currentLocation g = Some (mkLocation page (js "aaa"))
  /\ breadcrumbHistory g
     = [crumb block "aaa" "block a"; crumb page "bbb" "Page B"].
Proof.
  cbv zeta.
  assert (Hflight : answers_to 0 [Answer 1 (Some [[js "Page B"]]);
                                  Answer 0 (Some [[js "block a"]])] <> [])
    by discriminate.
  split; [exact Hflight|]. split; [reflexivity|].
  pose proof (@overlapping_runs_commit_in_completion_order
                DEFAULT_SETTINGS initial
                (js "#/app/graph/page/aaa") (js "#/app/graph/page/bbb")
                (mkLocation page (js "aaa")) (mkLocation page (js "bbb"))
                [Some []]
                [Answer 1 (Some [[js "Page B"]]); Answer 0 (Some [[js "block a"]])]
                (Some (crumb block "aaa" "block a"))
                (Some (crumb page "bbb" "Page B"))
                eq_refl eq_refl eq_refl eq_refl eq_refl Hflight eq_refl eq_refl)
    as H.
  cbv zeta in H. destruct H as (Hg & _ & _ & _).
  rewrite Hg. split; reflexivity.
Defined.
